(** * CHESS-MASTER: the search-and-evaluation engine of [chess_engine.py]

    A shallow embedding of [ChessEngine] (evaluation, move ordering,
    quiescence, alpha-beta minimax, opening advisor, move selector and the
    played/undone history) together with the properties of its
    specification.

    The engine is written against the [chess] package (python-chess), which
    is not part of the repository.  Its data (colours, pieces, squares,
    moves, positions, the board with its undo stack) is modelled
    concretely; its rules (legal-move generation, move application, check
    and draw detection, position notation) are an interface, [Rules], that
    every engine definition takes as a parameter.  Module [PyChess] gives
    the instance of that interface used to run the engine on real
    positions. *)

From Stdlib Require Import List String Ascii Bool Arith ZArith QArith Qabs Lia.
From Stdlib Require Import Permutation Sorted.
Import ListNotations.

Set Implicit Arguments.
Close Scope Q_scope.
Open Scope nat_scope.

(* ================================================================== *)
(** * Data of the [chess] package used by the engine                   *)
(* ================================================================== *)

(** [chess.Color]: [chess.WHITE] is [True], [chess.BLACK] is [False]. *)
Inductive Color := WHITE | BLACK.

Definition color_eqb (a b : Color) : bool :=
  match a, b with
  | WHITE, WHITE | BLACK, BLACK => true
  | _, _ => false
  end.

(** [not color] *)
Definition opposite (c : Color) : Color :=
  match c with WHITE => BLACK | BLACK => WHITE end.

(** [chess.PieceType]: [PAWN = 1] ... [KING = 6]. *)
Inductive PieceType := PAWN | KNIGHT | BISHOP | ROOK | QUEEN | KING.

Definition piece_type_eqb (a b : PieceType) : bool :=
  match a, b with
  | PAWN, PAWN | KNIGHT, KNIGHT | BISHOP, BISHOP
  | ROOK, ROOK | QUEEN, QUEEN | KING, KING => true
  | _, _ => false
  end.

(** [chess.Piece] *)
Record Piece := mkPiece { piece_type : PieceType; color : Color }.

Definition piece_eqb (a b : Piece) : bool :=
  piece_type_eqb (piece_type a) (piece_type b) && color_eqb (color a) (color b).

(** [chess.Square]: [0] is a1, [7] is h1, [56] is a8, [63] is h8. *)
Definition Square := nat.

(** [chess.SQUARES] *)
Definition SQUARES : list Square := seq 0 64.

Definition square_file (s : Square) : Z := Z.of_nat (s mod 8).
Definition square_rank (s : Square) : Z := Z.of_nat (s / 8).

(** [chess.square(file, rank)] *)
Definition square (file rank : Z) : Square := Z.to_nat (rank * 8 + file).

(** [chess.Move]: origin, destination, promotion piece and (for variants
    with drops) the dropped piece. *)
Record Move := mkMove {
  from_square : Square;
  to_square : Square;
  promotion : option PieceType;
  drop : option PieceType
}.

Definition move (f t : Square) : Move := mkMove f t None None.

Definition option_eqb {A} (eqb : A -> A -> bool) (a b : option A) : bool :=
  match a, b with
  | Some x, Some y => eqb x y
  | None, None => true
  | _, _ => false
  end.

Definition is_some {A} (o : option A) : bool :=
  match o with Some _ => true | None => false end.

Definition move_eqb (a b : Move) : bool :=
  Nat.eqb (from_square a) (from_square b) &&
  Nat.eqb (to_square a) (to_square b) &&
  option_eqb piece_type_eqb (promotion a) (promotion b) &&
  option_eqb piece_type_eqb (drop a) (drop b).

(** [Move.__bool__]: only the null move is falsy. *)
Definition move_bool (m : Move) : bool :=
  negb (Nat.eqb (from_square m) 0) || negb (Nat.eqb (to_square m) 0) ||
  is_some (promotion m) || is_some (drop m).

(** [x in xs] for moves. *)
Definition move_in (m : Move) (ms : list Move) : bool := existsb (move_eqb m) ms.

(** ** Move codes (UCI) *)

Definition FILE_NAMES : list ascii :=
  ["a"; "b"; "c"; "d"; "e"; "f"; "g"; "h"]%char.
Definition RANK_NAMES : list ascii :=
  ["1"; "2"; "3"; "4"; "5"; "6"; "7"; "8"]%char.

(** [chess.SQUARE_NAMES[s]] *)
Definition square_name (s : Square) : string :=
  String (nth (s mod 8) FILE_NAMES "?"%char)
    (String (nth (s / 8) RANK_NAMES "?"%char) EmptyString).

(** [list.index] *)
Fixpoint index_of {A} (eqb : A -> A -> bool) (x : A) (l : list A) : option nat :=
  match l with
  | [] => None
  | y :: l' => if eqb x y then Some 0%nat
               else option_map S (index_of eqb x l')
  end.

(** [chess.SQUARE_NAMES.index(name)] for a two-character [name]. *)
Definition parse_square (f r : ascii) : option Square :=
  match index_of Ascii.eqb f FILE_NAMES, index_of Ascii.eqb r RANK_NAMES with
  | Some i, Some j => Some (j * 8 + i)%nat
  | _, _ => None
  end.

(** [chess.piece_symbol] *)
Definition piece_symbol (pt : PieceType) : ascii :=
  match pt with
  | PAWN => "p" | KNIGHT => "n" | BISHOP => "b"
  | ROOK => "r" | QUEEN => "q" | KING => "k"
  end%char.

(** [chess.PIECE_SYMBOLS.index(c)] *)
Definition parse_piece_symbol (c : ascii) : option PieceType :=
  match c with
  | "p" => Some PAWN | "n" => Some KNIGHT | "b" => Some BISHOP
  | "r" => Some ROOK | "q" => Some QUEEN | "k" => Some KING
  | _ => None
  end%char.

(** [str.upper] and [str.lower] on one ASCII letter. *)
Definition upper (c : ascii) : ascii :=
  let n := nat_of_ascii c in
  if (97 <=? n)%nat && (n <=? 122)%nat then ascii_of_nat (n - 32) else c.
Definition lower (c : ascii) : ascii :=
  let n := nat_of_ascii c in
  if (65 <=? n)%nat && (n <=? 90)%nat then ascii_of_nat (n + 32) else c.

(** [Move.uci()] *)
Definition uci (m : Move) : string :=
  match drop m with
  | Some d =>
      String (upper (piece_symbol d)) (String "@"%char (square_name (to_square m)))
  | None =>
      match promotion m with
      | Some p =>
          square_name (from_square m) ++ square_name (to_square m)
            ++ String (piece_symbol p) EmptyString
      | None =>
          if move_bool m
          then square_name (from_square m) ++ square_name (to_square m)
          else "0000"
      end
  end%string.

(** [Move.from_uci(code)]; [None] stands for the [ValueError] it raises. *)
Definition from_uci (code : string) : option Move :=
  if String.eqb code "0000" then Some (move 0 0)
  else
    match list_ascii_of_string code with
    | [p; "@"%char; f; r] =>
        match parse_piece_symbol (lower p), parse_square f r with
        | Some d, Some s => Some (mkMove s s None (Some d))
        | _, _ => None
        end
    | [f1; r1; f2; r2] =>
        match parse_square f1 r1, parse_square f2 r2 with
        | Some a, Some b => if Nat.eqb a b then None else Some (move a b)
        | _, _ => None
        end
    | [f1; r1; f2; r2; p] =>
        match parse_square f1 r1, parse_square f2 r2, parse_piece_symbol p with
        | Some a, Some b, Some pt =>
            if Nat.eqb a b then None else Some (mkMove a b (Some pt) None)
        | _, _, _ => None
        end
    | _ => None
    end.

(** ** Scores

    The search mixes Python integers (static evaluations) with the floats
    [float('inf')] and [-float('inf')], and its bounds are typed [float].
    Every finite float is a rational and Python compares and negates them
    exactly, so a score is a rational or one of the two infinities. *)
Inductive score := NegInf | Fin (q : Q) | PosInf.

Definition of_int (z : Z) : score := Fin (inject_Z z).

(** [a <= b] *)
Definition score_leb (a b : score) : bool :=
  match a, b with
  | NegInf, _ => true
  | _, PosInf => true
  | Fin x, Fin y => Qle_bool x y
  | _, _ => false
  end.

(** [a < b] *)
Definition score_ltb (a b : score) : bool := negb (score_leb b a).

(** [-a] *)
Definition score_neg (a : score) : score :=
  match a with
  | NegInf => PosInf
  | Fin x => Fin (- x)
  | PosInf => NegInf
  end.

(** [max(a, b)] and [min(a, b)]: Python keeps the first argument on ties. *)
Definition score_max (a b : score) : score := if score_ltb a b then b else a.
Definition score_min (a b : score) : score := if score_ltb b a then b else a.

Definition score_le (a b : score) : Prop := score_leb a b = true.
Definition score_lt (a b : score) : Prop := score_ltb a b = true.

(** ** Positions and the board *)

(** [Board.castling_rights]: the rooks (h1, a1, h8, a8) that may still
    castle. *)
Record Castling := mkCastling {
  white_kingside : bool;
  white_queenside : bool;
  black_kingside : bool;
  black_queenside : bool
}.

(** The content of a position: piece placement (one entry per square, a1
    first), side to move, castling rights, en-passant square and the two
    move counters. *)
Record Position := mkPosition {
  placement : list (option Piece);
  turn : Color;
  castling_rights : Castling;
  ep_square : option Square;
  halfmove_clock : nat;
  fullmove_number : nat
}.

(** [chess.Board]: the current position, the moves pushed so far
    ([Board.move_stack], most recent first) and the positions they were
    pushed on ([Board._stack], most recent first), which [pop] restores. *)
Record Board := mkBoard {
  position : Position;
  move_stack : list Move;
  stack : list Position
}.

(** [chess.Board(fen)] starts with empty stacks. *)
Definition new_board (p : Position) : Board := mkBoard p [] [].

(** [Board.piece_at(square)] *)
Definition piece_at (p : Position) (s : Square) : option Piece :=
  nth s (placement p) None.

(** [Board.pieces(piece_type, color)]: the squares holding such a piece. *)
Definition pieces (p : Position) (pt : PieceType) (c : Color) : list Square :=
  filter (fun s => option_eqb piece_eqb (piece_at p s) (Some (mkPiece pt c))) SQUARES.

(** [Board.king(color)]: the highest square holding a king of that colour. *)
Definition king (p : Position) (c : Color) : option Square :=
  match rev (pieces p KING c) with
  | s :: _ => Some s
  | [] => None
  end.

(** The corner squares and the squares of the kings, before and after
    castling. *)
Definition A1 : Square := 0%nat.
Definition C1 : Square := 2%nat.
Definition E1 : Square := 4%nat.
Definition G1 : Square := 6%nat.
Definition H1 : Square := 7%nat.
Definition A8 : Square := 56%nat.
Definition C8 : Square := 58%nat.
Definition E8 : Square := 60%nat.
Definition G8 : Square := 62%nat.
Definition H8 : Square := 63%nat.

(** [self.kings & BB_SQUARES[s]]: a king of either colour stands on [s]. *)
Definition king_on (p : Position) (s : Square) : bool :=
  match piece_at p s with
  | Some pc => piece_type_eqb (piece_type pc) KING
  | None => false
  end.

(** [Board._from_chess960(False, ...)]: castling spelled as the king taking
    its own rook ([e1h1], [e1a1], [e8h8], [e8a8]) is the king's two-square
    move; every other move is itself. *)
Definition _from_chess960 (p : Position) (m : Move) : Move :=
  match promotion m, drop m with
  | None, None =>
      if Nat.eqb (from_square m) E1 && king_on p E1 then
        if Nat.eqb (to_square m) H1 then move E1 G1
        else if Nat.eqb (to_square m) A1 then move E1 C1
        else m
      else if Nat.eqb (from_square m) E8 && king_on p E8 then
        if Nat.eqb (to_square m) H8 then move E8 G8
        else if Nat.eqb (to_square m) A8 then move E8 C8
        else m
      else m
  | _, _ => m
  end.

(** [board.turn = color] *)
Definition with_turn (p : Position) (c : Color) : Position :=
  mkPosition (placement p) c (castling_rights p) (ep_square p)
    (halfmove_clock p) (fullmove_number p).

Definition set_turn (b : Board) (c : Color) : Board :=
  mkBoard (with_turn (position b) c) (move_stack b) (stack b).

(** [Board.pop()]: restores the position saved by the last [push].  On an
    empty stack Python raises [IndexError]; the engine only pops what it
    pushed, and the board is left as it is here. *)
Definition pop (b : Board) : Board :=
  match move_stack b, stack b with
  | _ :: ms, p :: ps => mkBoard p ms ps
  | _, _ => b
  end.

(** ** The rules collaborator

    What the engine asks of the [chess] package about a position.  All
    queries but [is_game_over] depend on the position content only;
    [is_game_over] also sees the stack (repetition). *)
Class Rules := {
  (** [list(board.legal_moves)], in generation order *)
  legal_moves : Position -> list Move;
  (** the position after [board.push(move)]; [push] reads castling in
      both spellings *)
  apply_move : Position -> Move -> Position;
  is_check : Position -> bool;
  is_checkmate : Position -> bool;
  is_stalemate : Position -> bool;
  is_insufficient_material : Position -> bool;
  is_capture : Position -> Move -> bool;
  is_game_over : Board -> bool;
  (** [chess.Board(fen)]; [None] stands for the [ValueError] it raises *)
  parse_fen : string -> option Position;
  (** [chess.Board()] *)
  starting_position : Position
}.

(** [Board.push(move)]: the move stack takes the move as
    [_from_chess960] spells it. *)
Definition push `{Rules} (b : Board) (m : Move) : Board :=
  mkBoard (apply_move (position b) m)
    (_from_chess960 (position b) m :: move_stack b) (position b :: stack b).

(** [move in board.legal_moves]: [LegalMoveGenerator.__contains__] is
    [Board.is_legal(move)], not a search of the list.  It holds of the
    moves the generator lists and, as [is_pseudo_legal] reads a king's move
    through [_from_chess960], of the king-takes-rook spelling of a listed
    castling move. *)
Definition is_legal `{Rules} (p : Position) (m : Move) : bool :=
  move_in m (legal_moves p) || move_in (_from_chess960 p m) (legal_moves p).

(* ================================================================== *)
(** * [chess_engine.py]: constants                                     *)
(* ================================================================== *)

Open Scope Z_scope.

Definition PIECE_VALUES (pt : PieceType) : Z :=
  match pt with
  | PAWN => 100
  | KNIGHT => 320
  | BISHOP => 330
  | ROOK => 500
  | QUEEN => 900
  | KING => 20000
  end.

Definition PAWN_TABLE : list Z := [
    0;  0;  0;  0;  0;  0;  0;  0;
    50; 50; 50; 50; 50; 50; 50; 50;
    10; 10; 20; 30; 30; 20; 10; 10;
    5;  5; 10; 25; 25; 10;  5;  5;
    0;  0;  0; 20; 20;  0;  0;  0;
    5; -5;-10;  0;  0;-10; -5;  5;
    5; 10; 10;-20;-20; 10; 10;  5;
    0;  0;  0;  0;  0;  0;  0;  0
].

Definition KNIGHT_TABLE : list Z := [
    -50;-40;-30;-30;-30;-30;-40;-50;
    -40;-20;  0;  0;  0;  0;-20;-40;
    -30;  0; 10; 15; 15; 10;  0;-30;
    -30;  5; 15; 20; 20; 15;  5;-30;
    -30;  0; 15; 20; 20; 15;  0;-30;
    -30;  5; 10; 15; 15; 10;  5;-30;
    -40;-20;  0;  5;  5;  0;-20;-40;
    -50;-40;-30;-30;-30;-30;-40;-50
].

Definition BISHOP_TABLE : list Z := [
    -20;-10;-10;-10;-10;-10;-10;-20;
    -10;  0;  0;  0;  0;  0;  0;-10;
    -10;  0;  5; 10; 10;  5;  0;-10;
    -10;  5;  5; 10; 10;  5;  5;-10;
    -10;  0; 10; 10; 10; 10;  0;-10;
    -10; 10; 10; 10; 10; 10; 10;-10;
    -10;  5;  0;  0;  0;  0;  5;-10;
    -20;-10;-10;-10;-10;-10;-10;-20
].

Definition ROOK_TABLE : list Z := [
    0;  0;  0;  0;  0;  0;  0;  0;
    5; 10; 10; 10; 10; 10; 10;  5;
    -5;  0;  0;  0;  0;  0;  0; -5;
    -5;  0;  0;  0;  0;  0;  0; -5;
    -5;  0;  0;  0;  0;  0;  0; -5;
    -5;  0;  0;  0;  0;  0;  0; -5;
    -5;  0;  0;  0;  0;  0;  0; -5;
    0;  0;  0;  5;  5;  0;  0;  0
].

Definition QUEEN_TABLE : list Z := [
    -20;-10;-10; -5; -5;-10;-10;-20;
    -10;  0;  0;  0;  0;  0;  0;-10;
    -10;  0;  5;  5;  5;  5;  0;-10;
    -5;  0;  5;  5;  5;  5;  0; -5;
    0;  0;  5;  5;  5;  5;  0; -5;
    -10;  5;  5;  5;  5;  5;  0;-10;
    -10;  0;  5;  0;  0;  0;  0;-10;
    -20;-10;-10; -5; -5;-10;-10;-20
].

Definition KING_MIDDLE_TABLE : list Z := [
    -30;-40;-40;-50;-50;-40;-40;-30;
    -30;-40;-40;-50;-50;-40;-40;-30;
    -30;-40;-40;-50;-50;-40;-40;-30;
    -30;-40;-40;-50;-50;-40;-40;-30;
    -20;-30;-30;-40;-40;-30;-30;-20;
    -10;-20;-20;-20;-20;-20;-20;-10;
    20; 20;  0;  0;  0;  0; 20; 20;
    20; 30; 10;  0;  0; 10; 30; 20
].

Definition KING_END_TABLE : list Z := [
    -50;-40;-30;-20;-20;-30;-40;-50;
    -30;-20;-10;  0;  0;-10;-20;-30;
    -30;-10; 20; 30; 30; 20;-10;-30;
    -30;-10; 30; 40; 40; 30;-10;-30;
    -30;-10; 30; 40; 40; 30;-10;-30;
    -30;-10; 20; 30; 30; 20;-10;-30;
    -30;-30;  0;  0;  0;  0;-30;-30;
    -50;-30;-30;-30;-30;-30;-30;-50
].

(** A Python [dict] with string keys, as an association list. *)
Definition book := list (string * list string).

Fixpoint book_get (k : string) (d : book) : option (list string) :=
  match d with
  | [] => None
  | (k', v) :: d' => if String.eqb k k' then Some v else book_get k d'
  end.

Definition ENGLISH_OPENING : book := [
    ("", ["c2c4"]);
    ("e7e5", ["b1c3"; "g2g3"]);
    ("e7e5 b1c3", ["g8f6"; "b8c6"]);
    ("e7e5 g2g3", ["g8f6"; "b8c6"]);
    ("c7c5", ["b1c3"; "g2g3"]);
    ("c7c5 b1c3", ["b8c6"; "g8f6"]);
    ("g8f6", ["b1c3"; "g2g3"]);
    ("g8f6 b1c3", ["e7e5"; "d7d5"]);
    ("d7d5", ["c4d5"; "b1c3"]);
    ("e7e6", ["b1c3"; "g2g3"; "g1f3"])
]%string.

Definition ENGLISH_THEMATIC_MOVES : list string :=
  ["b1c3"; "g2g3"; "f1g2"; "g1f3"; "e1g1"; "d2d3"; "e2e4"; "b2b3"]%string.

Definition MODERN_DEFENSE : book := [
    ("e2e4", ["g7g6"]);
    ("e2e4 g7g6", ["d7d6"; "f8g7"]);
    ("e2e4 g7g6 d2d4", ["f8g7"]);
    ("e2e4 g7g6 d2d4 f8g7", ["b8c6"; "d7d6"]);
    ("e2e4 g7g6 g1f3", ["f8g7"]);
    ("e2e4 g7g6 g1f3 f8g7", ["d7d6"; "c7c5"]);
    ("e2e4 g7g6 b1c3", ["f8g7"]);
    ("e2e4 g7g6 b1c3 f8g7", ["d7d6"; "c7c5"]);
    ("d2d4", ["g7g6"]);
    ("d2d4 g7g6", ["f8g7"]);
    ("d2d4 g7g6 e2e4", ["f8g7"]);
    ("d2d4 g7g6 c2c4", ["f8g7"]);
    ("g1f3", ["g7g6"]);
    ("c2c4", ["g7g6"])
]%string.

Definition MODERN_THEMATIC_MOVES : list string :=
  ["g7g6"; "f8g7"; "d7d6"; "b8d7"; "e7e5"; "c7c6"; "a7a6"; "b7b5"]%string.

(* ================================================================== *)
(** * [chess_engine.py]: the engine                                    *)
(* ================================================================== *)

(** The attributes of a [ChessEngine] instance. *)
Record ChessEngine := mkEngine {
  board : Board;
  move_history : list Move;
  redo_stack : list Move;
  ai_color : option Color;
  max_time : Q;
  start_time : Q;
  nodes_searched : Z;
  safety_threshold : Z
}.

(** The ambient sources the engine reads: the wall clock and the [random]
    module.  [time_time n] is what the [n]-th call of [time.time()] returns,
    [random_index n] decides the element picked when the [n]-th draw is a
    [random.choice], [random_random n] is the value when it is a
    [random.random()]. *)
Record Env := mkEnv {
  time_time : nat -> Q;
  random_index : nat -> nat;
  random_random : nat -> Q
}.

(** An engine together with the number of clock readings and of random
    draws made so far. *)
Record Machine := mkMachine {
  self : ChessEngine;
  time_calls : nat;
  rng_calls : nat
}.

(** Methods run in a state monad over [Machine]. *)
Definition M (A : Type) : Type := Machine -> A * Machine.

Definition ret {A} (x : A) : M A := fun s => (x, s).
Definition bind {A B} (c : M A) (k : A -> M B) : M B :=
  fun s => let (x, s') := c s in k x s'.
Definition gets {A} (f : ChessEngine -> A) : M A := fun s => (f (self s), s).
Definition modify (f : ChessEngine -> ChessEngine) : M unit :=
  fun s => (tt, mkMachine (f (self s)) (time_calls s) (rng_calls s)).

Declare Scope monad_scope.
Delimit Scope monad_scope with monad.
Notation "x <- c1 ;; c2" := (bind c1 (fun x => c2))
  (at level 61, c1 at next level, right associativity) : monad_scope.
Notation "c1 ;; c2" := (bind c1 (fun _ => c2))
  (at level 61, right associativity) : monad_scope.
Open Scope monad_scope.

Definition set_board (b : Board) (e : ChessEngine) : ChessEngine :=
  mkEngine b (move_history e) (redo_stack e) (ai_color e)
    (max_time e) (start_time e) (nodes_searched e) (safety_threshold e).
Definition set_move_history (h : list Move) (e : ChessEngine) : ChessEngine :=
  mkEngine (board e) h (redo_stack e) (ai_color e)
    (max_time e) (start_time e) (nodes_searched e) (safety_threshold e).
Definition set_redo_stack (r : list Move) (e : ChessEngine) : ChessEngine :=
  mkEngine (board e) (move_history e) r (ai_color e)
    (max_time e) (start_time e) (nodes_searched e) (safety_threshold e).
Definition set_ai_color_field (c : option Color) (e : ChessEngine) : ChessEngine :=
  mkEngine (board e) (move_history e) (redo_stack e) c
    (max_time e) (start_time e) (nodes_searched e) (safety_threshold e).
Definition set_start_time (t : Q) (e : ChessEngine) : ChessEngine :=
  mkEngine (board e) (move_history e) (redo_stack e) (ai_color e)
    (max_time e) t (nodes_searched e) (safety_threshold e).
Definition set_nodes_searched (n : Z) (e : ChessEngine) : ChessEngine :=
  mkEngine (board e) (move_history e) (redo_stack e) (ai_color e)
    (max_time e) (start_time e) n (safety_threshold e).

(** [list.pop()]: the last element and the list without it. *)
Fixpoint list_pop {A} (l : list A) : option (list A * A) :=
  match l with
  | [] => None
  | x :: l' =>
      match list_pop l' with
      | None => Some ([], x)
      | Some (r, y) => Some (x :: r, y)
      end
  end.

(** [sort(key=lambda x: x[0], reverse=True)]: stable, descending by key. *)
Fixpoint insert_desc {A} (x : Z * A) (l : list (Z * A)) : list (Z * A) :=
  match l with
  | [] => [x]
  | y :: l' => if fst x <? fst y then y :: insert_desc x l' else x :: y :: l'
  end.

Definition sort_desc {A} (l : list (Z * A)) : list (Z * A) :=
  fold_right insert_desc [] l.

(** [int(x)] on a float: truncation towards zero. *)
Definition int_of_float (x : Q) : Z := Z.quot (Qnum x) (Zpos (Qden x)).

Definition Qlt_bool (a b : Q) : bool := negb (Qle_bool b a).

(** [bool(s)] on a string. *)
Definition str_bool (s : string) : bool := negb (String.eqb s "").

Section Engine.

Context `{R : Rules}.

(** [ChessEngine()] *)
Definition init : ChessEngine :=
  mkEngine (new_board starting_position) [] [] None 5%Q 0%Q 0 (-200).

(** ** Board access from methods *)

Definition board_push (m : Move) : M unit :=
  modify (fun e => set_board (push (board e) m) e).
Definition board_pop : M unit :=
  modify (fun e => set_board (pop (board e)) e).
Definition board_set_turn (c : Color) : M unit :=
  modify (fun e => set_board (set_turn (board e) c) e).
Definition the_position : M Position := gets (fun e => position (board e)).
Definition board_legal_moves : M (list Move) :=
  gets (fun e => legal_moves (position (board e))).
Definition board_turn : M Color := gets (fun e => turn (position (board e))).

(** ** Session operations *)

Definition reset : M unit :=
  modify (fun e =>
    mkEngine (new_board starting_position) [] [] None
      (max_time e) (start_time e) (nodes_searched e) (safety_threshold e)).

Definition set_ai_color (c : Color) : M unit :=
  modify (set_ai_color_field (Some c)).

(** [Board.set_fen] replaces the position and clears the board's stacks. *)
Definition set_fen (fen : string) : M bool :=
  match parse_fen fen with
  | Some p => modify (set_board (new_board p)) ;; ret true
  | None => ret false
  end.

Definition is_valid_fen (fen : string) : M bool :=
  ret (is_some (parse_fen fen)).

Definition make_move (move_uci : string) : M bool :=
  match from_uci move_uci with
  | Some mv =>
      p <- the_position ;;
      if is_legal p mv then
        board_push mv ;;
        modify (fun e => set_move_history (move_history e ++ [mv]) e) ;;
        modify (set_redo_stack []) ;;
        ret true
      else ret false
  | None => ret false
  end.

Definition undo_move : M (option string) :=
  history <- gets move_history ;;
  match list_pop history with
  | Some (rest, mv) =>
      modify (set_move_history rest) ;;
      modify (fun e => set_redo_stack (redo_stack e ++ [mv]) e) ;;
      board_pop ;;
      ret (Some (uci mv))
  | None => ret None
  end.

Definition redo_move : M (option string) :=
  redo <- gets redo_stack ;;
  match list_pop redo with
  | Some (rest, mv) =>
      modify (set_redo_stack rest) ;;
      board_push mv ;;
      modify (fun e => set_move_history (move_history e ++ [mv]) e) ;;
      ret (Some (uci mv))
  | None => ret None
  end.

Definition get_move_history_uci : M (list string) :=
  history <- gets move_history ;; ret (map uci history).

Definition get_legal_moves : M (list string) :=
  legal <- board_legal_moves ;; ret (map uci legal).

(** ** Evaluation *)

Definition is_endgame : M bool :=
  p <- the_position ;;
  let queens := (List.length (pieces p QUEEN WHITE) + List.length (pieces p QUEEN BLACK))%nat in
  let minor_pieces := (List.length (pieces p KNIGHT WHITE) +
                       List.length (pieces p BISHOP WHITE) +
                       List.length (pieces p KNIGHT BLACK) +
                       List.length (pieces p BISHOP BLACK))%nat in
  ret (Nat.eqb queens 0 || (Nat.eqb queens 2 && (minor_pieces <=? 2)%nat)).

Definition get_piece_square_value (piece : Piece) (sq : Square) : M Z :=
  table <-
    match piece_type piece with
    | KING => endgame <- is_endgame ;;
              ret (if endgame then KING_END_TABLE else KING_MIDDLE_TABLE)
    | PAWN => ret PAWN_TABLE
    | KNIGHT => ret KNIGHT_TABLE
    | BISHOP => ret BISHOP_TABLE
    | ROOK => ret ROOK_TABLE
    | QUEEN => ret QUEEN_TABLE
    end ;;
  match color piece with
  | WHITE => ret (nth (63 - sq)%nat table 0)
  | BLACK => ret (nth sq table 0)
  end.

Definition evaluate_mobility : M Z :=
  current_turn <- board_turn ;;
  board_set_turn WHITE ;;
  white_moves <- board_legal_moves ;;
  let white_mobility := Z.of_nat (List.length white_moves) in
  board_set_turn BLACK ;;
  black_moves <- board_legal_moves ;;
  let black_mobility := Z.of_nat (List.length black_moves) in
  board_set_turn current_turn ;;
  ret ((white_mobility - black_mobility) * 5).

(** The inner loop of [evaluate_king_safety] over [file_offset]. *)
Fixpoint shield_loop (p : Position) (c : Color) (king_file king_rank pawn_direction : Z)
    (offsets : list Z) (shield_bonus : Z) : Z :=
  match offsets with
  | [] => shield_bonus
  | file_offset :: rest =>
      let check_file := king_file + file_offset in
      let check_rank := king_rank + pawn_direction in
      let shield_bonus :=
        if (0 <=? check_file) && (check_file <=? 7) &&
           (0 <=? check_rank) && (check_rank <=? 7)
        then
          match piece_at p (square check_file check_rank) with
          | Some piece =>
              if piece_type_eqb (piece_type piece) PAWN && color_eqb (color piece) c
              then shield_bonus + 10 else shield_bonus
          | None => shield_bonus
          end
        else shield_bonus in
      shield_loop p c king_file king_rank pawn_direction rest shield_bonus
  end.

(** The outer loop of [evaluate_king_safety] over the two colours. *)
Fixpoint king_safety_loop (p : Position) (colors : list Color) (score : Z) : Z :=
  match colors with
  | [] => score
  | c :: rest =>
      match king p c with
      | None => king_safety_loop p rest score
      | Some king_square =>
          let king_file := square_file king_square in
          let king_rank := square_rank king_square in
          let pawn_direction := match c with WHITE => 1 | BLACK => -1 end in
          let shield_bonus :=
            shield_loop p c king_file king_rank pawn_direction [-1; 0; 1] 0 in
          king_safety_loop p rest
            (match c with
             | WHITE => score + shield_bonus
             | BLACK => score - shield_bonus
             end)
      end
  end.

Definition evaluate_king_safety : M Z :=
  p <- the_position ;; ret (king_safety_loop p [WHITE; BLACK] 0).

(** The loop of [evaluate] over [chess.SQUARES]. *)
Fixpoint material_loop (sqs : list Square) (score : Z) : M Z :=
  match sqs with
  | [] => ret score
  | sq :: rest =>
      p <- the_position ;;
      match piece_at p sq with
      | Some piece =>
          psv <- get_piece_square_value piece sq ;;
          let value := PIECE_VALUES (piece_type piece) + psv in
          material_loop rest
            (match color piece with
             | WHITE => score + value
             | BLACK => score - value
             end)
      | None => material_loop rest score
      end
  end.

Definition evaluate : M Z :=
  p <- the_position ;;
  if is_checkmate p then
    ret (match turn p with WHITE => -30000 | BLACK => 30000 end)
  else if is_stalemate p || is_insufficient_material p then
    ret 0
  else
    score <- material_loop SQUARES 0 ;;
    mobility <- evaluate_mobility ;;
    let score := score + mobility in
    endgame <- is_endgame ;;
    score <- (if negb endgame
              then safety <- evaluate_king_safety ;; ret (score + safety)
              else ret score) ;;
    p <- the_position ;;
    if is_check p
    then ret (score + match turn p with WHITE => -30 | BLACK => 30 end)
    else ret score.

(** ** Ambient reads *)

Variable env : Env.

(** [time.time()] *)
Definition time_now : M Q :=
  fun s => (time_time env (time_calls s),
            mkMachine (self s) (S (time_calls s)) (rng_calls s)).

(** [random.choice(seq)] on a non-empty [seq] (on an empty one Python raises
    [IndexError]; every call of the engine is on a non-empty list, and [d]
    is never returned). *)
Definition random_choice {A} (d : A) (seq : list A) : M A :=
  fun s => (nth (random_index env (rng_calls s) mod List.length seq)%nat seq d,
            mkMachine (self s) (time_calls s) (S (rng_calls s))).

(** [random.random()] *)
Definition random_float : M Q :=
  fun s => (random_random env (rng_calls s),
            mkMachine (self s) (time_calls s) (S (rng_calls s))).

(** ** Opening advisor *)

(** [1 if self.ai_color == chess.WHITE else -1] *)
Definition perspective_of (c : option Color) : Z :=
  match c with Some WHITE => 1 | _ => -1 end.

(** The loop of [_get_thematic_move] over the legal moves. *)
Fixpoint thematic_loop (thematic_moves : list string) (moves : list Move)
    (thematic_legal : list string) : M (list string) :=
  match moves with
  | [] => ret thematic_legal
  | mv :: rest =>
      if existsb (String.eqb (uci mv)) thematic_moves then
        board_push mv ;;
        eval_score <- evaluate ;;
        board_pop ;;
        ai <- gets ai_color ;;
        let perspective := perspective_of ai in
        threshold <- gets safety_threshold ;;
        if threshold <=? eval_score * perspective
        then thematic_loop thematic_moves rest (thematic_legal ++ [uci mv])
        else thematic_loop thematic_moves rest thematic_legal
      else thematic_loop thematic_moves rest thematic_legal
  end.

Definition _get_thematic_move (thematic_moves : list string) : M (option string) :=
  legal <- board_legal_moves ;;
  thematic_legal <- thematic_loop thematic_moves legal [] ;;
  match thematic_legal with
  | [] => ret None
  | _ :: _ =>
      x <- random_float ;;
      if Qlt_bool x (7 # 10)
      then choice <- random_choice ""%string thematic_legal ;; ret (Some choice)
      else ret None
  end.

Definition get_opening_move : M (option string) :=
  codes <- get_move_history_uci ;;
  let move_sequence := String.concat " " codes in
  history <- gets move_history ;;
  let move_count := List.length history in
  ai <- gets ai_color ;;
  match ai with
  | Some WHITE =>
      match book_get move_sequence ENGLISH_OPENING with
      | Some moves => choice <- random_choice ""%string moves ;; ret (Some choice)
      | None =>
          if (move_count <? 12)%nat
          then _get_thematic_move ENGLISH_THEMATIC_MOVES
          else ret None
      end
  | Some BLACK =>
      match book_get move_sequence MODERN_DEFENSE with
      | Some moves => choice <- random_choice ""%string moves ;; ret (Some choice)
      | None =>
          if (move_count <? 12)%nat
          then _get_thematic_move MODERN_THEMATIC_MOVES
          else ret None
      end
  | None => ret None
  end.

(** ** Move ordering *)

(** [(3.5 - abs(x - 3.5))] *)
Definition center_term (x : Z) : Q :=
  ((7 # 2) - Qabs (inject_Z x - (7 # 2)))%Q.

(** The loop of [order_moves] building [scored_moves]. *)
Fixpoint score_moves (moves : list Move) (scored_moves : list (Z * Move))
    : M (list (Z * Move)) :=
  match moves with
  | [] => ret scored_moves
  | mv :: rest =>
      p <- the_position ;;
      let score := 0 in
      let score :=
        if is_capture p mv then
          match piece_at p (to_square mv), piece_at p (from_square mv) with
          | Some captured, Some attacker =>
              score + (10 * PIECE_VALUES (piece_type captured)
                       - PIECE_VALUES (piece_type attacker))
          | _, _ => score
          end
        else score in
      let score :=
        match promotion mv with
        | Some pt => score + PIECE_VALUES pt
        | None => score
        end in
      board_push mv ;;
      p' <- the_position ;;
      let score := if is_check p' then score + 50 else score in
      board_pop ;;
      let to_file := square_file (to_square mv) in
      let to_rank := square_rank (to_square mv) in
      let center_bonus := (center_term to_file + center_term to_rank)%Q in
      let score := score + int_of_float (center_bonus * 5)%Q in
      score_moves rest (scored_moves ++ [(score, mv)])
  end.

Definition order_moves (moves : list Move) : M (list Move) :=
  scored_moves <- score_moves moves [] ;;
  ret (map snd (sort_desc scored_moves)).

(** ** Quiescence search *)

Definition count_node : M unit :=
  modify (fun e => set_nodes_searched (nodes_searched e + 1) e).

(** The loop of [quiescence] over the legal moves; [recurse alpha beta] is
    [self.quiescence(alpha, beta, depth + 1)].  The moves are generated on
    the position at loop entry, which every iteration restores by its
    [pop]. *)
Fixpoint quiescence_loop (recurse : score -> score -> M score)
    (moves : list Move) (alpha beta : score) : M score :=
  match moves with
  | [] => ret alpha
  | mv :: rest =>
      p <- the_position ;;
      if negb (is_capture p mv) then quiescence_loop recurse rest alpha beta
      else
        board_push mv ;;
        r <- recurse (score_neg beta) (score_neg alpha) ;;
        let score := score_neg r in
        board_pop ;;
        if score_leb beta score then ret beta
        else if score_ltb alpha score
             then quiescence_loop recurse rest score beta
             else quiescence_loop recurse rest alpha beta
  end.

(** [quiescence] with [plies] calls left before the guard [depth > 4]
    fires, that is [plies = 5 - depth]. *)
Fixpoint quiescence_plies (plies : nat) (alpha beta : score) : M score :=
  count_node ;;
  e <- evaluate ;;
  t <- board_turn ;;
  let stand_pat := of_int (match t with BLACK => - e | WHITE => e end) in
  if score_leb beta stand_pat then ret beta
  else
    let alpha := if score_ltb alpha stand_pat then stand_pat else alpha in
    match plies with
    | O => ret alpha
    | S plies' =>
        moves <- board_legal_moves ;;
        quiescence_loop (quiescence_plies plies') moves alpha beta
    end.

Definition quiescence (alpha beta : score) (depth : nat) : M score :=
  quiescence_plies (5 - depth) alpha beta.

(** ** Alpha-beta search *)

(** The maximizing loop of [minimax]; [recurse alpha beta maximizing] is
    [self.minimax(depth - 1, alpha, beta, maximizing)]. *)
Fixpoint max_loop (recurse : score -> score -> bool -> M (score * option Move))
    (moves : list Move) (alpha beta : score)
    (max_eval : score) (best_move : option Move) : M (score * option Move) :=
  match moves with
  | [] => ret (max_eval, best_move)
  | mv :: rest =>
      board_push mv ;;
      r <- recurse alpha beta false ;;
      let eval_score := fst r in
      board_pop ;;
      let (max_eval, best_move) :=
        if score_ltb max_eval eval_score then (eval_score, Some mv)
        else (max_eval, best_move) in
      let alpha := score_max alpha eval_score in
      if score_leb beta alpha then ret (max_eval, best_move)
      else max_loop recurse rest alpha beta max_eval best_move
  end.

(** The minimizing loop of [minimax]. *)
Fixpoint min_loop (recurse : score -> score -> bool -> M (score * option Move))
    (moves : list Move) (alpha beta : score)
    (min_eval : score) (best_move : option Move) : M (score * option Move) :=
  match moves with
  | [] => ret (min_eval, best_move)
  | mv :: rest =>
      board_push mv ;;
      r <- recurse alpha beta true ;;
      let eval_score := fst r in
      board_pop ;;
      let (min_eval, best_move) :=
        if score_ltb eval_score min_eval then (eval_score, Some mv)
        else (min_eval, best_move) in
      let beta := score_min beta eval_score in
      if score_leb beta alpha then ret (min_eval, best_move)
      else min_loop recurse rest alpha beta min_eval best_move
  end.

(** The leaf of [minimax]: quiescence, turned to White's point of view. *)
Definition minimax_leaf (alpha beta : score) : M (score * option Move) :=
  score <- quiescence alpha beta 0 ;;
  t <- board_turn ;;
  ret (match t with WHITE => score | BLACK => score_neg score end, None).

Fixpoint minimax (depth : nat) (alpha beta : score) (maximizing : bool)
    : M (score * option Move) :=
  count_node ;;
  now <- time_now ;;
  started <- gets start_time ;;
  budget <- gets max_time ;;
  if Qlt_bool budget (now - started)%Q then
    eval_score <- evaluate ;;
    ret (of_int (if maximizing then eval_score else - eval_score), None)
  else
    match depth with
    | O => minimax_leaf alpha beta
    | S depth' =>
        b <- gets board ;;
        if is_game_over b then minimax_leaf alpha beta
        else
          legal <- board_legal_moves ;;
          moves <- order_moves legal ;;
          if maximizing
          then max_loop (minimax depth') moves alpha beta NegInf None
          else min_loop (minimax depth') moves alpha beta PosInf None
    end.

(** ** Move selector *)

(** The loop of the safety net of [get_best_move] over the legal moves. *)
Fixpoint safe_moves_loop (perspective : Z) (moves : list Move)
    (safe_moves : list (Z * Move)) : M (list (Z * Move)) :=
  match moves with
  | [] => ret safe_moves
  | mv :: rest =>
      board_push mv ;;
      e <- evaluate ;;
      let eval_after := e * perspective in
      board_pop ;;
      threshold <- gets safety_threshold ;;
      if threshold <=? eval_after
      then safe_moves_loop perspective rest (safe_moves ++ [(eval_after, mv)])
      else safe_moves_loop perspective rest safe_moves
  end.

(** The safety net: the part of [get_best_move] after the search. *)
Definition safety_net (best_move : option Move) : M (option Move) :=
  ai <- gets ai_color ;;
  match best_move, ai with
  | Some bm, Some _ =>
      if move_bool bm then
        board_push bm ;;
        post_eval <- evaluate ;;
        board_pop ;;
        let perspective := perspective_of ai in
        let ai_eval := post_eval * perspective in
        threshold <- gets safety_threshold ;;
        if ai_eval <? threshold then
          legal <- board_legal_moves ;;
          safe_moves <- safe_moves_loop perspective legal [] ;;
          match sort_desc safe_moves with
          | (_, mv) :: _ => ret (Some mv)
          | [] => ret best_move
          end
        else ret best_move
      else ret best_move
  | _, _ => ret best_move
  end.

(** The part of [get_best_move] from [self.start_time = time.time()] on. *)
Definition search_move (depth : Z) : M (option string) :=
  now <- time_now ;;
  modify (set_start_time now) ;;
  modify (set_nodes_searched 0) ;;
  let depth := Z.max 1 (Z.min 5 depth) in
  t <- board_turn ;;
  let is_maximizing := color_eqb t WHITE in
  r <- minimax (Z.to_nat depth) NegInf PosInf is_maximizing ;;
  let best_move := snd r in
  best_move <-
    match best_move with
    | None =>
        legal <- board_legal_moves ;;
        match legal with
        | [] => ret None
        | _ :: _ => choice <- random_choice (move 0%nat 0%nat) legal ;; ret (Some choice)
        end
    | Some _ => ret best_move
    end ;;
  best_move <- safety_net best_move ;;
  match best_move with
  | Some bm => ret (if move_bool bm then Some (uci bm) else None)
  | None => ret None
  end.

Definition get_best_move (depth : Z) : M (option string) :=
  b <- gets board ;;
  if is_game_over b then ret None
  else
    opening_move <- get_opening_move ;;
    p <- the_position ;;
    match opening_move with
    | Some code =>
        if str_bool code then
          match from_uci code with
          | Some mv => if is_legal p mv then ret (Some code)
                       else search_move depth
          | None => search_move depth
          end
        else search_move depth
    | None => search_move depth
    end.

(** [get_best_move_for_fen]: the [finally] clause runs on every way out of
    the [try] block; no statement of [get_best_move] raises, so it runs
    after it. *)
Definition get_best_move_for_fen (fen : string) (depth : Z) : M (option string) :=
  valid <- is_valid_fen fen ;;
  if negb valid then ret None
  else
    original_board <- gets board ;;
    original_history <- gets move_history ;;
    original_redo <- gets redo_stack ;;
    match parse_fen fen with
    | Some p =>
        modify (set_board (new_board p)) ;;
        result <- get_best_move depth ;;
        modify (set_board original_board) ;;
        modify (set_move_history original_history) ;;
        modify (set_redo_stack original_redo) ;;
        ret result
    | None =>
        modify (set_board original_board) ;;
        modify (set_move_history original_history) ;;
        modify (set_redo_stack original_redo) ;;
        ret None
    end.

End Engine.

(* ================================================================== *)
(** * [app.py]: the calls of the application on its engine             *)
(* ================================================================== *)

(** The route handlers, as far as they act on the session's engine: what
    they do to it and whether they answer with the state (status 200) or
    with an error (status 400).  The body of the answer ([get_state]) is
    not modelled. *)
Section App.

Context `{R : Rules}.
Variable env : Env.

(** [new_game]: [player_color] is the request's field, [None] when it is
    missing. *)
Definition new_game (player_color : option string) : M unit :=
  reset ;;
  let player_color := match player_color with
                      | Some c => c
                      | None => "white"%string
                      end in
  if String.eqb player_color "white"
  then set_ai_color BLACK
  else set_ai_color WHITE.

(** [get_ai_move]: the move played, or [None] for the error answer.  The
    handler does not look at what [make_move] returns. *)
Definition get_ai_move (depth : Z) : M (option string) :=
  let depth := Z.max 1 (Z.min 5 depth) in
  best_move <- get_best_move env depth ;;
  match best_move with
  | Some code =>
      if str_bool code then
        make_move code ;;
        ret (Some code)
      else ret None
  | None => ret None
  end.

(** [suggest_move]: the side to move stands in for the agent during the
    call; the [finally] clause puts the agent colour back. *)
Definition suggest_move (depth : Z) : M (option string) :=
  let depth := Z.max 1 (Z.min 5 depth) in
  original_ai_color <- gets ai_color ;;
  t <- board_turn ;;
  modify (set_ai_color_field (Some t)) ;;
  best_move <- get_best_move env depth ;;
  modify (set_ai_color_field original_ai_color) ;;
  match best_move with
  | Some code => if str_bool code then ret (Some code) else ret None
  | None => ret None
  end.

(** [undo_move] of [app.py]: [true] for the state answer, [false] for the
    error "No moves to undo". *)
Definition undo_request : M bool :=
  undone <- undo_move ;;
  match undone with
  | Some code =>
      if str_bool code then
        ai <- gets ai_color ;;
        match ai with
        | Some c =>
            t <- board_turn ;;
            let ai_turn := color_eqb t c in
            history <- gets move_history ;;
            match history with
            | _ :: _ => if negb ai_turn
                        then undo_move ;; ret true
                        else ret true
            | [] => ret true
            end
        | None => ret true
        end
      else ret false
  | None => ret false
  end.

(** [redo_move] of [app.py] *)
Definition redo_request : M bool :=
  redone <- redo_move ;;
  match redone with
  | Some code => ret (str_bool code)
  | None => ret false
  end.

End App.

(* ================================================================== *)
(** * A model of the rules of the [chess] package                      *)
(* ================================================================== *)

(** The instance of [Rules] on which the engine is run: standard chess as
    python-chess plays it, with the move generator's order (pieces from
    the highest square down, then castling, pawn captures, single and
    double pawn steps, en passant; king moves first when in check). *)
Module PyChess.

Definition file_of (s : Square) : Z := square_file s.
Definition rank_of (s : Square) : Z := square_rank s.

Definition on_board (f r : Z) : bool :=
  (0 <=? f) && (f <=? 7) && (0 <=? r) && (r <=? 7).

(** [scan_reversed]: the squares from h8 down to a1. *)
Definition SQUARES_DESC : list Square := rev SQUARES.

Definition occupied (p : Position) (s : Square) : bool := is_some (piece_at p s).

Definition occupied_co (p : Position) (c : Color) (s : Square) : bool :=
  match piece_at p s with
  | Some pc => color_eqb (color pc) c
  | None => false
  end.

Definition has_piece (p : Position) (pt : PieceType) (c : Color) (s : Square) : bool :=
  option_eqb piece_eqb (piece_at p s) (Some (mkPiece pt c)).

(** The squares strictly between two aligned squares are empty; [n] bounds
    the walk, [(df, dr)] is the unit step. *)
Fixpoint path_clear (p : Position) (n : nat) (f r df dr tf tr : Z) : bool :=
  match n with
  | O => false
  | S n' =>
      let f' := f + df in
      let r' := r + dr in
      if (f' =? tf) && (r' =? tr) then true
      else if occupied p (square f' r') then false
      else path_clear p n' f' r' df dr tf tr
  end.

(** [Board.attacks_mask(s)] contains [t]: the piece on [s], if any,
    attacks [t]. *)
Definition attacks (p : Position) (s t : Square) : bool :=
  match piece_at p s with
  | None => false
  | Some pc =>
      let df := file_of t - file_of s in
      let dr := rank_of t - rank_of s in
      let adf := Z.abs df in
      let adr := Z.abs dr in
      let diagonal := (adf =? adr) && negb (adf =? 0) in
      let straight := ((adf =? 0) || (adr =? 0)) && negb ((adf =? 0) && (adr =? 0)) in
      let clear (aligned : bool) :=
        if aligned
        then path_clear p 8 (file_of s) (rank_of s) (Z.sgn df) (Z.sgn dr)
               (file_of t) (rank_of t)
        else false in
      match piece_type pc with
      | PAWN => (adf =? 1) && (dr =? match color pc with WHITE => 1 | BLACK => -1 end)
      | KNIGHT => ((adf =? 1) && (adr =? 2)) || ((adf =? 2) && (adr =? 1))
      | KING => (Z.max adf adr =? 1)
      | BISHOP => clear diagonal
      | ROOK => clear straight
      | QUEEN => clear (diagonal || straight)
      end
  end.

(** [Board.is_attacked_by(color, square)] *)
Definition is_attacked_by (p : Position) (c : Color) (t : Square) : bool :=
  existsb (fun s => occupied_co p c s && attacks p s t) SQUARES.

(** [Board.is_check()] *)
Definition is_check (p : Position) : bool :=
  match king p (turn p) with
  | Some k => is_attacked_by p (opposite (turn p)) k
  | None => false
  end.

(** ** Castling rights *)

(** [Board.clean_castling_rights()]: a right counts only with the rook on
    its corner and the king on its home square. *)
Definition clean_castling_rights (p : Position) : Castling :=
  let cr := castling_rights p in
  let wk_home := has_piece p KING WHITE E1 in
  let bk_home := has_piece p KING BLACK E8 in
  mkCastling
    (white_kingside cr && has_piece p ROOK WHITE 7%nat && wk_home)
    (white_queenside cr && has_piece p ROOK WHITE 0%nat && wk_home)
    (black_kingside cr && has_piece p ROOK BLACK 63%nat && bk_home)
    (black_queenside cr && has_piece p ROOK BLACK 56%nat && bk_home).

(** ** Pseudo-legal moves *)

(** Moves of the piece on [s] that is not a pawn. *)
Definition piece_moves (p : Position) (s : Square) : list Move :=
  map (move s)
    (filter (fun t => attacks p s t && negb (occupied_co p (turn p) t)) SQUARES_DESC).

Definition is_own_non_pawn (p : Position) (s : Square) : bool :=
  match piece_at p s with
  | Some pc => color_eqb (color pc) (turn p) && negb (piece_type_eqb (piece_type pc) PAWN)
  | None => false
  end.

Definition is_own_pawn (p : Position) (s : Square) : bool :=
  has_piece p PAWN (turn p) s.

(** A pawn move to [t], in its four promotions when [t] is on a back rank. *)
Definition pawn_move (s t : Square) : list Move :=
  if (rank_of t =? 0) || (rank_of t =? 7)
  then [mkMove s t (Some QUEEN) None; mkMove s t (Some ROOK) None;
        mkMove s t (Some BISHOP) None; mkMove s t (Some KNIGHT) None]
  else [move s t].

Definition pawn_captures (p : Position) : list Move :=
  flat_map (fun s =>
    flat_map (pawn_move s)
      (filter (fun t => attacks p s t && occupied_co p (opposite (turn p)) t)
         SQUARES_DESC))
    (filter (is_own_pawn p) SQUARES_DESC).

(** The square a pawn of the side to move comes from when it steps [n]
    ranks onto [t]. *)
Definition pawn_origin (p : Position) (t : Square) (n : nat) : option Square :=
  match turn p with
  | WHITE => if (8 * n <=? t)%nat then Some (t - 8 * n)%nat else None
  | BLACK => if (t + 8 * n <? 64)%nat then Some (t + 8 * n)%nat else None
  end.

Definition single_step_target (p : Position) (t : Square) : bool :=
  negb (occupied p t) &&
  match pawn_origin p t 1 with
  | Some s => is_own_pawn p s
  | None => false
  end.

Definition pawn_single_moves (p : Position) : list Move :=
  flat_map (fun t =>
    match pawn_origin p t 1 with
    | Some s => pawn_move s t
    | None => []
    end)
    (filter (single_step_target p) SQUARES_DESC).

Definition double_step_target (p : Position) (t : Square) : bool :=
  negb (occupied p t) &&
  match turn p with
  | WHITE => (rank_of t =? 2) || (rank_of t =? 3)
  | BLACK => (rank_of t =? 5) || (rank_of t =? 4)
  end &&
  match pawn_origin p t 1 with
  | Some mid => single_step_target p mid
  | None => false
  end.

Definition pawn_double_moves (p : Position) : list Move :=
  flat_map (fun t =>
    match pawn_origin p t 2 with
    | Some s => [move s t]
    | None => []
    end)
    (filter (double_step_target p) SQUARES_DESC).

(** [Board.generate_pseudo_legal_ep()] *)
Definition pseudo_legal_ep (p : Position) : list Move :=
  match ep_square p with
  | None => []
  | Some e =>
      if Nat.eqb e 0 || occupied p e then []
      else
        map (fun s => move s e)
          (filter (fun s => is_own_pawn p s && attacks p s e &&
                            (rank_of s =? match turn p with WHITE => 4 | BLACK => 3 end))
             SQUARES_DESC)
  end.

(** [Board.generate_castling_moves()]: king side first. *)
Definition castling_moves (p : Position) : list Move :=
  let cr := clean_castling_rights p in
  let them := opposite (turn p) in
  let base := match turn p with WHITE => 0%nat | BLACK => 56%nat end in
  let sq i := (base + i)%nat in
  let safe i := negb (is_attacked_by p them (sq i)) in
  let empty i := negb (occupied p (sq i)) in
  let kingside := match turn p with WHITE => white_kingside cr | BLACK => black_kingside cr end in
  let queenside := match turn p with WHITE => white_queenside cr | BLACK => black_queenside cr end in
  (if kingside && empty 5%nat && empty 6%nat && safe 4%nat && safe 5%nat && safe 6%nat
   then [move (sq 4%nat) (sq 6%nat)] else []) ++
  (if queenside && empty 1%nat && empty 2%nat && empty 3%nat &&
      safe 4%nat && safe 3%nat && safe 2%nat
   then [move (sq 4%nat) (sq 2%nat)] else []).

(** [Board.generate_pseudo_legal_moves()] *)
Definition pseudo_legal_moves (p : Position) : list Move :=
  flat_map (piece_moves p) (filter (is_own_non_pawn p) SQUARES_DESC)
  ++ castling_moves p
  ++ pawn_captures p
  ++ pawn_single_moves p
  ++ pawn_double_moves p
  ++ pseudo_legal_ep p.

(** ** Applying a move *)

(** [Board.is_en_passant(move)] *)
Definition is_en_passant (p : Position) (m : Move) : bool :=
  option_eqb Nat.eqb (ep_square p) (Some (to_square m)) &&
  match piece_at p (from_square m) with
  | Some pc => piece_type_eqb (piece_type pc) PAWN
  | None => false
  end &&
  (let d := Z.abs (Z.of_nat (to_square m) - Z.of_nat (from_square m)) in
   (d =? 7) || (d =? 9)) &&
  negb (occupied p (to_square m)).

(** [Board.is_capture(move)] *)
Definition is_capture (p : Position) (m : Move) : bool :=
  occupied_co p (opposite (turn p)) (from_square m) ||
  occupied_co p (opposite (turn p)) (to_square m) ||
  is_en_passant p m.

(** [Board.is_castling(move)] for the king's two-square moves from its home
    square. *)
Definition is_castling (p : Position) (m : Move) : bool :=
  match piece_at p (from_square m) with
  | Some pc =>
      piece_type_eqb (piece_type pc) KING &&
      (Z.abs (file_of (to_square m) - file_of (from_square m)) =? 2) &&
      (rank_of (to_square m) =? rank_of (from_square m)) &&
      (Nat.eqb (from_square m) E1 || Nat.eqb (from_square m) E8)
  | None => false
  end.

(** [l[i] = x] *)
Fixpoint set_nth {A} (i : nat) (x : A) (l : list A) : list A :=
  match l, i with
  | [], _ => []
  | _ :: l', O => x :: l'
  | y :: l', S i' => y :: set_nth i' x l'
  end.

(** The piece placement after [push(move)]. *)
Definition move_pieces (p : Position) (m : Move) : list (option Piece) :=
  match piece_at p (from_square m) with
  | None => placement p
  | Some pc =>
      let f := from_square m in
      let t := to_square m in
      let pl := set_nth f None (placement p) in
      let pl :=
        if is_en_passant p m
        then set_nth (match turn p with WHITE => t - 8 | BLACK => t + 8 end)%nat None pl
        else pl in
      if is_castling p m then
        let base := (8 * (f / 8))%nat in
        if (file_of t <? file_of f)
        then set_nth (base + 3)%nat (Some (mkPiece ROOK (turn p)))
               (set_nth (base + 2)%nat (Some (mkPiece KING (turn p)))
                  (set_nth base None pl))
        else set_nth (base + 5)%nat (Some (mkPiece ROOK (turn p)))
               (set_nth (base + 6)%nat (Some (mkPiece KING (turn p)))
                  (set_nth (base + 7)%nat None pl))
      else
        let moved :=
          match promotion m with
          | Some pt => mkPiece pt (turn p)
          | None => mkPiece (piece_type pc) (turn p)
          end in
        set_nth t (Some moved) pl
  end.

(** [Board.is_zeroing(move)]: a pawn move or a capture. *)
Definition is_zeroing (p : Position) (m : Move) : bool :=
  has_piece p PAWN WHITE (from_square m) || has_piece p PAWN BLACK (from_square m) ||
  has_piece p PAWN WHITE (to_square m) || has_piece p PAWN BLACK (to_square m) ||
  occupied_co p (opposite (turn p)) (from_square m) ||
  occupied_co p (opposite (turn p)) (to_square m).

(** [Board.piece_type_at(square)] *)
Definition piece_type_at (p : Position) (s : Square) : option PieceType :=
  option_map piece_type (piece_at p s).

(** The castling rights after [push(move)]. *)
Definition castling_after (p : Position) (m : Move) : Castling :=
  let cr := clean_castling_rights p in
  let touched s := Nat.eqb (from_square m) s || Nat.eqb (to_square m) s in
  let mover_is_king :=
    option_eqb piece_type_eqb (piece_type_at p (from_square m)) (Some KING) in
  let captured_is_king :=
    option_eqb piece_type_eqb (piece_type_at p (to_square m)) (Some KING) in
  let clear_white :=
    (mover_is_king && color_eqb (turn p) WHITE) ||
    (negb mover_is_king && captured_is_king && color_eqb (turn p) BLACK &&
     (rank_of (to_square m) =? 0)) in
  let clear_black :=
    (mover_is_king && color_eqb (turn p) BLACK) ||
    (negb mover_is_king && captured_is_king && color_eqb (turn p) WHITE &&
     (rank_of (to_square m) =? 7)) in
  mkCastling
    (white_kingside cr && negb (touched 7%nat) && negb clear_white)
    (white_queenside cr && negb (touched 0%nat) && negb clear_white)
    (black_kingside cr && negb (touched 63%nat) && negb clear_black)
    (black_queenside cr && negb (touched 56%nat) && negb clear_black).

(** The en-passant square after [push(move)]. *)
Definition ep_after (p : Position) (m : Move) : option Square :=
  if has_piece p PAWN WHITE (from_square m) || has_piece p PAWN BLACK (from_square m) then
    let diff := Z.of_nat (to_square m) - Z.of_nat (from_square m) in
    if (diff =? 16) && (rank_of (from_square m) =? 1) then Some (from_square m + 8)%nat
    else if (diff =? -16) && (rank_of (from_square m) =? 6) then Some (from_square m - 8)%nat
    else None
  else None.

(** The position after [Board.push(move)].  [push] reads castling in both
    spellings ([_to_chess960]); here both are first brought to the king's
    two-square move, the spelling [is_castling] and [move_pieces] know. *)
Definition apply_move (p : Position) (m : Move) : Position :=
  let m := _from_chess960 p m in
  let fullmove := match turn p with
                  | BLACK => S (fullmove_number p)
                  | WHITE => fullmove_number p
                  end in
  if negb (move_bool m) then
    mkPosition (placement p) (opposite (turn p)) (clean_castling_rights p) None
      (S (halfmove_clock p)) fullmove
  else
    mkPosition (move_pieces p m) (opposite (turn p)) (castling_after p m) (ep_after p m)
      (if is_zeroing p m then O else S (halfmove_clock p)) fullmove.

(** ** Legal moves *)

(** The king of the side to move is not attacked once [m] is played. *)
Definition is_safe (p : Position) (m : Move) : bool :=
  let after := mkPosition (move_pieces p m) (turn p) (castling_rights p) None
                 (halfmove_clock p) (fullmove_number p) in
  match king after (turn p) with
  | Some k => negb (is_attacked_by after (opposite (turn p)) k)
  | None => true
  end.

(** [list(board.legal_moves)] *)
Definition legal_moves (p : Position) : list Move :=
  let pseudo := pseudo_legal_moves p in
  let ordered :=
    if is_check p then
      let by_king m := option_eqb Nat.eqb (king p (turn p)) (Some (from_square m)) in
      filter by_king pseudo ++ filter (fun m => negb (by_king m)) pseudo
    else pseudo in
  filter (is_safe p) ordered.

Definition is_checkmate (p : Position) : bool :=
  is_check p && match legal_moves p with [] => true | _ => false end.

Definition is_stalemate (p : Position) : bool :=
  negb (is_check p) && match legal_moves p with [] => true | _ => false end.

(** ** Ends of the game *)

Definition count_pieces (p : Position) (f : Piece -> bool) : nat :=
  List.length (filter (fun s => match piece_at p s with
                                | Some pc => f pc
                                | None => false
                                end) SQUARES).

Definition is_type (pt : PieceType) (pc : Piece) : bool :=
  piece_type_eqb (piece_type pc) pt.
Definition is_color (c : Color) (pc : Piece) : bool := color_eqb (color pc) c.

(** [BB_DARK_SQUARES] contains [s]. *)
Definition is_dark (s : Square) : bool := Z.even (file_of s + rank_of s).

(** [Board.has_insufficient_material(color)] *)
Definition has_insufficient_material (p : Position) (c : Color) : bool :=
  let mine pt := Nat.ltb 0 (count_pieces p (fun pc => is_color c pc && is_type pt pc)) in
  let any pt := Nat.ltb 0 (count_pieces p (is_type pt)) in
  if mine PAWN || mine ROOK || mine QUEEN then false
  else if mine KNIGHT then
    (count_pieces p (is_color c) <=? 2)%nat &&
    Nat.eqb (count_pieces p (fun pc => is_color (opposite c) pc &&
                                       negb (is_type KING pc) &&
                                       negb (is_type QUEEN pc))) 0
  else if mine BISHOP then
    let bishops_on d :=
      List.length (filter (fun s => match piece_at p s with
                                    | Some pc => is_type BISHOP pc && Bool.eqb (is_dark s) d
                                    | None => false
                                    end) SQUARES) in
    let same_color := Nat.eqb (bishops_on true) 0 || Nat.eqb (bishops_on false) 0 in
    same_color && negb (any PAWN) && negb (any KNIGHT)
  else true.

(** [Board.is_insufficient_material()] *)
Definition is_insufficient_material (p : Position) : bool :=
  has_insufficient_material p WHITE && has_insufficient_material p BLACK.

Definition no_legal_moves (p : Position) : bool :=
  match legal_moves p with [] => true | _ :: _ => false end.

(** [Board.is_seventyfive_moves()] *)
Definition is_seventyfive_moves (p : Position) : bool :=
  (150 <=? halfmove_clock p)%nat && negb (no_legal_moves p).

(** [Board.has_legal_en_passant()] *)
Definition has_legal_en_passant (p : Position) : bool :=
  is_some (ep_square p) &&
  existsb (fun m => is_en_passant p m) (legal_moves p).

Definition castling_eqb (a b : Castling) : bool :=
  Bool.eqb (white_kingside a) (white_kingside b) &&
  Bool.eqb (white_queenside a) (white_queenside b) &&
  Bool.eqb (black_kingside a) (black_kingside b) &&
  Bool.eqb (black_queenside a) (black_queenside b).

Fixpoint placement_eqb (a b : list (option Piece)) : bool :=
  match a, b with
  | [], [] => true
  | x :: a', y :: b' => option_eqb piece_eqb x y && placement_eqb a' b'
  | _, _ => false
  end.

(** Equality of [Board._transposition_key()]. *)
Definition same_transposition (a b : Position) : bool :=
  placement_eqb (placement a) (placement b) &&
  color_eqb (turn a) (turn b) &&
  castling_eqb (clean_castling_rights a) (clean_castling_rights b) &&
  option_eqb Nat.eqb
    (if has_legal_en_passant a then ep_square a else None)
    (if has_legal_en_passant b then ep_square b else None).

(** [Board.is_irreversible(move)] on the position the move was played on. *)
Definition is_irreversible (p : Position) (m : Move) : bool :=
  is_zeroing p m ||
  negb (castling_eqb (castling_after p m) (clean_castling_rights p)) ||
  has_legal_en_passant p.

(** The replay loop of [Board.is_repetition(count)]: walks back over the
    moves played until an irreversible one, counting the positions equal to
    the current one. *)
Fixpoint repetition_loop (current : Position) (count : nat)
    (moves : list Move) (states : list Position) : bool :=
  if (count <=? 1)%nat then true
  else if (List.length moves <? count - 1)%nat then false
  else
    match moves, states with
    | m :: moves', prev :: states' =>
        if is_irreversible prev m then false
        else repetition_loop current
               (if same_transposition prev current then count - 1 else count)%nat
               moves' states'
    | _, _ => false
    end.

(** [Board.is_fivefold_repetition()] *)
Definition is_fivefold_repetition (b : Board) : bool :=
  repetition_loop (position b) 5 (move_stack b) (stack b).

(** [Board.is_game_over()], with [claim_draw=False]. *)
Definition is_game_over (b : Board) : bool :=
  let p := position b in
  is_checkmate p || is_insufficient_material p || no_legal_moves p ||
  is_seventyfive_moves p || is_fivefold_repetition b.

(** ** Position notation (FEN) *)

Definition is_space (c : ascii) : bool :=
  let n := nat_of_ascii c in
  Nat.eqb n 32 || ((9 <=? n)%nat && (n <=? 13)%nat).

(** [str.split(sep)] on characters satisfying [sep], keeping empty parts. *)
Fixpoint split_on (sep : ascii -> bool) (cur : list ascii) (l : list ascii)
    : list (list ascii) :=
  match l with
  | [] => [rev cur]
  | c :: l' => if sep c then rev cur :: split_on sep [] l'
               else split_on sep (c :: cur) l'
  end.

(** [str.split()]: on runs of whitespace, without empty parts. *)
Definition split_ws (fen : string) : list (list ascii) :=
  filter (fun part => match part with [] => false | _ => true end)
    (split_on is_space [] (list_ascii_of_string fen)).

Definition digit_value (c : ascii) : option nat :=
  let n := nat_of_ascii c in
  if (48 <=? n)%nat && (n <=? 57)%nat then Some (n - 48)%nat else None.

(** [Piece.from_symbol(c)] *)
Definition piece_from_symbol (c : ascii) : option Piece :=
  match parse_piece_symbol (lower c) with
  | Some pt => Some (mkPiece pt (if Ascii.eqb (lower c) c then BLACK else WHITE))
  | None => None
  end.

(** One row of the board part: its eight squares, or [None] when the row is
    rejected. *)
Fixpoint parse_row (row : list ascii) (previous_was_digit previous_was_piece : bool)
    (acc : list (option Piece)) : option (list (option Piece)) :=
  match row with
  | [] => if Nat.eqb (List.length acc) 8 then Some acc else None
  | c :: row' =>
      match digit_value c with
      | Some n =>
          if (1 <=? n)%nat && (n <=? 8)%nat && negb previous_was_digit
          then parse_row row' true false (acc ++ repeat None n)
          else None
      | None =>
          if Ascii.eqb c "~" then
            if previous_was_piece then parse_row row' false false acc else None
          else
            match piece_from_symbol c with
            | Some pc => parse_row row' false true (acc ++ [Some pc])
            | None => None
            end
      end
  end.

Fixpoint parse_rows (rows : list (list ascii)) : option (list (list (option Piece))) :=
  match rows with
  | [] => Some []
  | row :: rows' =>
      match parse_row row false false [], parse_rows rows' with
      | Some r, Some rs => Some (r :: rs)
      | _, _ => None
      end
  end.

(** The board part: eight rows, rank 8 first. *)
Definition parse_board_part (part : list ascii) : option (list (option Piece)) :=
  let rows := split_on (Ascii.eqb "/") [] part in
  if Nat.eqb (List.length rows) 8 then
    match parse_rows rows with
    | Some rs => Some (List.concat (rev rs))
    | None => None
    end
  else None.

Definition is_white_flag (c : ascii) : bool :=
  existsb (Ascii.eqb c) ["K"; "Q"; "A"; "B"; "C"; "D"; "E"; "F"; "G"; "H"]%char.
Definition is_black_flag (c : ascii) : bool :=
  existsb (Ascii.eqb c) ["k"; "q"; "a"; "b"; "c"; "d"; "e"; "f"; "g"; "h"]%char.

Fixpoint take_while {A} (f : A -> bool) (l : list A) : list A * list A :=
  match l with
  | [] => ([], [])
  | x :: l' => if f x then let (a, b) := take_while f l' in (x :: a, b)
               else ([], l)
  end.

(** The castling part, matched against [FEN_CASTLING_REGEX]. *)
Definition parse_castling_part (part : list ascii) : option Castling :=
  match part with
  | ["-"%char] => Some (mkCastling false false false false)
  | _ =>
      let (whites, rest) := take_while is_white_flag part in
      let (blacks, rest') := take_while is_black_flag rest in
      match rest' with
      | [] =>
          if (List.length whites <=? 2)%nat && (List.length blacks <=? 2)%nat then
            let has c := existsb (Ascii.eqb c) part in
            Some (mkCastling (has "K" || has "H") (has "Q" || has "A")
                             (has "k" || has "h") (has "q" || has "a"))%char
          else None
      | _ :: _ => None
      end
  end.

Definition parse_ep_part (part : list ascii) : option (option Square) :=
  match part with
  | ["-"%char] => Some None
  | [f; r] => option_map Some (parse_square f r)
  | _ => None
  end.

(** [int(part)] for a non-negative decimal numeral. *)
Fixpoint parse_nat (part : list ascii) (acc : nat) : option nat :=
  match part with
  | [] => Some acc
  | c :: part' =>
      match digit_value c with
      | Some d => parse_nat part' (10 * acc + d)%nat
      | None => None
      end
  end.

Definition parse_counter (part : list ascii) : option nat :=
  match part with
  | [] => None
  | _ :: _ => parse_nat part O
  end.

(** [chess.Board(fen)]: missing trailing parts take their defaults. *)
Definition parse_fen (fen : string) : option Position :=
  match split_ws fen with
  | [] => None
  | board_part :: parts =>
      let nth_part i := nth_error parts i in
      let turn_part :=
        match nth_part 0%nat with
        | None => Some WHITE
        | Some ["w"%char] => Some WHITE
        | Some ["b"%char] => Some BLACK
        | Some _ => None
        end in
      let castling_part :=
        match nth_part 1%nat with
        | None => Some (mkCastling false false false false)
        | Some part => parse_castling_part part
        end in
      let ep_part :=
        match nth_part 2%nat with
        | None => Some None
        | Some part => parse_ep_part part
        end in
      let halfmove_part :=
        match nth_part 3%nat with
        | None => Some O
        | Some part => parse_counter part
        end in
      let fullmove_part :=
        match nth_part 4%nat with
        | None => Some 1%nat
        | Some part => option_map (Nat.max 1) (parse_counter part)
        end in
      if (5 <? List.length parts)%nat then None
      else
        match turn_part, castling_part, ep_part, halfmove_part, fullmove_part,
              parse_board_part board_part with
        | Some t, Some cr, Some ep, Some hm, Some fm, Some pl =>
            Some (mkPosition pl t cr ep hm fm)
        | _, _, _, _, _, _ => None
        end
  end.

(** [chess.STARTING_FEN] *)
Definition STARTING_FEN : string :=
  "rnbqkbnr/pppppppp/8/8/8/8/PPPPPPPP/RNBQKBNR w KQkq - 0 1".

Definition back_rank (c : Color) : list (option Piece) :=
  map (fun pt => Some (mkPiece pt c))
    [ROOK; KNIGHT; BISHOP; QUEEN; KING; BISHOP; KNIGHT; ROOK].

(** [chess.Board()] *)
Definition starting_position : Position :=
  mkPosition
    (back_rank WHITE ++ repeat (Some (mkPiece PAWN WHITE)) 8 ++ repeat None 32
       ++ repeat (Some (mkPiece PAWN BLACK)) 8 ++ back_rank BLACK)
    WHITE (mkCastling true true true true) None 0 1.

#[export] Instance rules : Rules := {
  legal_moves := PyChess.legal_moves;
  apply_move := PyChess.apply_move;
  is_check := PyChess.is_check;
  is_checkmate := PyChess.is_checkmate;
  is_stalemate := PyChess.is_stalemate;
  is_insufficient_material := PyChess.is_insufficient_material;
  is_capture := PyChess.is_capture;
  is_game_over := PyChess.is_game_over;
  parse_fen := PyChess.parse_fen;
  starting_position := PyChess.starting_position
}.

(** [perft]: the number of move sequences of a given length, the usual
    check of a move generator. *)
Fixpoint perft (depth : nat) (p : Position) : N :=
  match depth with
  | O => 1%N
  | S d => fold_right (fun m n => (perft d (apply_move p m) + n)%N) 0%N (legal_moves p)
  end.

(** A position from its notation; the empty board when it is rejected. *)
Definition of_fen (fen : string) : Position :=
  match parse_fen fen with
  | Some p => p
  | None => mkPosition (repeat None 64) WHITE (mkCastling false false false false) None 0 1
  end.

End PyChess.

(* ================================================================== *)
(** * Notions the properties are stated with                           *)
(* ================================================================== *)

(** The position a machine's engine is looking at. *)
Definition position_of (s : Machine) : Position := position (board (self s)).

(** An engine on a given board, with the attributes [__init__] gives it. *)
Definition engine_on (b : Board) (ai : option Color) : ChessEngine :=
  mkEngine b [] [] ai 5%Q 0%Q 0 (-200).

(** A machine whose engine sits on a fresh board for position [p]. *)
Definition machine_on (p : Position) (ai : option Color) : Machine :=
  mkMachine (engine_on (new_board p) ai) 0 0.

(** The machines a session can be in: a fresh engine, then any sequence of
    the operations the application calls on it (it also assigns [ai_color]
    directly). *)
Inductive reachable `{Rules} (env : Env) : Machine -> Prop :=
| reach_init tc rc : reachable env (mkMachine init tc rc)
| reach_reset s : reachable env s -> reachable env (snd (reset s))
| reach_ai_color s o :
    reachable env s -> reachable env (snd (modify (set_ai_color_field o) s))
| reach_make_move s code :
    reachable env s -> reachable env (snd (make_move code s))
| reach_undo_move s : reachable env s -> reachable env (snd (undo_move s))
| reach_redo_move s : reachable env s -> reachable env (snd (redo_move s))
| reach_get_best_move s depth :
    reachable env s -> reachable env (snd (get_best_move env depth s))
| reach_get_best_move_for_fen s fen depth :
    reachable env s -> reachable env (snd (get_best_move_for_fen env fen depth s)).

(** ** Mirrored positions

    [Board.mirror()]: the board is flipped vertically and the colours are
    swapped, together with the side to move, the castling rights and the
    en-passant square. *)
Definition square_mirror (s : Square) : Square := (8 * (7 - s / 8) + s mod 8)%nat.

Definition swap_color (pc : Piece) : Piece :=
  mkPiece (piece_type pc) (opposite (color pc)).

Definition mirror (p : Position) : Position :=
  mkPosition
    (map (fun s => option_map swap_color (piece_at p (square_mirror s))) SQUARES)
    (opposite (turn p))
    (let cr := castling_rights p in
     mkCastling (black_kingside cr) (black_queenside cr)
                (white_kingside cr) (white_queenside cr))
    (option_map square_mirror (ep_square p))
    (halfmove_clock p) (fullmove_number p).

(** ** The endgame test as the specification words it

    "queens-off-board, or both sides have at most 2 minor pieces with
    queens present". *)
Definition queens_on_board (p : Position) : nat :=
  (List.length (pieces p QUEEN WHITE) + List.length (pieces p QUEEN BLACK))%nat.

Definition minor_pieces_of (p : Position) (c : Color) : nat :=
  (List.length (pieces p KNIGHT c) + List.length (pieces p BISHOP c))%nat.

Definition spec_is_endgame (p : Position) : bool :=
  Nat.eqb (queens_on_board p) 0 ||
  (Nat.ltb 0 (queens_on_board p) &&
   (minor_pieces_of p WHITE <=? 2)%nat && (minor_pieces_of p BLACK <=? 2)%nat).

(** ** Unpruned minimax, as the specification words it

    The full game tree to the given depth: every legal move of every node
    is searched, no bound is passed down, and the leaves (depth exhausted
    or game over) take the quiescence value on the full window, seen from
    White.  The maximizing side keeps the largest value, the minimizing
    side the smallest. *)
Section FullMinimax.

Context `{R : Rules}.

Fixpoint full_minimax_loop (recurse : bool -> M score) (moves : list Move)
    (maximizing : bool) (best : score) : M score :=
  match moves with
  | [] => ret best
  | mv :: rest =>
      board_push mv ;;
      value <- recurse (negb maximizing) ;;
      board_pop ;;
      full_minimax_loop recurse rest maximizing
        (if maximizing then score_max best value else score_min best value)
  end.

Definition full_minimax_leaf : M score :=
  r <- minimax_leaf NegInf PosInf ;; ret (fst r).

Fixpoint full_minimax (depth : nat) (maximizing : bool) : M score :=
  match depth with
  | O => full_minimax_leaf
  | S depth' =>
      b <- gets board ;;
      if is_game_over b then full_minimax_leaf
      else
        legal <- board_legal_moves ;;
        full_minimax_loop (full_minimax depth') legal maximizing
          (if maximizing then NegInf else PosInf)
  end.

End FullMinimax.

(** ** Unpruned quiescence

    The value the quiescence search approximates inside its window: the
    stand-pat score of the side to move, or the best of the negated values
    of the positions its captures lead to when that is more, with [plies]
    levels of captures left.  No bound is passed down and nothing is cut. *)
Section QuiescenceValue.

Context `{R : Rules}.

(** [evaluate] on a position. *)
Definition static_eval (p : Position) : Z :=
  fst (evaluate (mkMachine (mkEngine (new_board p) [] [] None 5%Q 0%Q 0 (-200)) 0 0)).

Definition stand_pat_of (p : Position) : score :=
  of_int (match turn p with BLACK => - static_eval p | WHITE => static_eval p end).

Fixpoint quiescence_value_loop (value : Position -> score) (p : Position)
    (moves : list Move) (best : score) : score :=
  match moves with
  | [] => best
  | mv :: rest =>
      if negb (is_capture p mv) then quiescence_value_loop value p rest best
      else
        let candidate := score_neg (value (apply_move p mv)) in
        quiescence_value_loop value p rest
          (if score_ltb best candidate then candidate else best)
  end.

Fixpoint quiescence_value (plies : nat) (p : Position) : score :=
  match plies with
  | O => stand_pat_of p
  | S plies' =>
      quiescence_value_loop (quiescence_value plies') p (legal_moves p)
        (stand_pat_of p)
  end.

End QuiescenceValue.

(** [v] brought into the window: [beta] when [v] reaches it, [alpha] when
    [v] does not exceed it. *)
Definition score_clamp (v alpha beta : score) : score :=
  if score_leb beta v then beta
  else if score_ltb alpha v then v else alpha.

Definition is_finite (v : score) : Prop := exists q, v = Fin q.

(** The whole line of a game: the played moves followed by the undone
    ones, next to redo first. *)
Definition line_of (e : ChessEngine) : list Move :=
  move_history e ++ rev (redo_stack e).

Section Lines.

Context `{R : Rules}.

(** A line of moves, each in the legal moves of the position it is played
    in, by the membership test of the code. *)
Fixpoint legal_line (p : Position) (line : list Move) : Prop :=
  match line with
  | [] => True
  | m :: rest => is_legal p m = true /\ legal_line (apply_move p m) rest
  end.

(** A line of moves as [Board.move_stack] spells it, move by move. *)
Fixpoint stack_line (p : Position) (line : list Move) : list Move :=
  match line with
  | [] => []
  | m :: rest => _from_chess960 p m :: stack_line (apply_move p m) rest
  end.

(** The score [order_moves] gives to [mv] on position [p]: the capture
    term, the promotion term, the check term and the centre term of its
    loop body. *)
Definition ordering_score (p : Position) (mv : Move) : Z :=
  let score := 0 in
  let score :=
    if is_capture p mv then
      match piece_at p (to_square mv), piece_at p (from_square mv) with
      | Some captured, Some attacker =>
          score + (10 * PIECE_VALUES (piece_type captured)
                   - PIECE_VALUES (piece_type attacker))
      | _, _ => score
      end
    else score in
  let score :=
    match promotion mv with
    | Some pt => score + PIECE_VALUES pt
    | None => score
    end in
  let score := if is_check (apply_move p mv) then score + 50 else score in
  let to_file := square_file (to_square mv) in
  let to_rank := square_rank (to_square mv) in
  let center_bonus := (center_term to_file + center_term to_rank)%Q in
  score + int_of_float (center_bonus * 5)%Q.

(** What the engine reads when it tries [mv] on the board and takes it
    back: the evaluation of the position after [mv], from the side of the
    agent ([post_eval * perspective]). *)
Definition trial_eval (s : Machine) (mv : Move) : Z :=
  static_eval (apply_move (position_of s) mv) * perspective_of (ai_color (self s)).

End Lines.

(** ** Positions and environments used in examples *)
Module Examples.

#[local] Existing Instance PyChess.rules.

(** A clock that never advances and a random source that always draws the
    first element and [0.0]. *)
Definition still_env : Env := mkEnv (fun _ => 0%Q) (fun _ => 0%nat) (fun _ => 0%Q).

Definition start : Machine := machine_on PyChess.starting_position None.

(** Fool's mate: White is checkmated. *)
Definition white_mated : Machine :=
  machine_on
    (PyChess.of_fen "rnb1kbnr/pppp1ppp/8/4p3/6Pq/5P2/PPPPP2P/RNBQKBNR w KQkq - 1 3")
    None.

(** A back-rank mate: Black is checkmated. *)
Definition black_mated : Machine :=
  machine_on (PyChess.of_fen "R5k1/5ppp/8/8/8/8/8/6K1 b - - 0 1") None.

(** Black to move has no move and is not in check. *)
Definition stalemate : Machine :=
  machine_on (PyChess.of_fen "7k/5Q2/6K1/8/8/8/8/8 b - - 0 1") None.

(** King against king. *)
Definition bare_kings : Machine :=
  machine_on (PyChess.of_fen "4k3/8/8/8/8/8/8/4K3 w - - 0 1") None.

(** One queen on the board and no minor piece. *)
Definition lone_queen : Machine :=
  machine_on (PyChess.of_fen "4k3/8/8/8/8/8/8/3QK3 w - - 0 1") None.

(** White queen on h4. *)
Definition queen_h4 : Position :=
  PyChess.of_fen "6k1/8/8/8/7Q/8/8/6K1 w - - 0 1".

(** Black to move has the single move Kh7; White then has five king moves
    and the pawn step a6-a7. *)
Definition pawn_race : Machine :=
  machine_on (PyChess.of_fen "7k/5K2/P7/8/8/8/8/8 b - - 0 1") None.

(** The same material with White to move. *)
Definition pawn_race_white : Machine :=
  machine_on (PyChess.of_fen "7k/8/P4K2/8/8/8/8/8 w - - 0 1") None.

(** The start position after 1. e4, with the undone reply 1... e5 waiting
    for a redo. *)
Definition after_e4 : Machine :=
  let e4 := move 12%nat 28%nat in
  let e5 := move 52%nat 36%nat in
  mkMachine
    (mkEngine (push (new_board PyChess.starting_position) e4)
       [e4] [e5] (Some BLACK) 5%Q 0%Q 0 (-200)) 0 0.

(** The start position again, reached by an engine with another past: a
    board with moves on its stack, other histories, an agent colour, a
    running node count, and a world that has been read before. *)
Definition start_with_a_past : Machine :=
  mkMachine
    (mkEngine
       (mkBoard PyChess.starting_position [move 6%nat 21%nat] [PyChess.starting_position])
       [move 12%nat 28%nat] [move 52%nat 36%nat] (Some WHITE) 5%Q 3%Q 77 (-200))
    4 9.

End Examples.

(** ** Sessions used in examples *)
Module Games.

#[local] Existing Instance PyChess.rules.

(** A new game with the agent playing White. *)
Definition white_to_open : Machine :=
  machine_on PyChess.starting_position (Some WHITE).

(** 1. e4 played against an agent that has White. *)
Definition white_replies : Machine :=
  snd (make_move "e2e4" white_to_open).

(** 1. e4 e5 played in a game where the agent has Black. *)
Definition open_game : Machine :=
  snd (make_move "e7e5"
         (snd (make_move "e2e4" (machine_on PyChess.starting_position (Some BLACK))))).

(** Both sides have brought out the king's knight and bishop: White may
    castle on the king's side. *)
Definition castling_ready : Machine :=
  fold_left (fun s code => snd (make_move code s))
    ["g1f3"; "g8f6"; "g2g3"; "g7g6"; "f1g2"; "f8g7"]%string
    (machine_on PyChess.starting_position None).

(** White has castled there, spelling the move as the king taking its
    rook. *)
Definition castled : Machine := snd (make_move "e1h1" castling_ready).

End Games.

(** ** Two disciplines of monadic code *)

(** [c] only reads the position: its result is a function of the position
    content and it leaves the machine as it found it. *)
Definition reads_position {A} (c : M A) : Type :=
  { f : Position -> A | forall s, c s = (f (position_of s), s) }.

(** The game an engine holds: board, played history, undone stack and
    agent colour (what is left are the search's clock and node counter). *)
Definition game_of (s : Machine) : Board * list Move * list Move * option Color :=
  (board (self s), move_history (self s), redo_stack (self s), ai_color (self s)).

(** [c] hands the game back as it received it: every [push] is undone by
    its [pop] and the histories are not touched. *)
Definition keeps_game {A} (c : M A) : Prop :=
  forall s, game_of (snd (c s)) = game_of s.

(** A move as the generator yields them for standard chess: two distinct
    squares of the board and no drop. *)
Definition well_formed_move (m : Move) : Prop :=
  (from_square m < 64)%nat /\ (to_square m < 64)%nat /\
  from_square m <> to_square m /\ drop m = None.

Definition well_formed_moveb (m : Move) : bool :=
  (from_square m <? 64)%nat && (to_square m <? 64)%nat &&
  negb (Nat.eqb (from_square m) (to_square m)) && negb (is_some (drop m)).

(** The code of a move parses back to the move. *)
Definition roundtrip_ok (f t : Square) (pr : option PieceType) : bool :=
  option_eqb move_eqb (from_uci (uci (mkMove f t pr None))) (Some (mkMove f t pr None)).

Definition PROMOTIONS : list (option PieceType) :=
  [None; Some PAWN; Some KNIGHT; Some BISHOP; Some ROOK; Some QUEEN; Some KING].

(** The engine's position is the one reached by playing its move history
    from the start position. *)
Definition consistent `{Rules} (e : ChessEngine) : Prop :=
  board e = fold_left push (move_history e) (new_board starting_position).

(** The engine's position is the replay of its played history, and its
    played moves followed by its undone ones are a line of moves each in
    the legal moves of the position it is played in. *)
Definition session_invariant `{Rules} (e : ChessEngine) : Prop :=
  consistent e /\ legal_line starting_position (line_of e).

(** ** Spellings of moves *)

(** A move that is not a king's move from its home square to a corner is
    spelled as it is. *)
Definition plain_move (m : Move) : bool :=
  negb ((Nat.eqb (from_square m) E1 &&
         (Nat.eqb (to_square m) H1 || Nat.eqb (to_square m) A1)) ||
        (Nat.eqb (from_square m) E8 &&
         (Nat.eqb (to_square m) H8 || Nat.eqb (to_square m) A8))).

Definition plain_code (code : string) : bool :=
  match from_uci code with
  | Some m => plain_move m
  | None => true
  end.

(** The code of the castling move that [code] spells as the king taking
    its own rook, when the king stands on its home square. *)
Definition king_takes_rook (p : Position) (code : string) : option string :=
  if String.eqb code "e1h1" && king_on p E1 then Some "e1g1"%string
  else if String.eqb code "e1a1" && king_on p E1 then Some "e1c1"%string
  else if String.eqb code "e8h8" && king_on p E8 then Some "e8g8"%string
  else if String.eqb code "e8a8" && king_on p E8 then Some "e8c8"%string
  else None.

(** The codes of the two opening books and of the two thematic lists. *)
Definition book_codes (d : book) : list string := List.concat (map snd d).

Definition OPENING_CODES : list string :=
  book_codes ENGLISH_OPENING ++ ENGLISH_THEMATIC_MOVES ++
  book_codes MODERN_DEFENSE ++ MODERN_THEMATIC_MOVES.

(* ================================================================== *)
(** * Properties                                                       *)
(* ================================================================== *)

(** ** The order on scores *)

Unset Implicit Arguments.

Lemma score_le_refl (a : score) : score_le a a.
Proof.
  destruct a; unfold score_le; simpl; auto.
  apply Qle_bool_iff, Qle_refl.
Qed.

Lemma score_le_trans (a b c : score) :
  score_le a b -> score_le b c -> score_le a c.
Proof.
  unfold score_le; destruct a, b, c; simpl; auto; try discriminate.
  rewrite !Qle_bool_iff. apply Qle_trans.
Qed.

Lemma score_le_total (a b : score) : score_leb a b = false -> score_le b a.
Proof.
  unfold score_le; destruct a, b; simpl; auto; try discriminate.
  intros H. apply Qle_bool_iff.
  destruct (Qlt_le_dec q0 q) as [Hlt | Hle].
  - apply Qlt_le_weak, Hlt.
  - apply Qle_bool_iff in Hle. congruence.
Qed.

Lemma score_lt_le (a b : score) : score_ltb a b = true -> score_le a b.
Proof.
  unfold score_ltb. intros H. apply score_le_total.
  destruct (score_leb b a); [discriminate | reflexivity].
Qed.

Lemma score_neg_involutive (a : score) : score_neg (score_neg a) = a.
Proof.
  destruct a as [ | [n d] | ]; simpl; auto.
  unfold Qopp; simpl. now rewrite Z.opp_involutive.
Qed.

(** ** Running monadic code *)

Lemma bind_run {A B} (c : M A) (k : A -> M B) (s : Machine) :
  bind c k s = k (fst (c s)) (snd (c s)).
Proof. unfold bind. destruct (c s); reflexivity. Qed.

Lemma pop_push `{R : Rules} (b : Board) (m : Move) : pop (push b m) = b.
Proof. destruct b; reflexivity. Qed.

Lemma set_turn_restore (b : Board) (c1 c2 : Color) :
  set_turn (set_turn (set_turn b c1) c2) (turn (position b)) = b.
Proof. destruct b as [[pl t cr ep hm fm] ms st]; reflexivity. Qed.

Section Properties.

Context `{R : Rules}.

(** *** Quiescence stays inside its window *)

Lemma quiescence_loop_window recurse moves :
  forall alpha beta s,
    score_le alpha beta ->
    score_le alpha (fst (quiescence_loop recurse moves alpha beta s)) /\
    score_le (fst (quiescence_loop recurse moves alpha beta s)) beta.
Proof.
  induction moves as [ | mv rest IH]; intros alpha beta s Hab; simpl.
  - split; [apply score_le_refl | exact Hab].
  - rewrite bind_run. cbn [the_position gets fst snd].
    destruct (negb (is_capture (position (board (self s))) mv)).
    + apply IH, Hab.
    + rewrite !bind_run.
      set (s1 := snd (board_push mv s)).
      set (r := recurse (score_neg beta) (score_neg alpha) s1).
      set (s2 := snd (board_pop (snd r))).
      destruct (score_leb beta (score_neg (fst r))) eqn:Hcut.
      * split; [exact Hab | apply score_le_refl].
      * destruct (score_ltb alpha (score_neg (fst r))) eqn:Hraise.
        -- destruct (IH (score_neg (fst r)) beta s2) as [Hlo Hhi].
           { apply score_le_total, Hcut. }
           split; [ | exact Hhi].
           eapply score_le_trans; [apply score_lt_le, Hraise | exact Hlo].
        -- apply IH, Hab.
Qed.

Lemma quiescence_unfold alpha beta depth s :
  quiescence alpha beta depth s =
  (count_node ;;
   e <- evaluate ;;
   t <- board_turn ;;
   let stand_pat := of_int (match t with BLACK => - e | WHITE => e end) in
   if score_leb beta stand_pat then ret beta
   else
     let alpha := if score_ltb alpha stand_pat then stand_pat else alpha in
     if (4 <? depth)%nat then ret alpha
     else
       moves <- board_legal_moves ;;
       quiescence_loop (fun a b => quiescence a b (depth + 1)) moves alpha beta) s.
Proof.
  unfold quiescence.
  destruct (4 <? depth)%nat eqn:Hguard.
  - apply Nat.ltb_lt in Hguard.
    replace (5 - depth)%nat with O by lia. reflexivity.
  - apply Nat.ltb_ge in Hguard.
    replace (5 - depth)%nat with (S (5 - (depth + 1))) by lia. reflexivity.
Qed.

(** *** Code that only reads the position *)

Lemma reads_ret {A} (x : A) : reads_position (ret x).
Proof. exists (fun _ => x). reflexivity. Qed.

Lemma reads_bind {A B} (c : M A) (k : A -> M B) :
  reads_position c -> (forall x, reads_position (k x)) -> reads_position (bind c k).
Proof.
  intros [f Hf] Hk.
  exists (fun p => proj1_sig (Hk (f p)) p).
  intros s. unfold bind. rewrite Hf.
  destruct (Hk (f (position_of s))) as [g Hg]; simpl. apply Hg.
Qed.

Lemma reads_the_position : reads_position the_position.
Proof. exists (fun p => p). reflexivity. Qed.

Lemma reads_board_turn : reads_position board_turn.
Proof. exists turn. reflexivity. Qed.

Lemma reads_board_legal_moves : reads_position board_legal_moves.
Proof. exists legal_moves. reflexivity. Qed.

Lemma reads_is_endgame : reads_position is_endgame.
Proof.
  unfold is_endgame. apply reads_bind; [apply reads_the_position | ].
  intros p. apply reads_ret.
Qed.

Lemma reads_get_piece_square_value piece sq :
  reads_position (get_piece_square_value piece sq).
Proof.
  unfold get_piece_square_value.
  apply reads_bind.
  - destruct (piece_type piece);
      try (apply reads_bind; [apply reads_is_endgame | intros endgame]);
      apply reads_ret.
  - intros table. destruct (color piece); apply reads_ret.
Qed.

Lemma reads_evaluate_mobility : reads_position evaluate_mobility.
Proof.
  exists (fun p =>
    (Z.of_nat (List.length (legal_moves (with_turn p WHITE)))
     - Z.of_nat (List.length (legal_moves (with_turn p BLACK)))) * 5).
  intros [[[[pl t cr ep hm fm] ms st] h r ai mt stt n th] tc rc].
  destruct t; reflexivity.
Qed.

Lemma reads_evaluate_king_safety : reads_position evaluate_king_safety.
Proof.
  unfold evaluate_king_safety.
  apply reads_bind; [apply reads_the_position | intros; apply reads_ret].
Qed.

Lemma reads_material_loop sqs : forall score, reads_position (material_loop sqs score).
Proof.
  induction sqs as [ | sq rest IH]; intros score; simpl.
  - apply reads_ret.
  - apply reads_bind; [apply reads_the_position | ].
    intros p. destruct (piece_at p sq) as [piece | ].
    + apply reads_bind; [apply reads_get_piece_square_value | ].
      intros psv. apply IH.
    + apply IH.
Qed.

Lemma reads_evaluate : reads_position evaluate.
Proof.
  unfold evaluate.
  apply reads_bind; [apply reads_the_position | ].
  intros p. destruct (is_checkmate p); [apply reads_ret | ].
  destruct (is_stalemate p || is_insufficient_material p); [apply reads_ret | ].
  apply reads_bind; [apply reads_material_loop | intros score].
  apply reads_bind; [apply reads_evaluate_mobility | intros mobility].
  apply reads_bind; [apply reads_is_endgame | intros endgame].
  apply reads_bind.
  - destruct (negb endgame); [ | apply reads_ret].
    apply reads_bind; [apply reads_evaluate_king_safety | intros; apply reads_ret].
  - intros score'.
    apply reads_bind; [apply reads_the_position | ].
    intros p'. destruct (is_check p'); apply reads_ret.
Qed.

Lemma evaluate_state s : snd (evaluate s) = s.
Proof. destruct reads_evaluate as [f Hf]. now rewrite Hf. Qed.

(** *** Code that hands the board back *)

Lemma keeps_ret {A} (x : A) : keeps_game (ret x).
Proof. intros s. reflexivity. Qed.

Lemma keeps_bind {A B} (c : M A) (k : A -> M B) :
  keeps_game c -> (forall x, keeps_game (k x)) -> keeps_game (bind c k).
Proof.
  intros Hc Hk s. rewrite bind_run, Hk. apply Hc.
Qed.

Lemma keeps_gets {A} (f : ChessEngine -> A) : keeps_game (gets f).
Proof. intros s. reflexivity. Qed.

Lemma keeps_reads {A} (c : M A) : reads_position c -> keeps_game c.
Proof. intros [f Hf] s. now rewrite Hf. Qed.

Lemma keeps_evaluate : keeps_game evaluate.
Proof. apply keeps_reads, reads_evaluate. Qed.

Lemma keeps_count_node : keeps_game count_node.
Proof. intros s. reflexivity. Qed.

Lemma keeps_set_start_time t : keeps_game (modify (set_start_time t)).
Proof. intros s. reflexivity. Qed.

Lemma keeps_set_nodes_searched n : keeps_game (modify (set_nodes_searched n)).
Proof. intros s. reflexivity. Qed.

Lemma game_of_board s s' : game_of s' = game_of s -> board (self s') = board (self s).
Proof. unfold game_of. intros H. now injection H. Qed.

Lemma game_of_position s s' : game_of s' = game_of s -> position_of s' = position_of s.
Proof. intros H. unfold position_of. now rewrite (game_of_board _ _ H). Qed.

(** A [push] ... [pop] pair around code that keeps the game keeps it. *)
Lemma keeps_scoped {A B} (mv : Move) (body : M A) (k : A -> M B) :
  keeps_game body -> (forall x, keeps_game (k x)) ->
  keeps_game (board_push mv ;; x <- body ;; board_pop ;; k x).
Proof.
  intros Hbody Hk s. rewrite !bind_run, Hk.
  specialize (Hbody (snd (board_push mv s))).
  unfold game_of, board_pop, board_push, modify in *.
  cbn [snd self board move_history redo_stack ai_color set_board] in *.
  injection Hbody as Hb Hh Hr Ha. rewrite Hb, Hh, Hr, Ha.
  now rewrite pop_push.
Qed.

Lemma keeps_thematic_loop thematic_moves moves :
  forall thematic_legal, keeps_game (thematic_loop thematic_moves moves thematic_legal).
Proof.
  induction moves as [ | mv rest IH]; intros acc; simpl.
  - apply keeps_ret.
  - destruct (existsb (String.eqb (uci mv)) thematic_moves); [ | apply IH].
    apply keeps_scoped; [apply keeps_evaluate | intros eval_score].
    apply keeps_bind; [apply keeps_gets | intros ai].
    apply keeps_bind; [apply keeps_gets | intros threshold].
    destruct (threshold <=? eval_score * perspective_of ai); apply IH.
Qed.

Lemma keeps_score_moves moves :
  forall scored, keeps_game (score_moves moves scored).
Proof.
  induction moves as [ | mv rest IH]; intros scored; simpl.
  - apply keeps_ret.
  - apply keeps_bind; [apply keeps_gets | intros p].
    apply keeps_scoped; [apply keeps_gets | intros p'].
    apply IH.
Qed.

Lemma keeps_order_moves moves : keeps_game (order_moves moves).
Proof.
  unfold order_moves.
  apply keeps_bind; [apply keeps_score_moves | intros; apply keeps_ret].
Qed.

Lemma keeps_quiescence_loop recurse moves :
  (forall a b, keeps_game (recurse a b)) ->
  forall alpha beta, keeps_game (quiescence_loop recurse moves alpha beta).
Proof.
  intros Hrec.
  induction moves as [ | mv rest IH]; intros alpha beta; simpl.
  - apply keeps_ret.
  - apply keeps_bind; [apply keeps_gets | intros p].
    destruct (negb (is_capture p mv)); [apply IH | ].
    apply keeps_scoped; [apply Hrec | intros r].
    destruct (score_leb beta (score_neg r)); [apply keeps_ret | ].
    destruct (score_ltb alpha (score_neg r)); apply IH.
Qed.

Lemma keeps_quiescence_plies plies :
  forall alpha beta, keeps_game (quiescence_plies plies alpha beta).
Proof.
  induction plies as [ | plies' IH]; intros alpha beta; simpl;
    (apply keeps_bind; [apply keeps_count_node | intros _]);
    (apply keeps_bind; [apply keeps_evaluate | intros e]);
    (apply keeps_bind; [apply keeps_gets | intros t]);
    match goal with |- keeps_game (if ?c then _ else _) => destruct c end;
    try apply keeps_ret.
  apply keeps_bind; [apply keeps_gets | intros moves].
  apply keeps_quiescence_loop, IH.
Qed.

Lemma keeps_quiescence alpha beta depth : keeps_game (quiescence alpha beta depth).
Proof. apply keeps_quiescence_plies. Qed.

Lemma keeps_minimax_leaf alpha beta : keeps_game (minimax_leaf alpha beta).
Proof.
  unfold minimax_leaf.
  apply keeps_bind; [apply keeps_quiescence | intros score].
  apply keeps_bind; [apply keeps_gets | intros t; apply keeps_ret].
Qed.

Lemma keeps_max_loop recurse moves :
  (forall a b mx, keeps_game (recurse a b mx)) ->
  forall alpha beta max_eval best,
    keeps_game (max_loop recurse moves alpha beta max_eval best).
Proof.
  intros Hrec.
  induction moves as [ | mv rest IH]; intros alpha beta max_eval best; simpl.
  - apply keeps_ret.
  - apply keeps_scoped; [apply Hrec | intros r].
    destruct (score_ltb max_eval (fst r));
      (destruct (score_leb beta (score_max alpha (fst r))); [apply keeps_ret | apply IH]).
Qed.

Lemma keeps_min_loop recurse moves :
  (forall a b mx, keeps_game (recurse a b mx)) ->
  forall alpha beta min_eval best,
    keeps_game (min_loop recurse moves alpha beta min_eval best).
Proof.
  intros Hrec.
  induction moves as [ | mv rest IH]; intros alpha beta min_eval best; simpl.
  - apply keeps_ret.
  - apply keeps_scoped; [apply Hrec | intros r].
    destruct (score_ltb (fst r) min_eval);
      (destruct (score_leb (score_min beta (fst r)) alpha); [apply keeps_ret | apply IH]).
Qed.

Lemma keeps_safe_moves_loop perspective moves :
  forall safe, keeps_game (safe_moves_loop perspective moves safe).
Proof.
  induction moves as [ | mv rest IH]; intros safe; simpl.
  - apply keeps_ret.
  - apply keeps_scoped; [apply keeps_evaluate | intros e].
    apply keeps_bind; [apply keeps_gets | intros threshold].
    destruct (threshold <=? e * perspective); apply IH.
Qed.

(** *** Moves and their codes *)

Lemma piece_type_eqb_eq a b : piece_type_eqb a b = true -> a = b.
Proof. destruct a, b; simpl; congruence. Qed.

Lemma option_piece_type_eqb_eq a b : option_eqb piece_type_eqb a b = true -> a = b.
Proof.
  destruct a, b; simpl; try congruence.
  intros H. f_equal. now apply piece_type_eqb_eq.
Qed.

Lemma move_eqb_eq a b : move_eqb a b = true -> a = b.
Proof.
  destruct a as [f t pr d], b as [f' t' pr' d']. unfold move_eqb; simpl.
  rewrite !andb_true_iff. intros [[[Hf Ht] Hp] Hd].
  apply Nat.eqb_eq in Hf, Ht.
  apply option_piece_type_eqb_eq in Hp, Hd. congruence.
Qed.

Lemma move_in_In m ms : move_in m ms = true -> In m ms.
Proof.
  unfold move_in. rewrite existsb_exists. intros [m' [Hin Heq]].
  apply move_eqb_eq in Heq. now subst.
Qed.

Lemma roundtrip_all :
  forallb (fun f => forallb (fun t =>
    Nat.eqb f t || forallb (roundtrip_ok f t) PROMOTIONS) (seq 0 64)) (seq 0 64) = true.
Proof. vm_compute. reflexivity. Qed.

Lemma from_uci_uci m : well_formed_move m -> from_uci (uci m) = Some m.
Proof.
  destruct m as [f t pr d]. unfold well_formed_move; simpl.
  intros (Hf & Ht & Hne & Hd). subst d.
  pose proof roundtrip_all as H.
  rewrite forallb_forall in H. specialize (H f).
  rewrite forallb_forall in H.
  assert (Hin : forall n, (n < 64)%nat -> In n (seq 0 64)) by (intros; apply in_seq; lia).
  specialize (H (Hin f Hf) t (Hin t Ht)).
  apply orb_true_iff in H. destruct H as [H | H].
  - apply Nat.eqb_eq in H. contradiction.
  - rewrite forallb_forall in H.
    assert (Hpr : In pr PROMOTIONS) by (destruct pr as [[]|]; simpl; tauto).
    specialize (H pr Hpr). unfold roundtrip_ok in H.
    destruct (from_uci (uci (mkMove f t pr None))) as [m' | ]; simpl in H; [ | discriminate].
    apply move_eqb_eq in H. now subst.
Qed.

Lemma well_formed_move_bool m : well_formed_move m -> move_bool m = true.
Proof.
  destruct m as [f t pr d]. unfold well_formed_move, move_bool; simpl.
  intros (_ & _ & Hne & _).
  destruct f, t; simpl; try reflexivity. contradiction.
Qed.

(** *** Ordering keeps the moves *)

Lemma insert_desc_perm {A} (x : Z * A) l : Permutation (insert_desc x l) (x :: l).
Proof.
  induction l as [ | y l IH]; simpl.
  - apply Permutation_refl.
  - destruct (fst x <? fst y).
    + eapply perm_trans; [apply perm_skip, IH | apply perm_swap].
    + apply Permutation_refl.
Qed.

Lemma sort_desc_perm {A} (l : list (Z * A)) : Permutation (sort_desc l) l.
Proof.
  induction l as [ | x l IH]; simpl.
  - apply perm_nil.
  - eapply perm_trans; [apply insert_desc_perm | apply perm_skip, IH].
Qed.

Lemma score_moves_moves moves :
  forall scored s,
    map snd (fst (score_moves moves scored s)) = map snd scored ++ moves.
Proof.
  induction moves as [ | mv rest IH]; intros scored s; simpl.
  - now rewrite app_nil_r.
  - rewrite !bind_run, IH, map_app. simpl. now rewrite <- app_assoc.
Qed.

Lemma order_moves_perm moves s : Permutation (fst (order_moves moves s)) moves.
Proof.
  unfold order_moves. rewrite bind_run. simpl.
  eapply perm_trans.
  - apply Permutation_map, sort_desc_perm.
  - rewrite score_moves_moves. apply Permutation_refl.
Qed.

(** *** The move the search proposes *)

Lemma max_loop_move recurse moves :
  forall alpha beta max_eval best s m,
    snd (fst (max_loop recurse moves alpha beta max_eval best s)) = Some m ->
    best = Some m \/ In m moves.
Proof.
  induction moves as [ | mv rest IH]; intros alpha beta max_eval best s m; simpl.
  - auto.
  - rewrite !bind_run.
    set (r := recurse alpha beta false _).
    destruct (score_ltb max_eval (fst (fst r)));
      destruct (score_leb beta (score_max alpha (fst (fst r)))); simpl; intros H;
      try (apply IH in H; destruct H as [H | H]); try injection H as H; auto.
Qed.

Lemma min_loop_move recurse moves :
  forall alpha beta min_eval best s m,
    snd (fst (min_loop recurse moves alpha beta min_eval best s)) = Some m ->
    best = Some m \/ In m moves.
Proof.
  induction moves as [ | mv rest IH]; intros alpha beta min_eval best s m; simpl.
  - auto.
  - rewrite !bind_run.
    set (r := recurse alpha beta true _).
    destruct (score_ltb (fst (fst r)) min_eval);
      destruct (score_leb (score_min beta (fst (fst r))) alpha); simpl; intros H;
      try (apply IH in H; destruct H as [H | H]); try injection H as H; auto.
Qed.

End Properties.

Section Selector.

Context `{R : Rules} (env : Env).

Lemma keeps_time_now : keeps_game (time_now env).
Proof. intros s. reflexivity. Qed.

Lemma keeps_random_choice {A} (d : A) seq : keeps_game (random_choice env d seq).
Proof. intros s. reflexivity. Qed.

Lemma keeps_random_float : keeps_game (random_float env).
Proof. intros s. reflexivity. Qed.

Lemma random_choice_In {A} (d : A) seq s :
  seq <> [] -> In (fst (random_choice env d seq s)) seq.
Proof.
  intros Hne. unfold random_choice; simpl.
  apply nth_In. apply Nat.mod_upper_bound.
  destruct seq; [contradiction | simpl; lia].
Qed.

Lemma keeps_minimax depth :
  forall alpha beta maximizing, keeps_game (minimax env depth alpha beta maximizing).
Proof.
  induction depth as [ | depth' IH]; intros alpha beta maximizing; simpl;
    (apply keeps_bind; [apply keeps_count_node | intros _]);
    (apply keeps_bind; [apply keeps_time_now | intros now]);
    (apply keeps_bind; [apply keeps_gets | intros started]);
    (apply keeps_bind; [apply keeps_gets | intros budget]);
    (destruct (Qlt_bool budget (now - started));
     [apply keeps_bind; [apply keeps_evaluate | intros; apply keeps_ret] | ]).
  - apply keeps_minimax_leaf.
  - apply keeps_bind; [apply keeps_gets | intros b].
    destruct (is_game_over b); [apply keeps_minimax_leaf | ].
    apply keeps_bind; [apply keeps_gets | intros legal].
    apply keeps_bind; [apply keeps_order_moves | intros moves].
    destruct maximizing; [apply keeps_max_loop | apply keeps_min_loop]; apply IH.
Qed.

Lemma minimax_leaf_move alpha beta s : snd (fst (minimax_leaf alpha beta s)) = None.
Proof. unfold minimax_leaf. rewrite !bind_run. reflexivity. Qed.

Lemma minimax_inner_move (recurse : score -> score -> bool -> M (score * option Move))
    alpha beta (maximizing : bool) s m :
  snd (fst ((b <- gets board ;;
             if is_game_over b then minimax_leaf alpha beta
             else
               legal <- board_legal_moves ;;
               moves <- order_moves legal ;;
               if maximizing
               then max_loop recurse moves alpha beta NegInf None
               else min_loop recurse moves alpha beta PosInf None) s)) = Some m ->
  In m (legal_moves (position_of s)).
Proof.
  rewrite bind_run. cbn [gets fst snd].
  destruct (is_game_over (board (self s)));
    [rewrite minimax_leaf_move; discriminate | ].
  rewrite !bind_run. cbn [board_legal_moves gets fst snd].
  set (ordered := order_moves _ _).
  intros H.
  assert (Hin : In m (fst ordered)).
  { destruct maximizing;
      [apply max_loop_move in H | apply min_loop_move in H];
      destruct H as [H | H]; try discriminate; exact H. }
  eapply Permutation_in in Hin; [ | apply order_moves_perm]. exact Hin.
Qed.

Lemma minimax_move depth alpha beta maximizing s m :
  snd (fst (minimax env depth alpha beta maximizing s)) = Some m ->
  In m (legal_moves (position_of s)).
Proof.
  destruct depth as [ | depth']; cbn [minimax]; rewrite !bind_run;
    cbn [gets count_node modify time_now fst snd self start_time max_time
         set_nodes_searched];
    match goal with |- context [if ?c then _ else _] => destruct c end;
    try (rewrite bind_run; simpl; discriminate);
    try (rewrite minimax_leaf_move; discriminate).
  intros H. apply minimax_inner_move in H. exact H.
Qed.

(** *** The safety net *)

Lemma safe_moves_loop_moves perspective moves :
  forall safe s x,
    In x (map snd (fst (safe_moves_loop perspective moves safe s))) ->
    In x (map snd safe) \/ In x moves.
Proof.
  induction moves as [ | mv rest IH]; intros safe s x; simpl.
  - auto.
  - rewrite !bind_run. cbn [gets fst snd].
    match goal with |- context [if ?c then _ else _] => destruct c end;
      intros H; apply IH in H; destruct H as [H | H]; auto.
    rewrite map_app in H. apply in_app_or in H. simpl in H.
    destruct H as [H | [H | []]]; auto.
Qed.

Lemma keeps_safety_net best : keeps_game (safety_net best).
Proof.
  unfold safety_net.
  apply keeps_bind; [apply keeps_gets | intros ai].
  destruct best as [bm | ]; [ | apply keeps_ret].
  destruct ai as [c | ]; [ | apply keeps_ret].
  destruct (move_bool bm); [ | apply keeps_ret].
  apply keeps_scoped; [apply keeps_evaluate | intros post_eval].
  apply keeps_bind; [apply keeps_gets | intros threshold].
  destruct (_ <? threshold); [ | apply keeps_ret].
  apply keeps_bind; [apply keeps_gets | intros legal].
  apply keeps_bind; [apply keeps_safe_moves_loop | intros safe].
  destruct (sort_desc safe) as [ | [v mv] rest]; apply keeps_ret.
Qed.

Lemma safety_net_legal bm s :
  In bm (legal_moves (position_of s)) ->
  exists m, fst (safety_net (Some bm) s) = Some m /\
            In m (legal_moves (position_of s)).
Proof.
  intros Hbm. unfold safety_net. rewrite bind_run. cbn [gets fst snd].
  destruct (ai_color (self s)) as [c | ]; [ | exists bm; auto].
  destruct (move_bool bm); [ | exists bm; auto].
  rewrite !bind_run. cbn [gets fst snd].
  match goal with |- context [if ?c then _ else _] => destruct c end;
    [ | exists bm; auto].
  rewrite !bind_run. cbn [board_legal_moves gets fst snd].
  set (s1 := snd (board_pop _)).
  assert (Hs1 : board (self s1) = board (self s)).
  { subst s1. apply game_of_board.
    pose proof (keeps_scoped bm evaluate (fun _ => ret tt)
                  keeps_evaluate (fun _ => keeps_ret tt) s) as H.
    rewrite !bind_run in H. exact H. }
  set (safe := safe_moves_loop _ _ _ _).
  destruct (sort_desc (fst safe)) as [ | [v mv] rest] eqn:Hsort;
    [exists bm; auto | ].
  exists mv. split; [reflexivity | ].
  assert (Hin : In mv (map snd (fst safe))).
  { eapply Permutation_in; [apply Permutation_map, sort_desc_perm | ].
    rewrite Hsort. simpl. auto. }
  apply safe_moves_loop_moves in Hin. destruct Hin as [[] | Hin].
  unfold position_of in *. now rewrite Hs1 in Hin.
Qed.

(** *** The search path of the selector *)

Lemma search_move_legal depth s :
  legal_moves (position_of s) <> [] ->
  (forall m, In m (legal_moves (position_of s)) -> well_formed_move m) ->
  exists m, In m (legal_moves (position_of s)) /\
            fst (search_move env depth s) = Some (uci m).
Proof.
  intros Hne Hwf. unfold search_move.
  rewrite !bind_run.
  cbn [board_turn gets modify time_now fst snd self].
  set (s3 := mkMachine _ _ _).
  assert (Hs3 : position_of s3 = position_of s) by reflexivity.
  set (r := minimax env _ NegInf PosInf _ s3).
  assert (Hpos : position_of (snd r) = position_of s)
    by exact (game_of_position _ _ (keeps_minimax _ _ _ _ s3)).
  (* the move the search or the random fallback settles on *)
  assert (Hchosen : exists bm s4,
            In bm (legal_moves (position_of s)) /\
            position_of s4 = position_of s /\
            (match snd (fst r) with
             | None =>
                 legal <- board_legal_moves ;;
                 match legal with
                 | [] => ret None
                 | _ :: _ =>
                     choice <- random_choice env (move 0%nat 0%nat) legal ;;
                     ret (Some choice)
                 end
             | Some _ => ret (snd (fst r))
             end) (snd r) = (Some bm, s4)).
  { destruct (snd (fst r)) as [bm | ] eqn:Hbest.
    - exists bm, (snd r). repeat split; auto.
      rewrite <- Hs3. eapply minimax_move. exact Hbest.
    - rewrite bind_run. cbn [board_legal_moves gets fst snd].
      fold (position_of (snd r)). rewrite Hpos.
      destruct (legal_moves (position_of s)) as [ | m0 rest] eqn:Hlegal;
        [contradiction | ].
      rewrite bind_run.
      eexists _, _. split; [ | split; [ | reflexivity]].
      + apply random_choice_In. discriminate.
      + exact Hpos. }
  destruct Hchosen as (bm & s4 & Hbm & Hs4 & Hrun).
  rewrite Hrun. cbn [fst snd].
  rewrite <- Hs4 in Hbm.
  destruct (safety_net_legal bm s4 Hbm) as (m & Hnet & Hm).
  rewrite Hnet, Hs4 in *.
  exists m. split; [exact Hm | ].
  now rewrite (well_formed_move_bool m (Hwf m Hm)).
Qed.

(** *** The opening advisor *)

Lemma keeps_get_thematic_move thematic_moves :
  keeps_game (_get_thematic_move env thematic_moves).
Proof.
  unfold _get_thematic_move.
  apply keeps_bind; [apply keeps_gets | intros legal].
  apply keeps_bind; [apply keeps_thematic_loop | intros thematic_legal].
  destruct thematic_legal; [apply keeps_ret | ].
  apply keeps_bind; [apply keeps_random_float | intros x].
  destruct (Qlt_bool x (7 # 10)); [ | apply keeps_ret].
  apply keeps_bind; [apply keeps_random_choice | intros; apply keeps_ret].
Qed.

Lemma keeps_get_opening_move : keeps_game (get_opening_move env).
Proof.
  unfold get_opening_move, get_move_history_uci.
  apply keeps_bind;
    [apply keeps_bind; [apply keeps_gets | intros; apply keeps_ret] | intros codes].
  apply keeps_bind; [apply keeps_gets | intros history].
  apply keeps_bind; [apply keeps_gets | intros ai].
  destruct ai as [[ | ] | ]; try apply keeps_ret;
    (match goal with |- context [book_get ?k ?d] => destruct (book_get k d) end;
     [apply keeps_bind; [apply keeps_random_choice | intros; apply keeps_ret]
     | destruct (_ <? 12)%nat; [apply keeps_get_thematic_move | apply keeps_ret]]).
Qed.

Lemma keeps_search_move depth : keeps_game (search_move env depth).
Proof.
  unfold search_move.
  apply keeps_bind; [apply keeps_time_now | intros now].
  apply keeps_bind; [apply keeps_set_start_time | intros _].
  apply keeps_bind; [apply keeps_set_nodes_searched | intros _].
  apply keeps_bind; [apply keeps_gets | intros t].
  apply keeps_bind; [apply keeps_minimax | intros r].
  apply keeps_bind.
  - destruct (snd r); [apply keeps_ret | ].
    apply keeps_bind; [apply keeps_gets | intros legal].
    destruct legal; [apply keeps_ret | ].
    apply keeps_bind; [apply keeps_random_choice | intros; apply keeps_ret].
  - intros best.
    apply keeps_bind; [apply keeps_safety_net | intros best'].
    destruct best'; apply keeps_ret.
Qed.

Lemma keeps_get_best_move depth : keeps_game (get_best_move env depth).
Proof.
  unfold get_best_move.
  apply keeps_bind; [apply keeps_gets | intros b].
  destruct (is_game_over b); [apply keeps_ret | ].
  apply keeps_bind; [apply keeps_get_opening_move | intros opening_move].
  apply keeps_bind; [apply keeps_gets | intros p].
  destruct opening_move as [code | ]; [ | apply keeps_search_move].
  destruct (str_bool code); [ | apply keeps_search_move].
  destruct (from_uci code) as [mv | ]; [ | apply keeps_search_move].
  destruct (is_legal p mv); [apply keeps_ret | apply keeps_search_move].
Qed.

(** *** The history invariant *)

Lemma list_pop_spec {A} (l : list A) :
  match list_pop l with
  | Some (rest, x) => l = rest ++ [x]
  | None => l = []
  end.
Proof.
  induction l as [ | y l IH]; simpl; [reflexivity | ].
  destruct (list_pop l) as [[rest x] | ]; subst; reflexivity.
Qed.

Lemma consistent_game s s' :
  game_of s' = game_of s -> consistent (self s) -> consistent (self s').
Proof.
  unfold game_of, consistent. intros H. injection H as Hb Hh _ _.
  now rewrite Hb, Hh.
Qed.

(** Every machine a session reaches has its position equal to the replay
    of its played history from the start position. *)
Lemma reachable_consistent s : reachable env s -> consistent (self s).
Proof.
  induction 1 as [tc rc | s _ _ | s o _ IH | s code _ IH | s _ IH | s _ IH
                 | s depth _ IH | s fen depth _ IH].
  - reflexivity.
  - reflexivity.
  - exact IH.
  - unfold make_move. destruct (from_uci code) as [mv | ]; [ | exact IH].
    rewrite bind_run. cbn [the_position gets fst snd].
    destruct (is_legal _ mv); [ | exact IH].
    rewrite !bind_run. unfold consistent in *. cbn.
    now rewrite fold_left_app, <- IH.
  - unfold undo_move. rewrite bind_run. cbn [gets fst snd].
    pose proof (list_pop_spec (move_history (self s))) as Hpop.
    destruct (list_pop (move_history (self s))) as [[rest mv] | ]; [ | exact IH].
    rewrite !bind_run. unfold consistent in *. cbn.
    rewrite Hpop, fold_left_app in IH. cbn in IH. rewrite IH. apply pop_push.
  - unfold redo_move. rewrite bind_run. cbn [gets fst snd].
    destruct (list_pop (redo_stack (self s))) as [[rest mv] | ]; [ | exact IH].
    rewrite !bind_run. unfold consistent in *. cbn.
    now rewrite fold_left_app, <- IH.
  - eapply consistent_game; [apply keeps_get_best_move | exact IH].
  - unfold consistent, get_best_move_for_fen, is_valid_fen in *.
    rewrite bind_run. cbn [ret fst snd].
    destruct (parse_fen fen) as [p | ]; cbn [is_some negb]; [ | exact IH].
    rewrite !bind_run. cbn. exact IH.
Qed.

End Selector.

(* ================================================================== *)
(** * The claims                                                       *)
(* ================================================================== *)

Lemma move_eqb_refl m : move_eqb m m = true.
Proof.
  destruct m as [f t [[]|] [[]|]]; unfold move_eqb; simpl;
    now rewrite !Nat.eqb_refl.
Qed.

Lemma In_move_in m ms : In m ms -> move_in m ms = true.
Proof.
  intros H. unfold move_in. apply existsb_exists.
  exists m. split; [exact H | apply move_eqb_refl].
Qed.

Lemma not_move_in m ms : move_in m ms = false -> ~ In m ms.
Proof. intros H Hin. apply In_move_in in Hin. congruence. Qed.

Lemma well_formed_moves_check ms :
  forallb well_formed_moveb ms = true -> forall m, In m ms -> well_formed_move m.
Proof.
  intros H m Hin. rewrite forallb_forall in H. specialize (H m Hin).
  unfold well_formed_moveb in H. rewrite !andb_true_iff in H.
  destruct H as [[[Hf Ht] Hne] Hd].
  apply Nat.ltb_lt in Hf, Ht.
  apply negb_true_iff, Nat.eqb_neq in Hne.
  unfold well_formed_move. repeat split; auto.
  destruct (drop m); [discriminate | reflexivity].
Qed.

(** ** Membership in the legal moves *)

Lemma from_chess960_plain (p : Position) (m : Move) :
  plain_move m = true -> _from_chess960 p m = m.
Proof.
  unfold plain_move, _from_chess960. intros H.
  destruct (promotion m); [reflexivity | ].
  destruct (drop m); [reflexivity | ].
  destruct (Nat.eqb (from_square m) E1); cbn [andb orb] in *.
  - destruct (king_on p E1); [ | cbn [andb]].
    + destruct (Nat.eqb (to_square m) H1); [discriminate | ].
      destruct (Nat.eqb (to_square m) A1); [discriminate | reflexivity].
    + destruct (Nat.eqb (from_square m) E8 && king_on p E8) eqn:E; [ | reflexivity].
      apply andb_true_iff in E. destruct E as [E _]. rewrite E in H. cbn [andb orb] in H.
      destruct (Nat.eqb (to_square m) H8); [ | destruct (Nat.eqb (to_square m) A8)];
        try reflexivity;
        destruct (Nat.eqb (to_square m) H1 || Nat.eqb (to_square m) A1); discriminate.
  - destruct (Nat.eqb (from_square m) E8); cbn [andb orb] in *; [ | reflexivity].
    destruct (king_on p E8); [ | reflexivity].
    destruct (Nat.eqb (to_square m) H8); [discriminate | ].
    destruct (Nat.eqb (to_square m) A8); [discriminate | reflexivity].
Qed.

(** The five results of [_from_chess960]. *)
Lemma from_chess960_cases (p : Position) (m : Move) :
  _from_chess960 p m = m \/
  (m = move E1 H1 /\ king_on p E1 = true /\ _from_chess960 p m = move E1 G1) \/
  (m = move E1 A1 /\ king_on p E1 = true /\ _from_chess960 p m = move E1 C1) \/
  (m = move E8 H8 /\ king_on p E8 = true /\ _from_chess960 p m = move E8 G8) \/
  (m = move E8 A8 /\ king_on p E8 = true /\ _from_chess960 p m = move E8 C8).
Proof.
  destruct m as [f t [pr | ] [d | ]]; try (left; reflexivity).
  unfold _from_chess960. cbn [promotion drop from_square to_square].
  destruct (Nat.eqb f E1) eqn:Ef; cbn [andb].
  - apply Nat.eqb_eq in Ef. subst f.
    destruct (king_on p E1); [ | cbn; now left].
    destruct (Nat.eqb t H1) eqn:Et.
    { apply Nat.eqb_eq in Et. subst t. right. left. auto. }
    destruct (Nat.eqb t A1) eqn:Et'; [ | now left].
    apply Nat.eqb_eq in Et'. subst t. right. right. left. auto.
  - destruct (Nat.eqb f E8) eqn:Ef'; cbn [andb]; [ | now left].
    apply Nat.eqb_eq in Ef'. subst f.
    destruct (king_on p E8); [ | now left].
    destruct (Nat.eqb t H8) eqn:Et.
    { apply Nat.eqb_eq in Et. subst t. right. right. right. left. auto. }
    destruct (Nat.eqb t A8) eqn:Et'; [ | now left].
    apply Nat.eqb_eq in Et'. subst t. right. right. right. right. auto.
Qed.

(** Of a listed move [is_legal] holds; of a plainly spelled move it holds
    only when the move is listed. *)
Lemma is_legal_listed `{R : Rules} (p : Position) (m : Move) :
  In m (legal_moves p) -> is_legal p m = true.
Proof. intros H. unfold is_legal. now rewrite (In_move_in m _ H). Qed.

Lemma is_legal_plain `{R : Rules} (p : Position) (m : Move) :
  plain_move m = true -> is_legal p m = true -> In m (legal_moves p).
Proof.
  intros Hplain. unfold is_legal. rewrite (from_chess960_plain p m Hplain).
  rewrite orb_diag. apply move_in_In.
Qed.

(** *** The codes of the opening advisor *)

Lemma book_get_codes (k : string) (d : book) (v : list string) (code : string) :
  book_get k d = Some v -> In code v -> In code (book_codes d).
Proof.
  unfold book_codes. induction d as [ | [k' v'] d IH]; cbn; [discriminate | ].
  destruct (String.eqb k k').
  - intros [= <-] Hin. apply in_or_app. now left.
  - intros Hget Hin. apply in_or_app. right. now apply IH.
Qed.

Lemma thematic_loop_codes `{R : Rules} (thematic_moves : list string) (moves : list Move) :
  forall acc s code,
    In code (fst (thematic_loop thematic_moves moves acc s)) ->
    In code acc \/ In code thematic_moves.
Proof.
  induction moves as [ | mv rest IH]; intros acc s code; cbn [thematic_loop].
  - cbn. auto.
  - destruct (existsb (String.eqb (uci mv)) thematic_moves) eqn:Hth; [ | apply IH].
    rewrite !bind_run. cbn [gets fst snd].
    match goal with |- context [if ?c then _ else _] => destruct c end;
      intros H; apply IH in H; [ | exact H].
    destruct H as [H | H]; [ | now right].
    apply in_app_or in H. destruct H as [H | [<- | []]]; [now left | right].
    apply existsb_exists in Hth. destruct Hth as (c & Hc & Heq).
    apply String.eqb_eq in Heq. now rewrite Heq.
Qed.

Lemma random_choice_code (env : Env) (codes : list string) (s : Machine) :
  fst (random_choice env ""%string codes s) = ""%string \/
  In (fst (random_choice env ""%string codes s)) codes.
Proof.
  destruct codes as [ | c codes]; [left | right].
  - unfold random_choice. cbn. now destruct (random_index env (rng_calls s)).
  - apply random_choice_In. discriminate.
Qed.

Lemma get_thematic_move_codes `{R : Rules} (env : Env) (thematic_moves : list string)
    (s : Machine) (code : string) :
  fst (_get_thematic_move env thematic_moves s) = Some code ->
  code = ""%string \/ In code thematic_moves.
Proof.
  unfold _get_thematic_move. rewrite !bind_run. cbn [board_legal_moves gets fst snd].
  pose proof (thematic_loop_codes thematic_moves
                (legal_moves (position (board (self s)))) [] s) as Hloop.
  destruct (fst (thematic_loop thematic_moves _ [] s)) as [ | c0 rest] eqn:Hlist;
    [discriminate | ].
  rewrite bind_run. destruct (Qlt_bool _ _); [ | discriminate].
  rewrite bind_run.
  match goal with
  | |- context [random_choice env ""%string ?l ?x] =>
      pose proof (random_choice_code env l x) as H;
      generalize dependent (fst (random_choice env ""%string l x))
  end.
  intros choice H. cbn [ret fst]. intros [= <-].
  destruct H as [H | H]; [now left | right].
  apply Hloop in H. destruct H as [[] | H]. exact H.
Qed.

(** A code the opening advisor proposes is empty or one of the codes of
    the two books and the two thematic lists. *)
Lemma get_opening_move_codes `{R : Rules} (env : Env) (s : Machine) (code : string) :
  fst (get_opening_move env s) = Some code ->
  code = ""%string \/ In code OPENING_CODES.
Proof.
  unfold get_opening_move, get_move_history_uci, OPENING_CODES.
  rewrite !bind_run. cbn [gets ret fst snd].
  destruct (ai_color (self s)) as [[ | ] | ]; [ | | discriminate].
  - destruct (book_get _ ENGLISH_OPENING) as [moves | ] eqn:Hbook.
    + rewrite bind_run.
      pose proof (random_choice_code env moves s) as H.
      generalize dependent (fst (random_choice env ""%string moves s)).
      intros choice H. cbn [ret fst]. intros [= <-].
      destruct H as [H | H]; [now left | right].
      apply in_or_app. left. exact (book_get_codes _ _ _ _ Hbook H).
    + destruct (_ <? _)%nat; [ | discriminate].
      intros H. apply get_thematic_move_codes in H.
      destruct H as [H | H]; [now left | right].
      apply in_or_app. right. apply in_or_app. now left.
  - destruct (book_get _ MODERN_DEFENSE) as [moves | ] eqn:Hbook.
    + rewrite bind_run.
      pose proof (random_choice_code env moves s) as H.
      generalize dependent (fst (random_choice env ""%string moves s)).
      intros choice H. cbn [ret fst]. intros [= <-].
      destruct H as [H | H]; [now left | right].
      apply in_or_app. right. apply in_or_app. right. apply in_or_app. left.
      exact (book_get_codes _ _ _ _ Hbook H).
    + destruct (_ <? _)%nat; [ | discriminate].
      intros H. apply get_thematic_move_codes in H.
      destruct H as [H | H]; [now left | right].
      apply in_or_app. right. apply in_or_app. right. apply in_or_app. now right.
Qed.

(** No code of the opening advisor is a king-takes-rook spelling. *)
Lemma opening_codes_plain : forallb plain_code OPENING_CODES = true.
Proof. vm_compute. reflexivity. Qed.

Lemma get_opening_move_plain `{R : Rules} (env : Env) (s : Machine)
    (code : string) (mv : Move) :
  fst (get_opening_move env s) = Some code ->
  from_uci code = Some mv -> plain_move mv = true.
Proof.
  intros Hopen Hparse.
  destruct (get_opening_move_codes env s code Hopen) as [-> | Hin]; [discriminate | ].
  pose proof opening_codes_plain as Hall.
  rewrite forallb_forall in Hall. specialize (Hall code Hin).
  unfold plain_code in Hall. now rewrite Hparse in Hall.
Qed.

(** On a position that is over the selector answers at once. *)
Lemma get_best_move_over `{R : Rules} (env : Env) (depth : Z) (s : Machine) :
  is_game_over (board (self s)) = true -> get_best_move env depth s = (None, s).
Proof.
  intros Hover. unfold get_best_move. rewrite bind_run. cbn [gets fst snd].
  now rewrite Hover.
Qed.

(** On a position that is not over, with well-formed legal moves of which
    there is at least one, every path of the selector ends on the code of
    a legal move. *)
Lemma get_best_move_some `{R : Rules} (env : Env) (depth : Z) (s : Machine) :
  is_game_over (board (self s)) = false ->
  (forall m, In m (legal_moves (position_of s)) -> well_formed_move m) ->
  legal_moves (position_of s) <> [] ->
  exists code m,
    fst (get_best_move env depth s) = Some code /\
    from_uci code = Some m /\ In m (legal_moves (position_of s)).
Proof.
  intros Hgo Hwf Hne.
  unfold get_best_move. rewrite bind_run. cbn [gets fst snd]. rewrite Hgo.
  rewrite !bind_run. cbn [the_position gets fst snd].
  set (o := get_opening_move env s).
  assert (Ho : position_of (snd o) = position_of s)
    by apply game_of_position, keeps_get_opening_move.
  fold (position_of (snd o)). rewrite Ho.
  assert (Hsearch : exists code m,
            fst (search_move env depth (snd o)) = Some code /\
            from_uci code = Some m /\ In m (legal_moves (position_of s))).
  { destruct (search_move_legal env depth (snd o)) as (m & Hm & Hres).
    - now rewrite Ho.
    - now rewrite Ho.
    - rewrite Ho in Hm. exists (uci m), m. repeat split; auto.
      apply from_uci_uci, Hwf, Hm. }
  destruct (fst o) as [code | ] eqn:Hopen; [ | exact Hsearch].
  destruct (str_bool code); [ | exact Hsearch].
  destruct (from_uci code) as [mv | ] eqn:Hparse; [ | exact Hsearch].
  destruct (is_legal (position_of s) mv) eqn:Hin; [ | exact Hsearch].
  exists code, mv. repeat split; auto.
  apply is_legal_plain; [ | exact Hin].
  exact (get_opening_move_plain env s code mv Hopen Hparse).
Qed.

(** C1: for every position and every depth (in particular every depth in
    [1,5]), [get_best_move] returns [None] exactly when the game is over,
    and a code it returns - from the opening book, the search, the random
    fallback or the safety net, whatever the clock and the random draws
    are - parses to a member of the legal moves of the position the call
    started on.  The rules are only assumed to yield well-formed moves and
    to report a position without legal moves as over. *)
Theorem get_best_move_legal `{R : Rules} (env : Env) (depth : Z) (s : Machine) :
  (forall m, In m (legal_moves (position_of s)) -> well_formed_move m) ->
  (legal_moves (position_of s) = [] -> is_game_over (board (self s)) = true) ->
  (fst (get_best_move env depth s) = None <-> is_game_over (board (self s)) = true) /\
  (forall code, fst (get_best_move env depth s) = Some code ->
     exists m, from_uci code = Some m /\ In m (legal_moves (position_of s))).
Proof.
  intros Hwf Hover.
  destruct (is_game_over (board (self s))) eqn:Hgo.
  - rewrite (get_best_move_over env depth s Hgo). cbn [fst].
    split; [split; reflexivity | intros code H; discriminate H].
  - assert (Hne : legal_moves (position_of s) <> []).
    { intros Hnil. apply Hover in Hnil. discriminate Hnil. }
    destruct (get_best_move_some env depth s Hgo Hwf Hne)
      as (code & m & Hres & Hparse & Hin).
    rewrite Hres. split.
    + split; intros H; discriminate H.
    + intros code' H. injection H as <-. exists m. auto.
Qed.

(** C4: [evaluate] answers -30000 on a checkmate with White to move and
    +30000 on a checkmate with Black to move; on a stalemate or a position
    with insufficient material that is not a checkmate it answers 0. *)
Theorem evaluate_terminal `{R : Rules} (s : Machine) :
  (is_checkmate (position_of s) = true -> turn (position_of s) = WHITE ->
   fst (evaluate s) = -30000) /\
  (is_checkmate (position_of s) = true -> turn (position_of s) = BLACK ->
   fst (evaluate s) = 30000) /\
  (is_checkmate (position_of s) = false ->
   is_stalemate (position_of s) = true \/
   is_insufficient_material (position_of s) = true ->
   fst (evaluate s) = 0).
Proof.
  unfold evaluate. rewrite bind_run. cbn [the_position gets fst snd].
  fold (position_of s).
  repeat split.
  - intros Hmate Hturn. now rewrite Hmate, Hturn.
  - intros Hmate Hturn. now rewrite Hmate, Hturn.
  - intros Hmate Hdraw. rewrite Hmate.
    assert (Hor : is_stalemate (position_of s)
                  || is_insufficient_material (position_of s) = true)
      by (apply orb_true_iff; exact Hdraw).
    now rewrite Hor.
Qed.

(** C5 (amended): the endgame detector answers true exactly when no queen
    is on the board, or exactly two queens are and the two sides together
    have at most two minor pieces; it is what selects the king's table. *)
Theorem is_endgame_iff (s : Machine) :
  (fst (is_endgame s) = true <->
   queens_on_board (position_of s) = 0%nat \/
   (queens_on_board (position_of s) = 2%nat /\
    (minor_pieces_of (position_of s) WHITE
     + minor_pieces_of (position_of s) BLACK <= 2)%nat)) /\
  (forall c sq,
     fst (get_piece_square_value (mkPiece KING c) sq s) =
     nth (match c with WHITE => 63 - sq | BLACK => sq end)%nat
       (if fst (is_endgame s) then KING_END_TABLE else KING_MIDDLE_TABLE) 0).
Proof.
  split.
  - unfold is_endgame. rewrite bind_run.
    cbn [the_position gets ret fst snd]. fold (position_of s).
    unfold queens_on_board, minor_pieces_of.
    rewrite orb_true_iff, andb_true_iff, !Nat.eqb_eq, Nat.leb_le. lia.
  - intros c sq. unfold get_piece_square_value.
    rewrite !bind_run. cbn [piece_type color].
    rewrite !bind_run. cbn [ret fst snd].
    destruct c; reflexivity.
Qed.

Lemma not_In_move_in (m : Move) (ms : list Move) : ~ In m ms -> move_in m ms = false.
Proof.
  intros H. destruct (move_in m ms) eqn:E; [ | reflexivity].
  apply move_in_In in E. contradiction.
Qed.

(** C6: [make_move] rejects a move code in two cases: the code does not
    parse, or it parses to a move that is not in the legal moves of the
    position - by the membership test of the code,
    [move in board.legal_moves], for which a move counts as it is spelled
    and, castling being also spelled as the king taking its rook, as
    [_from_chess960] spells it.  Whenever it rejects a code it reports
    failure and leaves the whole engine (position, played history, undone
    stack and the rest) as it was. *)
Theorem make_move_rejected `{R : Rules} (code : string) (s : Machine) :
  (fst (make_move code s) = false <->
   from_uci code = None \/
   exists mv,
     from_uci code = Some mv /\
     ~ In mv (legal_moves (position_of s)) /\
     ~ In (_from_chess960 (position_of s) mv) (legal_moves (position_of s))) /\
  (fst (make_move code s) = false -> make_move code s = (false, s)).
Proof.
  unfold make_move. split; [split | ].
  - destruct (from_uci code) as [mv | ]; [ | now left].
    rewrite bind_run. cbn [the_position gets fst snd]. fold (position_of s).
    destruct (is_legal (position_of s) mv) eqn:Hlegal.
    + rewrite !bind_run. cbn [ret fst]. discriminate.
    + intros _. right. exists mv. unfold is_legal in Hlegal.
      apply orb_false_iff in Hlegal. destruct Hlegal as [H1 H2].
      split; [reflexivity | ]. split; now apply not_move_in.
  - intros [Hparse | (mv & Hparse & H1 & H2)]; rewrite Hparse; [reflexivity | ].
    rewrite bind_run. cbn [the_position gets fst snd]. fold (position_of s).
    unfold is_legal. now rewrite (not_In_move_in _ _ H1), (not_In_move_in _ _ H2).
  - destruct (from_uci code) as [mv | ]; [ | reflexivity].
    rewrite bind_run. cbn [the_position gets fst snd].
    destruct (is_legal _ mv); [ | reflexivity].
    rewrite !bind_run. cbn [ret fst]. discriminate.
Qed.

Lemma list_pop_snoc {A} (l : list A) (x : A) : list_pop (l ++ [x]) = Some (l, x).
Proof.
  induction l as [ | y l IH]; simpl.
  - reflexivity.
  - now rewrite IH.
Qed.

Lemma list_pop_nonempty {A} (l : list A) :
  l <> [] -> exists rest x, l = rest ++ [x] /\ list_pop l = Some (rest, x).
Proof.
  intros Hne. destruct (exists_last Hne) as (rest & x & ->).
  exists rest, x. split; [reflexivity | apply list_pop_snoc].
Qed.

(** C7: a move that [make_move] accepts leaves the undone stack empty,
    whatever it held; [redo_move] takes the most recently undone move off
    the undone stack, puts it back at the end of the played history and
    keeps the position equal to the replay of the played history from the
    start position; and it undoes [undo_move] exactly. *)
Theorem history_redo `{R : Rules} (s : Machine) :
  (forall code, fst (make_move code s) = true ->
     redo_stack (self (snd (make_move code s))) = []) /\
  (forall rest mv,
     redo_stack (self s) = rest ++ [mv] -> consistent (self s) ->
     fst (redo_move s) = Some (uci mv) /\
     move_history (self (snd (redo_move s))) = move_history (self s) ++ [mv] /\
     redo_stack (self (snd (redo_move s))) = rest /\
     consistent (self (snd (redo_move s)))) /\
  (move_history (self s) <> [] -> consistent (self s) ->
   snd (redo_move (snd (undo_move s))) = s).
Proof.
  repeat split.
  - intros code. unfold make_move.
    destruct (from_uci code) as [mv | ]; [ | discriminate].
    rewrite bind_run. cbn [the_position gets fst snd].
    destruct (is_legal _ mv); [ | discriminate].
    intros _. rewrite !bind_run. reflexivity.
  - unfold redo_move. rewrite bind_run. cbn [gets fst snd].
    rewrite H, list_pop_snoc. rewrite !bind_run. reflexivity.
  - unfold redo_move. rewrite bind_run. cbn [gets fst snd].
    rewrite H, list_pop_snoc. rewrite !bind_run. reflexivity.
  - unfold redo_move. rewrite bind_run. cbn [gets fst snd].
    rewrite H, list_pop_snoc. rewrite !bind_run. reflexivity.
  - unfold redo_move. rewrite bind_run. cbn [gets fst snd].
    rewrite H, list_pop_snoc. rewrite !bind_run.
    unfold consistent in *. cbn.
    rewrite fold_left_app. cbn. now rewrite <- H0.
  - intros Hne Hcons.
    destruct s as [[b h r ai mt stt n th] tc rc]. cbn in Hne, Hcons.
    destruct (list_pop_nonempty h Hne) as (rest & mv & -> & Hpop).
    unfold consistent in Hcons. cbn in Hcons.
    rewrite fold_left_app in Hcons. cbn in Hcons. subst b.
    unfold undo_move, redo_move, bind, gets, modify, ret, board_pop, board_push.
    cbn. rewrite Hpop. cbn. rewrite list_pop_snoc. reflexivity.
Qed.

(** C8: whatever the notation string, the depth, the clock and the random
    draws, after [get_best_move_for_fen] the engine's position (the whole
    board, stacks included), played history and undone stack are what they
    were before the call. *)
Theorem get_best_move_for_fen_restores `{R : Rules} (env : Env)
    (fen : string) (depth : Z) (s : Machine) :
  board (self (snd (get_best_move_for_fen env fen depth s))) = board (self s) /\
  move_history (self (snd (get_best_move_for_fen env fen depth s)))
    = move_history (self s) /\
  redo_stack (self (snd (get_best_move_for_fen env fen depth s)))
    = redo_stack (self s).
Proof.
  unfold get_best_move_for_fen, is_valid_fen.
  rewrite bind_run. cbn [ret fst snd].
  destruct (parse_fen fen) as [p | ]; cbn [is_some negb].
  - (* valid notation: the scratch board, then the finally clause *)
    rewrite !bind_run. cbn. auto.
  - (* invalid notation: the early return *)
    auto.
Qed.

(** C9: [evaluate] is a function of the position content alone: two
    machines looking at the same position - whatever their board stacks,
    histories, agent colour, counters, clock or random draws - get the same
    value; the call leaves the machine untouched, so a second call on it
    returns the same value again. *)
Theorem evaluate_deterministic `{R : Rules} (s1 s2 : Machine) :
  position_of s1 = position_of s2 ->
  fst (evaluate s1) = fst (evaluate s2) /\
  snd (evaluate s1) = s1 /\
  evaluate (snd (evaluate s1)) = evaluate s1.
Proof.
  intros Hpos. destruct reads_evaluate as [f Hf].
  rewrite !Hf. cbn [fst snd]. rewrite Hpos. auto.
Qed.

(** C10: quiescence is fail-hard: for bounds [alpha <= beta] (finite or
    infinite) the score it returns lies in the closed interval
    [alpha, beta], on every position and at every extra depth. *)
Theorem quiescence_fail_hard `{R : Rules} (alpha beta : score) (depth : nat)
    (s : Machine) :
  score_le alpha beta ->
  score_le alpha (fst (quiescence alpha beta depth s)) /\
  score_le (fst (quiescence alpha beta depth s)) beta.
Proof.
  unfold quiescence. generalize (5 - depth)%nat. intros plies.
  intros Hab.
  destruct plies as [ | plies']; simpl; rewrite !bind_run;
    set (s1 := snd (count_node s));
    set (e := evaluate s1);
    set (t := board_turn (snd e));
    set (stand_pat := of_int match fst t with BLACK => - fst e | WHITE => fst e end);
    destruct (score_leb beta stand_pat) eqn:Hcut;
    try (split; [exact Hab | apply score_le_refl]).
  - destruct (score_ltb alpha stand_pat) eqn:Hraise; simpl.
    + split; [apply score_lt_le, Hraise | apply score_le_total, Hcut].
    + split; [apply score_le_refl | exact Hab].
  - rewrite bind_run.
    destruct (score_ltb alpha stand_pat) eqn:Hraise.
    + match goal with
      | |- context [quiescence_loop ?rc ?ms stand_pat beta ?s'] =>
          destruct (quiescence_loop_window rc ms stand_pat beta s') as [Hlo Hhi]
      end.
      { apply score_le_total, Hcut. }
      split; [ | exact Hhi].
      eapply score_le_trans; [apply score_lt_le, Hraise | exact Hlo].
    + apply quiescence_loop_window, Hab.
Qed.

(* ================================================================== *)
(** * The engine on the rules of chess                                 *)
(* ================================================================== *)

Section OnPyChess.

#[local] Existing Instance PyChess.rules.

Import Examples.

(** ** The rules model against known facts *)

Example starting_position_notation :
  PyChess.parse_fen PyChess.STARTING_FEN = Some PyChess.starting_position.
Proof. vm_compute. reflexivity. Qed.

Example starting_moves_in_order :
  map uci (PyChess.legal_moves PyChess.starting_position) =
  ["g1h3"; "g1f3"; "b1c3"; "b1a3"; "h2h3"; "g2g3"; "f2f3"; "e2e3";
   "d2d3"; "c2c3"; "b2b3"; "a2a3"; "h2h4"; "g2g4"; "f2f4"; "e2e4";
   "d2d4"; "c2c4"; "b2b4"; "a2a4"]%string.
Proof. vm_compute. reflexivity. Qed.

Example perft_start :
  map (fun d => PyChess.perft d PyChess.starting_position) [1; 2; 3]%nat
  = [20; 400; 8902]%N.
Proof. vm_compute. reflexivity. Qed.

Example perft_castling_and_pins :
  map (fun d => PyChess.perft d
         (PyChess.of_fen
            "r3k2r/p1ppqpb1/bn2pnp1/3PN3/1p2P3/2N2Q1p/PPPBBPPP/R3K2R w KQkq - 0 1"))
      [1; 2]%nat
  = [48; 2039]%N.
Proof. vm_compute. reflexivity. Qed.

Example perft_en_passant :
  map (fun d => PyChess.perft d
         (PyChess.of_fen "8/2p5/3p4/KP5r/1R3p1k/8/4P1P1/8 w - - 0 1"))
      [1; 2; 3]%nat
  = [14; 191; 2812]%N.
Proof. vm_compute. reflexivity. Qed.

Example perft_promotions :
  map (fun d => PyChess.perft d
         (PyChess.of_fen "rnbq1k1r/pp1Pbppp/2p5/8/2B5/8/PPP1NnPP/RNBQK2R w KQ - 1 8"))
      [1; 2]%nat
  = [44; 1486]%N.
Proof. vm_compute. reflexivity. Qed.

(** ** The rules of chess meet the selector's contract *)

Lemma in_squares_desc s : In s PyChess.SQUARES_DESC -> (s < 64)%nat.
Proof.
  unfold PyChess.SQUARES_DESC, SQUARES. rewrite <- in_rev, in_seq. lia.
Qed.

Lemma attacks_irreflexive p s : PyChess.attacks p s s = false.
Proof.
  unfold PyChess.attacks. destruct (piece_at p s) as [[pt c] | ]; [ | reflexivity].
  rewrite !Z.sub_diag. destruct pt, c; reflexivity.
Qed.

Lemma attacks_distinct p s t : PyChess.attacks p s t = true -> s <> t.
Proof. intros H ->. now rewrite attacks_irreflexive in H. Qed.

Lemma pawn_move_well_formed s t m :
  (s < 64)%nat -> (t < 64)%nat -> s <> t ->
  In m (PyChess.pawn_move s t) -> well_formed_move m.
Proof.
  intros Hs Ht Hne. unfold PyChess.pawn_move.
  destruct (_ || _); simpl; intros H;
    repeat (destruct H as [<- | H]; [unfold well_formed_move; simpl; auto | ]);
    contradiction.
Qed.

Lemma pawn_origin_bound p t n s :
  (t < 64)%nat -> (0 < n)%nat ->
  PyChess.pawn_origin p t n = Some s -> (s < 64)%nat /\ s <> t.
Proof.
  intros Ht Hn. unfold PyChess.pawn_origin. destruct (turn p).
  - destruct (8 * n <=? t)%nat eqn:H; [ | discriminate].
    apply Nat.leb_le in H. intros [= <-]. lia.
  - destruct (t + 8 * n <? 64)%nat eqn:H; [ | discriminate].
    apply Nat.ltb_lt in H. intros [= <-]. lia.
Qed.

Lemma own_pawn_attack p s e :
  PyChess.is_own_pawn p s = true -> PyChess.attacks p s e = true ->
  PyChess.rank_of e = PyChess.rank_of s + match turn p with WHITE => 1 | BLACK => -1 end.
Proof.
  unfold PyChess.is_own_pawn, PyChess.has_piece, PyChess.attacks.
  destruct (piece_at p s) as [[pt c] | ]; simpl; [ | discriminate].
  unfold piece_eqb; simpl. rewrite andb_true_iff. intros [Hpt Hc].
  apply piece_type_eqb_eq in Hpt. subst pt.
  assert (c = turn p) as -> by (destruct c, (turn p); simpl in Hc; congruence).
  rewrite andb_true_iff, Z.eqb_eq. intros [_ H]. lia.
Qed.

(** The generator's definitions are unfolded before the list functions
    they are built from when two move lists are compared. *)
#[local] Strategy expand
  [PyChess.piece_moves PyChess.pawn_captures PyChess.pawn_single_moves
   PyChess.pawn_double_moves PyChess.pseudo_legal_ep PyChess.castling_moves
   PyChess.pseudo_legal_moves PyChess.legal_moves].

Lemma pseudo_legal_moves_well_formed p m :
  In m (PyChess.pseudo_legal_moves p) -> well_formed_move m.
Proof.
  unfold PyChess.pseudo_legal_moves. rewrite !in_app_iff.
  intros [H | [H | [H | [H | [H | H]]]]].
  - apply in_flat_map in H. destruct H as (s & Hs & H).
    apply filter_In in Hs. destruct Hs as [Hs _].
    unfold PyChess.piece_moves in H. apply in_map_iff in H.
    destruct H as (t & <- & Ht). apply filter_In in Ht. destruct Ht as [Ht Hatt].
    apply andb_true_iff in Hatt. destruct Hatt as [Hatt _].
    unfold well_formed_move; simpl.
    repeat split; auto using in_squares_desc.
    now apply attacks_distinct in Hatt.
  - unfold PyChess.castling_moves in H. apply in_app_or in H.
    destruct (turn p); destruct H as [H | H];
      match type of H with In _ (if ?c then _ else _) => destruct c end;
      simpl in H; try contradiction; destruct H as [<- | []];
      unfold well_formed_move; simpl; repeat split; auto; lia.
  - unfold PyChess.pawn_captures in H.
    apply in_flat_map in H. destruct H as (s & Hs & H).
    apply filter_In in Hs. destruct Hs as [Hs _].
    apply in_flat_map in H. destruct H as (t & Ht & H).
    apply filter_In in Ht. destruct Ht as [Ht Hatt].
    apply andb_true_iff in Hatt. destruct Hatt as [Hatt _].
    apply (pawn_move_well_formed s t); auto using in_squares_desc.
    now apply attacks_distinct in Hatt.
  - unfold PyChess.pawn_single_moves in H.
    apply in_flat_map in H. destruct H as (t & Ht & H).
    apply filter_In in Ht. destruct Ht as [Ht _].
    destruct (PyChess.pawn_origin p t 1) as [s | ] eqn:Ho; [ | contradiction].
    apply pawn_origin_bound in Ho; [ | auto using in_squares_desc | lia].
    destruct Ho as [Hs Hne].
    apply (pawn_move_well_formed s t); auto using in_squares_desc.
  - unfold PyChess.pawn_double_moves in H.
    apply in_flat_map in H. destruct H as (t & Ht & H).
    apply filter_In in Ht. destruct Ht as [Ht _].
    destruct (PyChess.pawn_origin p t 2) as [s | ] eqn:Ho; [ | contradiction].
    apply pawn_origin_bound in Ho; [ | auto using in_squares_desc | lia].
    destruct Ho as [Hs Hne]. destruct H as [<- | []].
    unfold well_formed_move; simpl. auto using in_squares_desc.
  - unfold PyChess.pseudo_legal_ep in H.
    destruct (ep_square p) as [e | ]; [ | contradiction].
    destruct (_ || _); [contradiction | ].
    apply in_map_iff in H. destruct H as (s & <- & Hs).
    apply filter_In in Hs. destruct Hs as [Hs Hcond].
    rewrite !andb_true_iff, Z.eqb_eq in Hcond. destruct Hcond as [[Hown Hatt] Hrank].
    pose proof (own_pawn_attack p s e Hown Hatt) as He.
    unfold well_formed_move; simpl.
    repeat split; auto using in_squares_desc.
    + unfold PyChess.rank_of, square_rank in *.
      assert (Hle : (e / 8 <= 5)%nat) by (destruct (turn p); lia).
      clear - Hle.
      pose proof (Nat.div_mod_eq e 8) as Hdiv.
      pose proof (Nat.mod_upper_bound e 8) as Hmod.
      set (q := (e / 8)%nat) in *. set (r := (e mod 8)%nat) in *.
      clearbody q r. lia.
    + now apply attacks_distinct in Hatt.
Qed.

Lemma chess_moves_well_formed p m :
  In m (legal_moves p) -> well_formed_move m.
Proof.
  change (In m (PyChess.legal_moves p) -> well_formed_move m).
  unfold PyChess.legal_moves. intros H.
  apply filter_In in H. destruct H as [H _].
  apply (pseudo_legal_moves_well_formed p).
  destruct (PyChess.is_check p); [ | exact H].
  apply in_app_or in H. destruct H as [H | H]; apply filter_In in H; tauto.
Qed.

Lemma chess_no_moves_is_over b :
  legal_moves (position b) = [] -> is_game_over b = true.
Proof.
  change (PyChess.legal_moves (position b) = [] -> PyChess.is_game_over b = true).
  intros H. unfold PyChess.is_game_over, PyChess.no_legal_moves. rewrite H.
  now rewrite !orb_true_r.
Qed.

(** On the rules of chess the selector is sound at every position: it
    answers [None] on a position that is over and the code of a legal move
    on any other. *)
Lemma get_best_move_chess env depth s :
  if is_game_over (board (self s))
  then fst (get_best_move env depth s) = None
  else exists code m,
         fst (get_best_move env depth s) = Some code /\
         from_uci code = Some m /\ In m (legal_moves (position_of s)).
Proof.
  destruct (is_game_over (board (self s))) eqn:Hgo.
  - now rewrite get_best_move_over.
  - apply get_best_move_some; [exact Hgo | | ].
    + intros m. apply chess_moves_well_formed.
    + intros Hnil.
      pose proof (chess_no_moves_is_over (board (self s)) Hnil) as Hover.
      congruence.
Qed.

(** ** The theorems at concrete positions *)

Lemma get_best_move_legal_witness :
  (fst (get_best_move still_env 3 start) = None <->
   is_game_over (board (self start)) = true) /\
  (forall code, fst (get_best_move still_env 3 start) = Some code ->
     exists m, from_uci code = Some m /\
               In m (legal_moves (position_of start))).
Proof.
  apply get_best_move_legal.
  - apply well_formed_moves_check. vm_compute. reflexivity.
  - vm_compute. discriminate.
Defined.

Lemma evaluate_terminal_witness :
  fst (evaluate white_mated) = -30000 /\
  fst (evaluate black_mated) = 30000 /\
  fst (evaluate stalemate) = 0 /\
  fst (evaluate bare_kings) = 0.
Proof.
  refine (conj _ (conj _ (conj _ _))).
  - apply (proj1 (evaluate_terminal white_mated)); vm_compute; reflexivity.
  - apply (proj1 (proj2 (evaluate_terminal black_mated))); vm_compute; reflexivity.
  - apply (proj2 (proj2 (evaluate_terminal stalemate)));
      [ | left]; vm_compute; reflexivity.
  - apply (proj2 (proj2 (evaluate_terminal bare_kings)));
      [ | right]; vm_compute; reflexivity.
Defined.

Lemma make_move_rejected_witness :
  make_move "e2e5" start = (false, start) /\
  make_move "e9e5" start = (false, start) /\
  make_move "e1h1" start = (false, start).
Proof.
  refine (conj _ (conj _ _)).
  - apply (proj2 (make_move_rejected "e2e5" start)).
    apply (proj1 (make_move_rejected "e2e5" start)).
    right. exists (move 12%nat 36%nat). split; [reflexivity | ].
    split; apply not_move_in; vm_compute; reflexivity.
  - apply (proj2 (make_move_rejected "e9e5" start)).
    apply (proj1 (make_move_rejected "e9e5" start)).
    left. reflexivity.
  - apply (proj2 (make_move_rejected "e1h1" start)).
    apply (proj1 (make_move_rejected "e1h1" start)).
    right. exists (move E1 H1). split; [reflexivity | ].
    split; apply not_move_in; vm_compute; reflexivity.
Defined.

Lemma history_redo_witness :
  redo_stack (self (snd (make_move "e7e6" after_e4))) = [] /\
  (fst (redo_move after_e4) = Some "e7e5"%string /\
   move_history (self (snd (redo_move after_e4)))
     = [move 12%nat 28%nat; move 52%nat 36%nat] /\
   redo_stack (self (snd (redo_move after_e4))) = [] /\
   consistent (self (snd (redo_move after_e4)))) /\
  snd (redo_move (snd (undo_move after_e4))) = after_e4.
Proof.
  assert (Hcons : consistent (self after_e4)) by reflexivity.
  repeat apply conj.
  - apply (proj1 (history_redo after_e4)). vm_compute. reflexivity.
  - apply (proj1 (proj2 (history_redo after_e4)) [] (move 52%nat 36%nat));
      [reflexivity | exact Hcons].
  - apply (proj1 (proj2 (history_redo after_e4)) [] (move 52%nat 36%nat));
      [reflexivity | exact Hcons].
  - apply (proj1 (proj2 (history_redo after_e4)) [] (move 52%nat 36%nat));
      [reflexivity | exact Hcons].
  - apply (proj1 (proj2 (history_redo after_e4)) [] (move 52%nat 36%nat));
      [reflexivity | exact Hcons].
  - apply (proj2 (proj2 (history_redo after_e4))); [discriminate | exact Hcons].
Defined.

Lemma evaluate_deterministic_witness :
  position_of start = position_of start_with_a_past /\
  fst (evaluate start) = fst (evaluate start_with_a_past) /\
  snd (evaluate start) = start /\
  evaluate (snd (evaluate start)) = evaluate start.
Proof.
  split; [reflexivity | ].
  apply (evaluate_deterministic start start_with_a_past). reflexivity.
Defined.

Lemma quiescence_fail_hard_witness :
  score_le (of_int (-50)) (of_int 50) /\
  score_le (of_int (-50)) (fst (quiescence (of_int (-50)) (of_int 50) 0 pawn_race)) /\
  score_le (fst (quiescence (of_int (-50)) (of_int 50) 0 pawn_race)) (of_int 50).
Proof.
  split; [reflexivity | ].
  apply (quiescence_fail_hard (of_int (-50)) (of_int 50) 0 pawn_race). reflexivity.
Defined.

(** ** Where the code leaves the specification *)

(** C5 (counterexample): with one queen on the board and no minor piece,
    queens are present and each side has at most two minor pieces, yet the
    detector answers false. *)
Lemma is_endgame_spec_counterexample :
  ~ (fst (is_endgame lone_queen) = true <->
     spec_is_endgame (position_of lone_queen) = true).
Proof.
  intros [_ H].
  assert (Hspec : spec_is_endgame (position_of lone_queen) = true)
    by (vm_compute; reflexivity).
  specialize (H Hspec). vm_compute in H. discriminate H.
Qed.

(** C2 (the code at the failing inputs): on 7k/5K2/P7/8/8/8/8/8 with Black
    to move and depth 2, and on 7k/8/P4K2/8/8/8/8/8 with White to move and
    depth 3, with a clock that never runs out, the pruned search returns
    190 and 185 where the unpruned minimax over the same tree gives 205 and
    950. *)
Theorem minimax_disagrees_with_full_minimax :
  fst (fst (minimax still_env 2 NegInf PosInf false pawn_race)) = of_int 190 /\
  fst (full_minimax 2 false pawn_race) = of_int 205 /\
  fst (fst (minimax still_env 3 NegInf PosInf true pawn_race_white)) = of_int 185 /\
  fst (full_minimax 3 true pawn_race_white) = of_int 950 /\
  fst (fst (minimax still_env 2 NegInf PosInf false pawn_race))
    <> fst (full_minimax 2 false pawn_race).
Proof.
  refine (conj _ (conj _ (conj _ (conj _ _)))); vm_compute;
    try reflexivity; discriminate.
Qed.

(** C3 (the code at the failing input): with a white queen on h4 (kings on
    g1 and g8, White to move) [evaluate] gives 1015, and on the mirrored,
    colour-swapped position -1010 instead of -1015: the white queen on h4
    takes the table entry 0, the black queen on h5 the entry -5. *)
Theorem evaluate_not_symmetric :
  fst (evaluate (machine_on queen_h4 None)) = 1015 /\
  fst (evaluate (machine_on (mirror queen_h4) None)) = -1010 /\
  fst (get_piece_square_value (mkPiece QUEEN WHITE) 31%nat
         (machine_on queen_h4 None)) = 0 /\
  fst (get_piece_square_value (mkPiece QUEEN BLACK) (square_mirror 31%nat)
         (machine_on (mirror queen_h4) None)) = -5.
Proof. refine (conj _ (conj _ (conj _ _))); vm_compute; reflexivity. Qed.

End OnPyChess.


(* ================================================================== *)
(** * Further properties of the engine and of the application          *)
(* ================================================================== *)

(** ** The order of scores, decided *)

Lemma score_leb_neg (a b : score) :
  score_leb (score_neg a) (score_neg b) = score_leb b a.
Proof.
  destruct a as [ | [xn xd] | ], b as [ | [yn yd] | ]; try reflexivity.
  cbn. unfold Qle_bool; cbn.
  rewrite !Z.mul_opp_l.
  destruct (Z.leb_spec (- (xn * Z.pos yd)) (- (yn * Z.pos xd)));
    destruct (Z.leb_spec (yn * Z.pos xd) (xn * Z.pos yd)); lia || reflexivity.
Qed.

Lemma score_ltb_neg (a b : score) :
  score_ltb (score_neg a) (score_neg b) = score_ltb b a.
Proof. unfold score_ltb. now rewrite score_leb_neg. Qed.

Lemma score_leb_trans (a b c : score) :
  score_leb a b = true -> score_leb b c = true -> score_leb a c = true.
Proof. exact (score_le_trans a b c). Qed.

Lemma score_leb_total (a b : score) :
  score_leb a b = false -> score_leb b a = true.
Proof. exact (score_le_total a b). Qed.

(** Every comparison of the goal is split, innermost first. *)
Ltac score_cases :=
  unfold score_clamp, score_lt, score_le, score_ltb in *;
  repeat match goal with
  | H : negb _ = true |- _ => apply negb_true_iff in H
  | H : negb _ = false |- _ => apply negb_false_iff in H
  end;
  repeat match goal with
  | |- context [score_leb ?a ?b] =>
      lazymatch a with context [score_leb _ _] => fail | _ => idtac end;
      lazymatch b with context [score_leb _ _] => fail | _ => idtac end;
      lazymatch goal with
      | H : score_leb a b = _ |- _ => rewrite H
      | _ => destruct (score_leb a b) eqn:?
      end; cbn [negb]
  end;
  try reflexivity; try discriminate.

(** An impossible combination of comparisons is closed by totality and
    transitivity. *)
Ltac score_absurd :=
  exfalso;
  repeat match goal with
  | H : score_leb ?a ?b = false |- _ =>
      lazymatch goal with
      | _ : score_leb b a = true |- _ => fail
      | _ => pose proof (score_leb_total a b H)
      end
  end;
  repeat match goal with
  | H1 : score_leb ?a ?b = true, H2 : score_leb ?b ?c = true |- _ =>
      lazymatch goal with
      | H : score_leb a c = true |- _ => fail
      | _ => pose proof (score_leb_trans a b c H1 H2)
      end
  end;
  match goal with
  | H1 : ?x = true, H2 : ?x = false |- _ => rewrite H1 in H2; discriminate H2
  end.

Ltac score_order := score_cases; intros; try discriminate; try score_absurd.

(** Negating a score brought into the negated window. *)
Lemma score_clamp_neg (q a beta : score) :
  score_lt a beta ->
  score_neg (score_clamp q (score_neg beta) (score_neg a))
    = score_clamp (score_neg q) a beta.
Proof.
  intros Hab. unfold score_clamp, score_lt, score_ltb in *.
  apply negb_true_iff in Hab.
  assert (E1 : score_leb (score_neg a) q = score_leb (score_neg q) a).
  { rewrite <- (score_neg_involutive q) at 1. apply score_leb_neg. }
  assert (E2 : score_leb q (score_neg beta) = score_leb beta (score_neg q)).
  { rewrite <- (score_neg_involutive q) at 1. apply score_leb_neg. }
  rewrite E1, E2.
  destruct (score_leb (score_neg q) a) eqn:Ha;
    destruct (score_leb beta (score_neg q)) eqn:Hb; cbn;
    rewrite ?score_neg_involutive; try reflexivity.
  pose proof (score_leb_trans _ _ _ Hb Ha). congruence.
Qed.

Lemma finite_of_int z : is_finite (of_int z).
Proof. now exists (inject_Z z). Qed.

Lemma finite_neg v : is_finite v -> is_finite (score_neg v).
Proof. intros [q ->]. now exists (- q)%Q. Qed.

Lemma finite_raise (alpha v : score) :
  alpha <> PosInf -> is_finite v ->
  is_finite (if score_ltb alpha v then v else alpha).
Proof.
  intros Ha [q ->]. destruct alpha as [ | a | ]; cbn.
  - now exists q.
  - unfold score_ltb. destruct (negb _); [now exists q | now exists a].
  - contradiction.
Qed.

Lemma finite_cut (beta v : score) :
  beta <> NegInf -> is_finite v -> score_leb beta v = true -> is_finite beta.
Proof.
  intros Hb [q ->]. destruct beta as [ | b | ]; cbn; try discriminate.
  - contradiction.
  - intros _. now exists b.
Qed.

Lemma score_max_lower a v : a <> PosInf -> is_finite v -> score_max a v <> PosInf.
Proof.
  intros Ha [q ->]. unfold score_max. destruct (score_ltb a (Fin q)); congruence.
Qed.

Lemma score_min_upper b v : b <> NegInf -> is_finite v -> score_min b v <> NegInf.
Proof.
  intros Hb [q ->]. unfold score_min. destruct (score_ltb (Fin q) b); congruence.
Qed.

(** ** Sorting by key *)

Lemma insert_desc_head {A} (x : Z * A) (l : list (Z * A)) (d : Z * A) :
  (forall y, In y l -> fst y <= fst (hd d l)) ->
  forall y, In y (insert_desc x l) -> fst y <= fst (hd d (insert_desc x l)).
Proof.
  intros Hl y Hin.
  assert (Hmem : y = x \/ In y l).
  { apply (Permutation_in _ (insert_desc_perm x l)) in Hin.
    destruct Hin as [<- | Hin]; auto. }
  destruct l as [ | z l']; cbn [insert_desc hd] in *.
  - destruct Hmem as [-> | []]. lia.
  - destruct (Z.ltb_spec (fst x) (fst z)); cbn [hd].
    + destruct Hmem as [-> | Hmem]; [lia | ]. apply (Hl y Hmem).
    + destruct Hmem as [-> | Hmem]; [lia | ]. specialize (Hl y Hmem). lia.
Qed.

(** The first element of the sorted list has the greatest key. *)
Lemma sort_desc_head {A} (l : list (Z * A)) (d : Z * A) :
  forall y, In y l -> fst y <= fst (hd d (sort_desc l)).
Proof.
  assert (H : forall y, In y (sort_desc l) -> fst y <= fst (hd d (sort_desc l))).
  { induction l as [ | x l IH]; [intros y [] | ].
    cbn [sort_desc fold_right]. apply insert_desc_head. exact IH. }
  intros y Hin. apply H.
  apply (Permutation_in _ (Permutation_sym (sort_desc_perm l))), Hin.
Qed.

Lemma insert_desc_sorted {A} (x : Z * A) (l : list (Z * A)) :
  StronglySorted (fun a b => fst b <= fst a) l ->
  StronglySorted (fun a b => fst b <= fst a) (insert_desc x l).
Proof.
  induction 1 as [ | y l Hs IH Hall]; cbn [insert_desc].
  - repeat constructor.
  - destruct (Z.ltb_spec (fst x) (fst y)).
    + constructor; [exact IH | ].
      apply Forall_forall. intros z Hz.
      apply (Permutation_in _ (insert_desc_perm x l)) in Hz.
      destruct Hz as [<- | Hz]; [lia | ].
      rewrite Forall_forall in Hall. now apply Hall.
    + constructor; [now constructor | ].
      constructor; [exact H | ].
      rewrite Forall_forall in Hall |- *. intros z Hz. specialize (Hall z Hz). lia.
Qed.

Lemma sort_desc_sorted {A} (l : list (Z * A)) :
  StronglySorted (fun a b => fst b <= fst a) (sort_desc l).
Proof.
  induction l as [ | x l IH]; cbn [sort_desc fold_right].
  - constructor.
  - apply insert_desc_sorted, IH.
Qed.

Lemma sorted_map_snd {A} (key : A -> Z) (l : list (Z * A)) :
  (forall x, In x l -> fst x = key (snd x)) ->
  StronglySorted (fun a b => fst b <= fst a) l ->
  StronglySorted (fun a b => key b <= key a) (map snd l).
Proof.
  intros Hkey Hs. induction Hs as [ | x l Hs IH Hall]; cbn [map].
  - constructor.
  - constructor.
    + apply IH. intros y Hy. apply Hkey. now right.
    + rewrite Forall_forall in Hall |- *. intros b Hb.
      apply in_map_iff in Hb. destruct Hb as (y & <- & Hy).
      rewrite <- (Hkey x (or_introl eq_refl)), <- (Hkey y (or_intror Hy)).
      now apply Hall.
Qed.

(** ** Codes read back *)

Lemma index_of_nth (x d : ascii) (l : list ascii) (i : nat) :
  index_of Ascii.eqb x l = Some i -> nth i l d = x /\ (i < List.length l)%nat.
Proof.
  revert i. induction l as [ | y l IH]; intros i; simpl; [discriminate | ].
  destruct (Ascii.eqb x y) eqn:E.
  - intros [= <-]. apply Ascii.eqb_eq in E. split; [now subst | lia].
  - destruct (index_of Ascii.eqb x l) as [j | ]; simpl; [ | discriminate].
    intros [= <-]. destruct (IH j eq_refl) as [Hn Hl]. split; [exact Hn | lia].
Qed.

Lemma square_name_parse (f r : ascii) (a : Square) :
  parse_square f r = Some a -> square_name a = String f (String r EmptyString).
Proof.
  unfold parse_square.
  destruct (index_of Ascii.eqb f FILE_NAMES) as [i | ] eqn:Ei; [ | discriminate].
  destruct (index_of Ascii.eqb r RANK_NAMES) as [j | ] eqn:Ej; [ | discriminate].
  intros [= <-].
  destruct (index_of_nth f "?"%char _ _ Ei) as [Hf Hi].
  destruct (index_of_nth r "?"%char _ _ Ej) as [Hr Hj].
  cbn [List.length FILE_NAMES RANK_NAMES] in Hi, Hj.
  unfold square_name.
  replace ((j * 8 + i) mod 8)%nat with i.
  2:{ rewrite Nat.add_comm, Nat.Div0.mod_add. symmetry. now apply Nat.mod_small. }
  replace ((j * 8 + i) / 8)%nat with j.
  2:{ rewrite Nat.div_add_l by lia. rewrite (Nat.div_small i 8) by lia. lia. }
  now rewrite Hf, Hr.
Qed.

Lemma piece_symbol_parse (c : ascii) (pt : PieceType) :
  parse_piece_symbol c = Some pt -> piece_symbol pt = c.
Proof.
  destruct c as [[] [] [] [] [] [] [] []]; cbn; intros [= <-]; reflexivity.
Qed.

(** [from_uci] with its test on the second character written out. *)
Lemma from_uci_cases (code : string) :
  from_uci code =
  if String.eqb code "0000" then Some (move 0%nat 0%nat)
  else
    match list_ascii_of_string code with
    | [f1; r1; f2; r2] =>
        if Ascii.eqb r1 "@" then
          match parse_piece_symbol (lower f1), parse_square f2 r2 with
          | Some d, Some s => Some (mkMove s s None (Some d))
          | _, _ => None
          end
        else
          match parse_square f1 r1, parse_square f2 r2 with
          | Some a, Some b => if Nat.eqb a b then None else Some (move a b)
          | _, _ => None
          end
    | [f1; r1; f2; r2; p] =>
        match parse_square f1 r1, parse_square f2 r2, parse_piece_symbol p with
        | Some a, Some b, Some pt =>
            if Nat.eqb a b then None else Some (mkMove a b (Some pt) None)
        | _, _, _ => None
        end
    | _ => None
    end.
Proof.
  unfold from_uci. destruct (String.eqb code "0000"); [reflexivity | ].
  destruct (list_ascii_of_string code) as [ | c1 [ | c2 [ | c3 [ | c4 [ | c5 [ | c6 l]]]]]];
    try reflexivity.
  all: destruct c2 as [[] [] [] [] [] [] [] []]; reflexivity.
Qed.

(** A code that [from_uci] reads as a move that is not a drop is the code
    of that move. *)
Lemma uci_from_uci (code : string) (m : Move) :
  from_uci code = Some m -> drop m = None -> uci m = code.
Proof.
  rewrite from_uci_cases.
  destruct (String.eqb code "0000") eqn:E0.
  - apply String.eqb_eq in E0. intros [= <-] _. now subst.
  - pose proof (string_of_list_ascii_of_string code) as Hcode.
    destruct (list_ascii_of_string code) as [ | c1 [ | c2 [ | c3 [ | c4 [ | c5 [ | c6 l]]]]]];
      try discriminate.
    + destruct (Ascii.eqb c2 "@").
      * destruct (parse_piece_symbol (lower c1)); [ | discriminate].
        destruct (parse_square c3 c4); [ | discriminate].
        intros [= <-]. discriminate.
      * destruct (parse_square c1 c2) as [a | ] eqn:Ea; [ | discriminate].
        destruct (parse_square c3 c4) as [b | ] eqn:Eb; [ | discriminate].
        destruct (Nat.eqb a b) eqn:Eab; [discriminate | ].
        intros [= <-] _. apply Nat.eqb_neq in Eab.
        unfold uci, move. cbn [drop promotion from_square to_square].
        replace (move_bool _) with true.
        2:{ unfold move_bool; cbn. destruct a, b; try reflexivity. contradiction. }
        rewrite (square_name_parse _ _ _ Ea), (square_name_parse _ _ _ Eb).
        now rewrite <- Hcode.
    + destruct (parse_square c1 c2) as [a | ] eqn:Ea; [ | discriminate].
      destruct (parse_square c3 c4) as [b | ] eqn:Eb; [ | discriminate].
      destruct (parse_piece_symbol c5) as [pt | ] eqn:Ep; [ | discriminate].
      destruct (Nat.eqb a b) eqn:Eab; [discriminate | ].
      intros [= <-] _.
      unfold uci. cbn [drop promotion from_square to_square].
      rewrite (square_name_parse _ _ _ Ea), (square_name_parse _ _ _ Eb).
      rewrite (piece_symbol_parse _ _ Ep).
      now rewrite <- Hcode.
Qed.

Lemma uci_nonempty (m : Move) : str_bool (uci m) = true.
Proof.
  unfold uci. destruct (drop m); [reflexivity | ].
  destruct (promotion m); [reflexivity | ].
  destruct (move_bool m); reflexivity.
Qed.

Lemma from_uci_nonempty (code : string) (m : Move) :
  from_uci code = Some m -> str_bool code = true.
Proof. destruct code; [discriminate | reflexivity]. Qed.

Section Further.

Context `{R : Rules}.

(** ** Played and undone moves *)

Lemma board_eta (b : Board) : mkBoard (position b) (move_stack b) (stack b) = b.
Proof. destruct b; reflexivity. Qed.

Lemma undo_move_line (s : Machine) :
  line_of (self (snd (undo_move s))) = line_of (self s).
Proof.
  destruct s as [[b h r ai mt stt n th] tc rc]. unfold line_of.
  unfold undo_move. rewrite bind_run. cbn [gets fst snd self move_history].
  pose proof (list_pop_spec h) as Hpop.
  destruct (list_pop h) as [[rest mv] | ]; [ | reflexivity].
  rewrite !bind_run. cbn. subst h.
  now rewrite rev_app_distr, <- app_assoc.
Qed.

Lemma redo_move_line (s : Machine) :
  line_of (self (snd (redo_move s))) = line_of (self s).
Proof.
  destruct s as [[b h r ai mt stt n th] tc rc]. unfold line_of.
  unfold redo_move. rewrite bind_run. cbn [gets fst snd self redo_stack].
  pose proof (list_pop_spec r) as Hpop.
  destruct (list_pop r) as [[rest mv] | ]; [ | reflexivity].
  rewrite !bind_run. cbn. subst r.
  now rewrite rev_app_distr, <- app_assoc.
Qed.

(** What [undo_move] does, by the two cases of the played history. *)
Lemma undo_move_run (s : Machine) :
  (move_history (self s) = [] /\ undo_move s = (None, s)) \/
  (exists rest mv,
     move_history (self s) = rest ++ [mv] /\
     fst (undo_move s) = Some (uci mv) /\
     move_history (self (snd (undo_move s))) = rest /\
     board (self (snd (undo_move s))) = pop (board (self s)) /\
     ai_color (self (snd (undo_move s))) = ai_color (self s)).
Proof.
  unfold undo_move. rewrite bind_run. cbn [gets fst snd].
  pose proof (list_pop_spec (move_history (self s))) as Hpop.
  destruct (list_pop (move_history (self s))) as [[rest mv] | ].
  - right. exists rest, mv. rewrite !bind_run. cbn. auto.
  - left. auto.
Qed.

(** X1: [redo_move] followed by [undo_move] gives back the machine it
    started from, whenever there is a move to redo; on an empty undone
    stack [redo_move], and on an empty played history [undo_move], answer
    [None] and change nothing. *)
Theorem undo_after_redo (s : Machine) :
  (redo_stack (self s) <> [] -> snd (undo_move (snd (redo_move s))) = s) /\
  (redo_stack (self s) = [] -> redo_move s = (None, s)) /\
  (move_history (self s) = [] -> undo_move s = (None, s)).
Proof.
  destruct s as [[b h r ai mt stt n th] tc rc]. cbn [self redo_stack move_history].
  split; [ | split].
  - intros Hne.
    destruct (list_pop_nonempty r Hne) as (rest & mv & -> & Hpop).
    unfold undo_move, redo_move, bind, gets, modify, ret, board_pop, board_push.
    cbn. rewrite Hpop. cbn. rewrite list_pop_snoc. cbn.
    now rewrite board_eta.
  - intros ->. reflexivity.
  - intros ->. reflexivity.
Qed.

(** X2: [undo_move] and [redo_move] only move the cursor along the line of
    the game: the played moves followed by the undone ones (next to redo
    first) are the same list before and after; an accepted [make_move]
    cuts the line after the played moves and appends the new move. *)
Theorem line_is_kept (s : Machine) :
  line_of (self (snd (undo_move s))) = line_of (self s) /\
  line_of (self (snd (redo_move s))) = line_of (self s) /\
  (forall code mv,
     from_uci code = Some mv -> fst (make_move code s) = true ->
     line_of (self (snd (make_move code s))) = move_history (self s) ++ [mv]).
Proof.
  refine (conj (undo_move_line s) (conj (redo_move_line s) _)).
  intros code mv Hparse. unfold make_move, line_of. rewrite Hparse.
  rewrite bind_run. cbn [the_position gets fst snd].
  destruct (is_legal _ mv); [ | discriminate].
  intros _. rewrite !bind_run. cbn. now rewrite app_nil_r.
Qed.

(** X3: an accepted [make_move] followed by [undo_move] gives back the
    board and the played history as they were, answers the code of the
    move just played, and leaves exactly that move to redo. *)
Theorem undo_after_make_move (code : string) (s : Machine) :
  fst (make_move code s) = true ->
  exists mv,
    from_uci code = Some mv /\
    fst (undo_move (snd (make_move code s))) = Some (uci mv) /\
    board (self (snd (undo_move (snd (make_move code s))))) = board (self s) /\
    move_history (self (snd (undo_move (snd (make_move code s)))))
      = move_history (self s) /\
    redo_stack (self (snd (undo_move (snd (make_move code s))))) = [mv].
Proof.
  destruct s as [[b h r ai mt stt n th] tc rc].
  unfold make_move. destruct (from_uci code) as [mv | ]; [ | discriminate].
  rewrite bind_run. cbn [the_position gets fst snd].
  destruct (is_legal _ mv); [ | discriminate].
  intros _. exists mv. split; [reflexivity | ].
  unfold undo_move, bind, gets, modify, ret, board_pop, board_push.
  cbn. rewrite list_pop_snoc. cbn.
  repeat split. apply board_eta.
Qed.

(** The king-takes-rook spelling of a listed castling move is accepted. *)
Lemma king_takes_rook_legal (p : Position) (alias castle : Move) :
  _from_chess960 p alias = castle ->
  In castle (legal_moves p) -> is_legal p alias = true.
Proof.
  intros Hspell Hin. unfold is_legal. rewrite Hspell, (In_move_in castle _ Hin).
  apply orb_true_r.
Qed.

(** X4: the codes [make_move] accepts are the codes [get_legal_moves]
    lists and, besides, the king-takes-rook spelling ([e1h1], [e1a1],
    [e8h8], [e8a8], with a king on the home square) of a castling code that
    it lists; on a position whose legal moves are moves between two
    distinct squares of the board. *)
Theorem make_move_accepts_listed (code : string) (s : Machine) :
  (forall m, In m (legal_moves (position_of s)) -> well_formed_move m) ->
  (fst (make_move code s) = true <->
   In code (fst (get_legal_moves s)) \/
   exists castle,
     king_takes_rook (position_of s) code = Some castle /\
     In castle (fst (get_legal_moves s))).
Proof.
  intros Hwf.
  unfold get_legal_moves. rewrite bind_run. cbn [board_legal_moves gets ret fst snd].
  change (position (board (self s))) with (position_of s).
  set (p := position_of s) in *.
  assert (Hlisted : forall m, In m (legal_moves p) -> In (uci m) (map uci (legal_moves p)))
    by (intros m; apply in_map).
  assert (Hcode : forall c m, from_uci c = Some m ->
            In c (map uci (legal_moves p)) -> In m (legal_moves p)).
  { intros c m Hc Hin. apply in_map_iff in Hin. destruct Hin as (m' & <- & Hin').
    rewrite (from_uci_uci m' (Hwf m' Hin')) in Hc. injection Hc as <-. exact Hin'. }
  unfold make_move. split.
  - destruct (from_uci code) as [mv | ] eqn:Hparse; [ | discriminate].
    rewrite bind_run. cbn [the_position gets fst snd].
    change (position (board (self s))) with p.
    destruct (is_legal p mv) eqn:Hin; [ | discriminate].
    intros _. unfold is_legal in Hin. apply orb_true_iff in Hin.
    assert (Hplain : In mv (legal_moves p) -> In code (map uci (legal_moves p))).
    { intros H. rewrite <- (uci_from_uci code mv Hparse (proj2 (proj2 (proj2 (Hwf mv H))))).
      now apply Hlisted. }
    destruct Hin as [Hin | Hin]; apply move_in_In in Hin; [left; now apply Hplain | ].
    destruct (from_chess960_cases p mv)
      as [Hsame | [(-> & Hk & Hc) | [(-> & Hk & Hc) | [(-> & Hk & Hc) | (-> & Hk & Hc)]]]].
    + rewrite Hsame in Hin. left. now apply Hplain.
    + right. rewrite Hc in Hin.
      rewrite <- (uci_from_uci code _ Hparse eq_refl).
      exists "e1g1"%string. split; [ | exact (Hlisted _ Hin)].
      change (uci (move E1 H1)) with "e1h1"%string.
      unfold king_takes_rook. rewrite Hk. reflexivity.
    + right. rewrite Hc in Hin.
      rewrite <- (uci_from_uci code _ Hparse eq_refl).
      exists "e1c1"%string. split; [ | exact (Hlisted _ Hin)].
      change (uci (move E1 A1)) with "e1a1"%string.
      unfold king_takes_rook. rewrite Hk. reflexivity.
    + right. rewrite Hc in Hin.
      rewrite <- (uci_from_uci code _ Hparse eq_refl).
      exists "e8g8"%string. split; [ | exact (Hlisted _ Hin)].
      change (uci (move E8 H8)) with "e8h8"%string.
      unfold king_takes_rook. rewrite Hk. reflexivity.
    + right. rewrite Hc in Hin.
      rewrite <- (uci_from_uci code _ Hparse eq_refl).
      exists "e8c8"%string. split; [ | exact (Hlisted _ Hin)].
      change (uci (move E8 A8)) with "e8a8"%string.
      unfold king_takes_rook. rewrite Hk. reflexivity.
  - assert (Haccept : forall mv, from_uci code = Some mv -> is_legal p mv = true ->
              fst ((match from_uci code with
                    | Some mv =>
                        p <- the_position ;;
                        if is_legal p mv then
                          board_push mv ;;
                          modify (fun e => set_move_history (move_history e ++ [mv]) e) ;;
                          modify (set_redo_stack []) ;;
                          ret true
                        else ret false
                    | None => ret false
                    end) s) = true).
    { intros mv Hparse Hlegal. rewrite Hparse, bind_run.
      cbn [the_position gets fst snd].
      change (position (board (self s))) with p. now rewrite Hlegal. }
    intros [Hin | (castle & Hspell & Hin)].
    + apply in_map_iff in Hin. destruct Hin as (mv & <- & Hin).
      apply (Haccept mv (from_uci_uci mv (Hwf mv Hin))). now apply is_legal_listed.
    + unfold king_takes_rook in Hspell.
      destruct (String.eqb code "e1h1" && king_on p E1) eqn:E1h1.
      { apply andb_true_iff in E1h1. destruct E1h1 as [Hc Hk].
        apply String.eqb_eq in Hc. subst code. injection Hspell as <-.
        apply (Haccept (move E1 H1) eq_refl).
        apply (king_takes_rook_legal p _ (move E1 G1)).
        - unfold _from_chess960. cbn. now rewrite Hk.
        - now apply (Hcode "e1g1"%string). }
      destruct (String.eqb code "e1a1" && king_on p E1) eqn:E1a1.
      { apply andb_true_iff in E1a1. destruct E1a1 as [Hc Hk].
        apply String.eqb_eq in Hc. subst code. injection Hspell as <-.
        apply (Haccept (move E1 A1) eq_refl).
        apply (king_takes_rook_legal p _ (move E1 C1)).
        - unfold _from_chess960. cbn. now rewrite Hk.
        - now apply (Hcode "e1c1"%string). }
      destruct (String.eqb code "e8h8" && king_on p E8) eqn:E8h8.
      { apply andb_true_iff in E8h8. destruct E8h8 as [Hc Hk].
        apply String.eqb_eq in Hc. subst code. injection Hspell as <-.
        apply (Haccept (move E8 H8) eq_refl).
        apply (king_takes_rook_legal p _ (move E8 G8)).
        - unfold _from_chess960. cbn. now rewrite Hk.
        - now apply (Hcode "e8g8"%string). }
      destruct (String.eqb code "e8a8" && king_on p E8) eqn:E8a8; [ | discriminate].
      apply andb_true_iff in E8a8. destruct E8a8 as [Hc Hk].
      apply String.eqb_eq in Hc. subst code. injection Hspell as <-.
      apply (Haccept (move E8 A8) eq_refl).
      apply (king_takes_rook_legal p _ (move E8 C8)).
      * unfold _from_chess960. cbn. now rewrite Hk.
      * now apply (Hcode "e8c8"%string).
Qed.

(** ** Terms of the evaluation *)

Lemma shield_loop_bounds p c kf kr dir offsets acc :
  acc <= shield_loop p c kf kr dir offsets acc
      <= acc + 10 * Z.of_nat (List.length offsets).
Proof.
  revert acc. induction offsets as [ | o rest IH]; intros acc.
  - cbn. lia.
  - cbn [shield_loop List.length].
    match goal with
    | |- _ <= shield_loop _ _ _ _ _ _ ?b <= _ =>
        assert (Hb : acc <= b <= acc + 10); [ | specialize (IH b); lia]
    end.
    destruct (_ && _); [ | lia].
    destruct (piece_at _ _) as [piece | ]; [ | lia].
    destruct (_ && _); lia.
Qed.

(** X5: the king-safety term of the evaluation lies between -30 and 30,
    whatever the position, also when a king is missing or stands on the
    edge of the board. *)
Theorem evaluate_king_safety_bounds (s : Machine) :
  -30 <= fst (evaluate_king_safety s) <= 30.
Proof.
  unfold evaluate_king_safety. rewrite bind_run. cbn [the_position gets ret fst snd].
  generalize (position (board (self s))). intros p.
  cbn [king_safety_loop].
  destruct (king p WHITE) as [kw | ]; destruct (king p BLACK) as [kb | ].
  all: repeat match goal with
       | |- context [shield_loop ?p ?c ?kf ?kr ?d ?o ?a] =>
           let H := fresh "H" in
           pose proof (shield_loop_bounds p c kf kr d o a) as H;
           cbn [List.length] in H;
           generalize dependent (shield_loop p c kf kr d o a); intros
       end; lia.
Qed.

Lemma set_board_same (e : ChessEngine) (m : Move) :
  set_board (pop (board (set_board (push (board e) m) e)))
    (set_board (push (board e) m) e) = e.
Proof.
  destruct e as [b h r ai mt stt n th].
  unfold set_board.
  cbn [board move_history redo_stack ai_color max_time start_time
       nodes_searched safety_threshold].
  now rewrite pop_push.
Qed.

Lemma score_moves_run (moves : list Move) :
  forall acc s,
    score_moves moves acc s =
    (acc ++ map (fun mv => (ordering_score (position_of s) mv, mv)) moves, s).
Proof.
  induction moves as [ | mv rest IH]; intros acc s.
  - cbn. now rewrite app_nil_r.
  - cbn [score_moves map]. rewrite !bind_run.
    cbn [the_position gets fst snd board_push board_pop modify self].
    destruct s as [e tc rc]. cbn [self time_calls rng_calls].
    rewrite set_board_same, IH.
    cbn [position_of self]. rewrite <- app_assoc. reflexivity.
Qed.

(** X6: [order_moves] sorts.  It returns the moves it was given, each as
    often as it was given, in the order of their ordering scores, greatest
    first, and leaves the machine as it found it. *)
Theorem order_moves_sorts (moves : list Move) (s : Machine) :
  Permutation (fst (order_moves moves s)) moves /\
  StronglySorted
    (fun a b => ordering_score (position_of s) b <= ordering_score (position_of s) a)
    (fst (order_moves moves s)) /\
  snd (order_moves moves s) = s.
Proof.
  refine (conj (order_moves_perm moves s) _).
  unfold order_moves. rewrite bind_run, score_moves_run. cbn [ret fst snd app].
  split; [ | reflexivity].
  apply sorted_map_snd; [ | apply sort_desc_sorted].
  intros x Hx.
  apply (Permutation_in _ (sort_desc_perm _)) in Hx.
  apply in_map_iff in Hx. destruct Hx as (mv & <- & _). reflexivity.
Qed.

(** ** Trying a move *)

Lemma evaluate_static (s : Machine) :
  evaluate s = (static_eval (position_of s), s).
Proof.
  destruct reads_evaluate as [f Hf] eqn:E.
  unfold static_eval. rewrite !Hf. reflexivity.
Qed.

(** A trial, [push], [evaluate], [pop], leaves the machine as it was and
    reads the evaluation of the position after the move. *)
Lemma trial_run {B} (mv : Move) (k : Z -> M B) (s : Machine) :
  (board_push mv ;; e <- evaluate ;; board_pop ;; k e) s
    = k (static_eval (apply_move (position_of s) mv)) s.
Proof.
  rewrite !bind_run.
  set (s1 := snd (board_push mv s)).
  rewrite (evaluate_static s1). cbn [fst snd].
  f_equal. destruct s as [e tc rc].
  unfold s1, board_pop, board_push, modify. cbn [snd self time_calls rng_calls].
  now rewrite set_board_same.
Qed.

Lemma thematic_loop_run (thematic_moves : list string) (moves : list Move) :
  forall acc s,
    thematic_loop thematic_moves moves acc s =
    (acc ++ map uci
       (filter (fun mv => existsb (String.eqb (uci mv)) thematic_moves &&
                          (safety_threshold (self s) <=? trial_eval s mv))
               moves), s).
Proof.
  induction moves as [ | mv rest IH]; intros acc s.
  - cbn. now rewrite app_nil_r.
  - cbn [thematic_loop filter].
    destruct (existsb (String.eqb (uci mv)) thematic_moves); cbn [andb].
    + rewrite trial_run. rewrite !bind_run. cbn [gets fst snd].
      fold (trial_eval s mv).
      destruct (safety_threshold (self s) <=? trial_eval s mv).
      * rewrite IH. cbn [map]. now rewrite <- app_assoc.
      * apply IH.
    + apply IH.
Qed.

Lemma safe_moves_loop_run (moves : list Move) :
  forall acc s,
    safe_moves_loop (perspective_of (ai_color (self s))) moves acc s =
    (acc ++ map (fun mv => (trial_eval s mv, mv))
       (filter (fun mv => safety_threshold (self s) <=? trial_eval s mv) moves), s).
Proof.
  induction moves as [ | mv rest IH]; intros acc s.
  - cbn. now rewrite app_nil_r.
  - cbn [safe_moves_loop filter].
    rewrite trial_run. rewrite !bind_run. cbn [gets fst snd].
    fold (trial_eval s mv).
    destruct (safety_threshold (self s) <=? trial_eval s mv).
    + rewrite IH. cbn [map]. now rewrite <- app_assoc.
    + apply IH.
Qed.

(** X7: the safety net of [get_best_move], for an agent with a colour and
    a proposed move [bm].  The machine is left as it was.  The proposal
    stands when its trial reaches the safety threshold, and when no legal
    move's trial does.  Otherwise the answer is a legal move whose trial
    reaches the threshold and is the greatest among all legal moves. *)
Theorem safety_net_choice (bm : Move) (c : Color) (s : Machine) :
  ai_color (self s) = Some c ->
  move_bool bm = true ->
  snd (safety_net (Some bm) s) = s /\
  (safety_threshold (self s) <= trial_eval s bm ->
   fst (safety_net (Some bm) s) = Some bm) /\
  (trial_eval s bm < safety_threshold (self s) ->
   (forall m, In m (legal_moves (position_of s)) ->
      trial_eval s m < safety_threshold (self s)) ->
   fst (safety_net (Some bm) s) = Some bm) /\
  (trial_eval s bm < safety_threshold (self s) ->
   forall m, In m (legal_moves (position_of s)) ->
     safety_threshold (self s) <= trial_eval s m ->
     exists mv,
       fst (safety_net (Some bm) s) = Some mv /\
       In mv (legal_moves (position_of s)) /\
       safety_threshold (self s) <= trial_eval s mv /\
       forall m', In m' (legal_moves (position_of s)) ->
         trial_eval s m' <= trial_eval s mv).
Proof.
  intros Hai Hmb.
  unfold safety_net. rewrite bind_run. cbn [gets fst snd].
  rewrite Hai, Hmb, trial_run, bind_run. cbn [gets fst snd].
  rewrite <- Hai. fold (trial_eval s bm).
  destruct (Z.ltb_spec (trial_eval s bm) (safety_threshold (self s))) as [Hlow | Hok].
  - rewrite !bind_run. cbn [board_legal_moves gets fst snd].
    change (position (board (self s))) with (position_of s).
    rewrite safe_moves_loop_run. cbn [fst snd app].
    set (safe := map _ (filter _ (legal_moves (position_of s)))).
    assert (Hsafe : forall x, In x safe <->
              In (snd x) (legal_moves (position_of s)) /\
              safety_threshold (self s) <= trial_eval s (snd x) /\
              fst x = trial_eval s (snd x)).
    { intros [v m]. unfold safe. rewrite in_map_iff. cbn [fst snd]. split.
      - intros (m' & [= <- <-] & Hm'). apply filter_In in Hm'.
        destruct Hm' as [Hin Hle]. apply Z.leb_le in Hle. auto.
      - intros (Hin & Hle & ->). exists m. split; [reflexivity | ].
        apply filter_In. split; [exact Hin | now apply Z.leb_le]. }
    pose proof (sort_desc_perm safe) as Hperm.
    pose proof (fun d => sort_desc_head safe d) as Hhead.
    destruct (sort_desc safe) as [ | [v mv] rest] eqn:Hsort; cbn [ret fst snd].
    + apply Permutation_nil in Hperm.
      refine (conj eq_refl (conj _ (conj _ _))); [reflexivity | reflexivity | ].
      intros _ m Hin Hle. exfalso.
      assert (Hmem : In (trial_eval s m, m) safe) by (apply Hsafe; auto).
      rewrite Hperm in Hmem. exact Hmem.
    + assert (Hmv : In (v, mv) safe).
      { apply (Permutation_in _ Hperm). now left. }
      apply Hsafe in Hmv. cbn [fst snd] in Hmv. destruct Hmv as (Hin & Hle & ->).
      refine (conj eq_refl (conj _ (conj _ _))).
      * intros Habs. lia.
      * intros _ Hnone. specialize (Hnone mv Hin). lia.
      * intros _ m _ _. exists mv. repeat split; [exact Hin | exact Hle | ].
        intros m' Hin'.
        destruct (Z.le_gt_cases (safety_threshold (self s)) (trial_eval s m')) as [Hs | Hs];
          [ | lia].
        assert (Hmem : In (trial_eval s m', m') safe) by (apply Hsafe; auto).
        specialize (Hhead (0, mv) _ Hmem). cbn [hd fst] in Hhead. exact Hhead.
  - cbn [ret fst snd].
    refine (conj eq_refl (conj _ (conj _ _))); [reflexivity | intros; lia | intros; lia].
Qed.

(** ** Quiescence inside its window *)

Lemma quiescence_value_loop_grows value p moves best :
  score_leb best (quiescence_value_loop value p moves best) = true.
Proof.
  revert best. induction moves as [ | mv rest IH]; intros best; cbn.
  - apply score_le_refl.
  - destruct (negb (is_capture p mv)); [apply IH | ].
    destruct (score_ltb best (score_neg (value (apply_move p mv)))) eqn:E.
    + eapply score_leb_trans; [ | apply IH]. apply score_lt_le, E.
    + apply IH.
Qed.

Lemma scoped_position {A} (mv : Move) (body : M A) (s : Machine) :
  keeps_game body ->
  position_of (snd (board_pop (snd (body (snd (board_push mv s))))))
    = position_of s.
Proof.
  intros Hbody.
  pose proof (game_of_board _ _ (Hbody (snd (board_push mv s)))) as Hb.
  unfold position_of, board_pop, modify. cbn [snd self].
  destruct (snd (body (snd (board_push mv s)))) as [[b h r ai mt stt n th] tc rc].
  cbn [self board set_board] in Hb |- *. subst b.
  change (board (self (snd (board_push mv s)))) with (push (board (self s)) mv).
  now rewrite pop_push.
Qed.

(** The loop of [quiescence]: [v] is the best value met so far and the
    running [alpha] is the greater of [v] and the entry bound. *)
Lemma quiescence_loop_value (recurse : score -> score -> M score)
    (value : Position -> score) (alpha beta : score) :
  (forall a b, keeps_game (recurse a b)) ->
  (forall a b s, score_lt a b ->
     fst (recurse a b s) = score_clamp (value (position_of s)) a b) ->
  forall moves a v s,
    a = (if score_ltb alpha v then v else alpha) ->
    score_lt a beta ->
    fst (quiescence_loop recurse moves a beta s)
      = score_clamp (quiescence_value_loop value (position_of s) moves v) alpha beta.
Proof.
  intros Hkeep Hrec.
  induction moves as [ | mv rest IH]; intros a v s Ha Hlt.
  - cbn. subst a. revert Hlt. score_order.
  - cbn [quiescence_loop quiescence_value_loop].
    rewrite bind_run. cbn [the_position gets fst snd].
    fold (position_of s).
    destruct (negb (is_capture (position_of s) mv)); [now apply IH | ].
    rewrite !bind_run.
    set (s1 := snd (board_push mv s)).
    assert (Hp1 : position_of s1 = apply_move (position_of s) mv) by reflexivity.
    assert (Hwin : score_lt (score_neg beta) (score_neg a)).
    { unfold score_lt. now rewrite score_ltb_neg. }
    rewrite (Hrec _ _ s1 Hwin), Hp1, (score_clamp_neg _ a beta Hlt).
    set (c := score_neg (value (apply_move (position_of s) mv))).
    set (s3 := snd (board_pop (snd (recurse (score_neg beta) (score_neg a) s1)))).
    assert (Hp3 : position_of s3 = position_of s).
    { apply scoped_position, Hkeep. }
    clearbody c s3. clear Hwin Hp1 s1.
    destruct (score_leb beta (score_clamp c a beta)) eqn:Hcut.
    + cbn [ret fst].
      pose proof (quiescence_value_loop_grows value (position_of s) rest
                    (if score_ltb v c then c else v)) as Hgrow.
      revert Hgrow. generalize (quiescence_value_loop value (position_of s) rest
                    (if score_ltb v c then c else v)). intros V Hgrow.
      clear IH Hrec Hkeep. subst a. revert Hlt Hcut Hgrow. score_order.
    + destruct (score_ltb a (score_clamp c a beta)) eqn:Hraise.
      * rewrite (IH (score_clamp c a beta) (if score_ltb v c then c else v) s3), Hp3.
        -- reflexivity.
        -- clear IH Hrec Hkeep. subst a. revert Hlt Hcut Hraise. score_order.
        -- clear IH Hrec Hkeep. subst a. revert Hlt Hcut Hraise. score_order.
      * rewrite (IH a (if score_ltb v c then c else v) s3), Hp3.
        -- reflexivity.
        -- clear IH Hrec Hkeep. subst a. revert Hlt Hcut Hraise. score_order.
        -- exact Hlt.
Qed.

Lemma quiescence_plies_value (plies : nat) :
  forall alpha beta s,
    score_lt alpha beta ->
    fst (quiescence_plies plies alpha beta s)
      = score_clamp (quiescence_value plies (position_of s)) alpha beta.
Proof.
  induction plies as [ | plies IH]; intros alpha beta s Hlt.
  - cbn [quiescence_plies quiescence_value].
    rewrite !bind_run.
    set (s1 := snd (count_node s)).
    rewrite (evaluate_static s1). cbn [fst snd board_turn gets].
    change (position (board (self s1))) with (position_of s).
    change (position_of s1) with (position_of s).
    fold (stand_pat_of (position_of s)).
    generalize (stand_pat_of (position_of s)). intros sp.
    destruct (score_leb beta sp) eqn:Hcut; cbn [ret fst];
      revert Hlt Hcut; score_order.
  - cbn [quiescence_plies quiescence_value].
    rewrite !bind_run.
    set (s1 := snd (count_node s)).
    rewrite (evaluate_static s1). cbn [fst snd board_turn gets].
    change (position (board (self s1))) with (position_of s).
    change (position_of s1) with (position_of s).
    fold (stand_pat_of (position_of s)).
    pose proof (quiescence_value_loop_grows (quiescence_value plies)
                  (position_of s) (legal_moves (position_of s))
                  (stand_pat_of (position_of s))) as Hgrow.
    destruct (score_leb beta (stand_pat_of (position_of s))) eqn:Hcut.
    + cbn [ret fst]. revert Hgrow Hlt Hcut.
      generalize (quiescence_value_loop (quiescence_value plies)
                  (position_of s) (legal_moves (position_of s))
                  (stand_pat_of (position_of s))).
      generalize (stand_pat_of (position_of s)). intros sp V.
      score_order.
    + rewrite bind_run. cbn [board_legal_moves gets fst snd].
      change (position (board (self s1))) with (position_of s).
      rewrite (quiescence_loop_value (quiescence_plies plies)
                 (quiescence_value plies) alpha beta
                 (keeps_quiescence_plies plies) IH
                 _ _ (stand_pat_of (position_of s)) s1 eq_refl).
      * reflexivity.
      * revert Hlt Hcut. generalize (stand_pat_of (position_of s)). intros sp.
        score_order.
Qed.

(** X8: the cuts of [quiescence] lose nothing inside the window.  Called
    with [alpha < beta], it answers the value of the capture search that
    passes no bound down and cuts nothing ([quiescence_value], with the
    same limit of plies), brought into the window: [beta] when that value
    reaches [beta], [alpha] when it does not exceed [alpha], and the value
    itself in between. *)
Theorem quiescence_alpha_beta (alpha beta : score) (depth : nat) (s : Machine) :
  score_lt alpha beta ->
  fst (quiescence alpha beta depth s)
    = score_clamp (quiescence_value (5 - depth) (position_of s)) alpha beta.
Proof. apply quiescence_plies_value. Qed.

(** ** Finite scores *)

Lemma quiescence_loop_finite recurse moves :
  (forall a b s, a <> PosInf -> b <> NegInf -> is_finite (fst (recurse a b s))) ->
  forall alpha beta s,
    is_finite alpha -> beta <> NegInf ->
    is_finite (fst (quiescence_loop recurse moves alpha beta s)).
Proof.
  intros Hrec. induction moves as [ | mv rest IH]; intros alpha beta s Ha Hb.
  - exact Ha.
  - cbn [quiescence_loop]. rewrite bind_run. cbn [the_position gets fst snd].
    destruct (negb _); [now apply IH | ].
    rewrite !bind_run.
    set (r := fst (recurse (score_neg beta) (score_neg alpha) _)).
    assert (Hr : is_finite (score_neg r)).
    { apply finite_neg, Hrec.
      - destruct beta; cbn; congruence.
      - destruct Ha as [q ->]. discriminate. }
    destruct (score_leb beta (score_neg r)) eqn:Hcut.
    + cbn [ret fst]. exact (finite_cut _ _ Hb Hr Hcut).
    + destruct (score_ltb alpha (score_neg r)); now apply IH.
Qed.

Lemma quiescence_plies_finite plies :
  forall alpha beta s,
    alpha <> PosInf -> beta <> NegInf ->
    is_finite (fst (quiescence_plies plies alpha beta s)).
Proof.
  induction plies as [ | plies IH]; intros alpha beta s Ha Hb;
    cbn [quiescence_plies]; rewrite !bind_run; cbn [board_turn gets fst snd];
    match goal with
    | |- context [score_leb beta (of_int ?z)] =>
        pose proof (finite_of_int z) as Hsp; generalize dependent (of_int z); intros sp Hsp
    end;
    destruct (score_leb beta sp) eqn:Hcut;
    try (cbn [ret fst]; exact (finite_cut _ _ Hb Hsp Hcut)).
  - cbn [ret fst]. now apply finite_raise.
  - rewrite bind_run. apply quiescence_loop_finite; [exact IH | | exact Hb].
    now apply finite_raise.
Qed.

Lemma minimax_leaf_finite alpha beta s :
  alpha <> PosInf -> beta <> NegInf ->
  is_finite (fst (fst (minimax_leaf alpha beta s))).
Proof.
  intros Ha Hb. unfold minimax_leaf. rewrite !bind_run. cbn [board_turn gets ret fst snd].
  pose proof (quiescence_plies_finite (5 - 0) alpha beta s Ha Hb) as Hq.
  fold (quiescence alpha beta 0) in Hq.
  destruct (turn _); [exact Hq | now apply finite_neg].
Qed.

Lemma max_loop_finite recurse moves :
  (forall a b mx s, a <> PosInf -> b <> NegInf ->
     is_finite (fst (fst (recurse a b mx s)))) ->
  forall alpha beta max_eval best s,
    alpha <> PosInf -> beta <> NegInf ->
    (max_eval = NegInf /\ moves <> []) \/ (is_finite max_eval /\ best <> None) ->
    is_finite (fst (fst (max_loop recurse moves alpha beta max_eval best s))) /\
    snd (fst (max_loop recurse moves alpha beta max_eval best s)) <> None.
Proof.
  intros Hrec. induction moves as [ | mv rest IH];
    intros alpha beta max_eval best s Ha Hb Hinv.
  - cbn. destruct Hinv as [[_ Hne] | Hfin]; [contradiction | exact Hfin].
  - cbn [max_loop]. rewrite !bind_run.
    set (r := fst (recurse alpha beta false _)).
    assert (Hr : is_finite (fst r)) by (apply Hrec; assumption).
    set (s' := snd (board_pop _)).
    assert (Hnext : exists max_eval' best',
              (if score_ltb max_eval (fst r) then (fst r, Some mv) else (max_eval, best))
                = (max_eval', best') /\ is_finite max_eval' /\ best' <> None).
    { destruct Hinv as [[-> _] | [Hfin Hbest]].
      - destruct Hr as [q Hq]. rewrite Hq. cbn.
        exists (Fin q), (Some mv). repeat split; [now exists q | discriminate].
      - destruct (score_ltb max_eval (fst r)).
        + exists (fst r), (Some mv). repeat split; [exact Hr | discriminate].
        + exists max_eval, best. auto. }
    destruct Hnext as (max_eval' & best' & -> & Hfin & Hbest).
    destruct (score_leb beta (score_max alpha (fst r))).
    + cbn. auto.
    + apply IH; [now apply score_max_lower | exact Hb | right; auto].
Qed.

Lemma min_loop_finite recurse moves :
  (forall a b mx s, a <> PosInf -> b <> NegInf ->
     is_finite (fst (fst (recurse a b mx s)))) ->
  forall alpha beta min_eval best s,
    alpha <> PosInf -> beta <> NegInf ->
    (min_eval = PosInf /\ moves <> []) \/ (is_finite min_eval /\ best <> None) ->
    is_finite (fst (fst (min_loop recurse moves alpha beta min_eval best s))) /\
    snd (fst (min_loop recurse moves alpha beta min_eval best s)) <> None.
Proof.
  intros Hrec. induction moves as [ | mv rest IH];
    intros alpha beta min_eval best s Ha Hb Hinv.
  - cbn. destruct Hinv as [[_ Hne] | Hfin]; [contradiction | exact Hfin].
  - cbn [min_loop]. rewrite !bind_run.
    set (r := fst (recurse alpha beta true _)).
    assert (Hr : is_finite (fst r)) by (apply Hrec; assumption).
    set (s' := snd (board_pop _)).
    assert (Hnext : exists min_eval' best',
              (if score_ltb (fst r) min_eval then (fst r, Some mv) else (min_eval, best))
                = (min_eval', best') /\ is_finite min_eval' /\ best' <> None).
    { destruct Hinv as [[-> _] | [Hfin Hbest]].
      - destruct Hr as [q Hq]. rewrite Hq. cbn.
        exists (Fin q), (Some mv). repeat split; [now exists q | discriminate].
      - destruct (score_ltb (fst r) min_eval).
        + exists (fst r), (Some mv). repeat split; [exact Hr | discriminate].
        + exists min_eval, best. auto. }
    destruct Hnext as (min_eval' & best' & -> & Hfin & Hbest).
    destruct (score_leb (score_min beta (fst r)) alpha).
    + cbn. auto.
    + apply IH; [exact Ha | now apply score_min_upper | right; auto].
Qed.

(** ** Lines of legal moves *)

Lemma legal_line_app (p : Position) (a b : list Move) :
  legal_line p (a ++ b) <->
  legal_line p a /\ legal_line (fold_left apply_move a p) b.
Proof.
  revert p. induction a as [ | m a IH]; intros p; cbn [app legal_line fold_left].
  - tauto.
  - rewrite IH. tauto.
Qed.

Lemma position_replay (h : list Move) (b : Board) :
  position (fold_left push h b) = fold_left apply_move h (position b).
Proof.
  revert b. induction h as [ | m h IH]; intros b; cbn [fold_left]; [reflexivity | ].
  now rewrite IH.
Qed.

Lemma line_of_game (s s' : Machine) :
  game_of s' = game_of s -> line_of (self s') = line_of (self s).
Proof.
  unfold game_of, line_of. intros H. injection H as _ Hh Hr _. now rewrite Hh, Hr.
Qed.

(** The stacks of a board that replays a line. *)
Lemma stacks_replay (h : list Move) :
  forall b0,
    move_stack (fold_left push h b0)
      = rev (stack_line (position b0) h) ++ move_stack b0 /\
    List.length (stack (fold_left push h b0))
      = (List.length h + List.length (stack b0))%nat.
Proof.
  induction h as [ | m h IH]; intros b0;
    cbn [fold_left stack_line rev List.length app].
  - auto.
  - destruct (IH (push b0 m)) as [Hm Hl]. rewrite Hm, Hl.
    cbn [push position move_stack stack List.length].
    split; [now rewrite <- app_assoc | lia].
Qed.

(** *** The steps that keep the session invariant *)

Lemma invariant_game (s s' : Machine) :
  game_of s' = game_of s ->
  session_invariant (self s) -> session_invariant (self s').
Proof.
  intros Hgame [Hcons Hline]. split.
  - exact (consistent_game s s' Hgame Hcons).
  - now rewrite (line_of_game s s' Hgame).
Qed.

Lemma invariant_reset (s : Machine) : session_invariant (self (snd (reset s))).
Proof. split; [reflexivity | exact I]. Qed.

Lemma invariant_ai_color (o : option Color) (s : Machine) :
  session_invariant (self s) ->
  session_invariant (self (snd (modify (set_ai_color_field o) s))).
Proof. destruct s as [[b h r ai mt stt n th] tc rc]. intros H. exact H. Qed.

Lemma invariant_make_move (code : string) (s : Machine) :
  session_invariant (self s) ->
  session_invariant (self (snd (make_move code s))).
Proof.
  intros [Hcons Hline]. unfold make_move.
  destruct (from_uci code) as [mv | ]; [ | now split].
  rewrite bind_run. cbn [the_position gets fst snd].
  destruct (is_legal _ mv) eqn:Hin; [ | now split].
  rewrite !bind_run. unfold session_invariant, consistent, line_of in *.
  cbn [modify ret fst snd self board_push set_board set_move_history
       set_redo_stack board move_history redo_stack rev].
  split.
  - now rewrite fold_left_app, <- Hcons.
  - rewrite app_nil_r.
    apply legal_line_app in Hline. destruct Hline as [Hline _].
    apply legal_line_app. split; [exact Hline | ].
    cbn [legal_line]. split; [ | exact I].
    rewrite Hcons, position_replay in Hin. exact Hin.
Qed.

Lemma invariant_undo_move (s : Machine) :
  session_invariant (self s) ->
  session_invariant (self (snd (undo_move s))).
Proof.
  intros [Hcons Hline]. split; [ | now rewrite undo_move_line].
  unfold undo_move. rewrite bind_run. cbn [gets fst snd].
  pose proof (list_pop_spec (move_history (self s))) as Hpop.
  destruct (list_pop (move_history (self s))) as [[rest mv] | ]; [ | exact Hcons].
  rewrite !bind_run. unfold consistent in *. cbn.
  rewrite Hpop, fold_left_app in Hcons. cbn in Hcons. rewrite Hcons. apply pop_push.
Qed.

Lemma invariant_redo_move (s : Machine) :
  session_invariant (self s) ->
  session_invariant (self (snd (redo_move s))).
Proof.
  intros [Hcons Hline]. split; [ | now rewrite redo_move_line].
  unfold redo_move. rewrite bind_run. cbn [gets fst snd].
  destruct (list_pop (redo_stack (self s))) as [[rest mv] | ]; [ | exact Hcons].
  rewrite !bind_run. unfold consistent in *. cbn.
  now rewrite fold_left_app, <- Hcons.
Qed.

Section FurtherSelector.

Variable env : Env.

(** X9: the search hands the game back as it received it.  Whatever the
    depth, the window, the clock and the random source, after
    [get_best_move], [minimax] and [quiescence] the board (with its stacks),
    the played history, the undone stack and the agent's colour are what
    they were: every [push] met its [pop], also on a cut and on a
    timeout. *)
Theorem search_keeps_game (s : Machine) :
  (forall depth, game_of (snd (get_best_move env depth s)) = game_of s) /\
  (forall depth alpha beta maximizing,
     game_of (snd (minimax env depth alpha beta maximizing s)) = game_of s) /\
  (forall alpha beta depth,
     game_of (snd (quiescence alpha beta depth s)) = game_of s).
Proof.
  refine (conj _ (conj _ _)).
  - intros depth. apply keeps_get_best_move.
  - intros depth alpha beta mx. apply keeps_minimax.
  - intros alpha beta depth. apply keeps_quiescence.
Qed.

(** X10: a code proposed by [_get_thematic_move] is one of the thematic
    codes given, is the code of a legal move, and the trial of that move
    reaches the safety threshold from the agent's side. *)
Theorem thematic_move_sound (thematic_moves : list string) (s : Machine)
    (code : string) :
  fst (_get_thematic_move env thematic_moves s) = Some code ->
  In code thematic_moves /\
  exists mv,
    In mv (legal_moves (position_of s)) /\ uci mv = code /\
    safety_threshold (self s) <= trial_eval s mv.
Proof.
  unfold _get_thematic_move.
  rewrite bind_run. cbn [board_legal_moves gets fst snd].
  rewrite bind_run, thematic_loop_run. cbn [fst snd app].
  change (position (board (self s))) with (position_of s).
  set (chosen := map uci (filter _ (legal_moves (position_of s)))).
  assert (Hchosen : forall c, In c chosen ->
            In c thematic_moves /\
            exists mv, In mv (legal_moves (position_of s)) /\ uci mv = c /\
                       safety_threshold (self s) <= trial_eval s mv).
  { intros c Hc. apply in_map_iff in Hc. destruct Hc as (mv & <- & Hmv).
    apply filter_In in Hmv. destruct Hmv as [Hin Hcond].
    apply andb_true_iff in Hcond. destruct Hcond as [Hth Hsafe].
    split.
    - apply existsb_exists in Hth. destruct Hth as (c & Hc & Heq).
      apply String.eqb_eq in Heq. now rewrite Heq.
    - exists mv. repeat split; [exact Hin | now apply Z.leb_le]. }
  destruct chosen as [ | c0 rest] eqn:Hlist; [discriminate | ].
  rewrite bind_run.
  destruct (Qlt_bool _ _); [ | discriminate].
  rewrite bind_run.
  set (choice := fst (random_choice env ""%string (c0 :: rest) _)).
  assert (Hchoice : In choice (c0 :: rest)) by (apply random_choice_In; discriminate).
  clearbody choice. cbn [ret fst]. intros [= <-]. now apply Hchosen.
Qed.

(** *** What a session keeps true *)

Lemma get_best_move_for_fen_game (fen : string) (depth : Z) (s : Machine) :
  game_of (snd (get_best_move_for_fen env fen depth s)) = game_of s.
Proof.
  unfold get_best_move_for_fen, is_valid_fen.
  rewrite bind_run. cbn [ret fst snd].
  destruct (parse_fen fen) as [p | ]; cbn [is_some negb]; [ | reflexivity].
  rewrite !bind_run. cbn [gets modify ret fst snd self].
  match goal with
  | |- context [get_best_move env depth ?x] =>
      pose proof (keeps_get_best_move env depth x) as Hk;
      destruct (get_best_move env depth x) as [res [[b h r ai mt stt n th] tc rc]]
  end.
  unfold game_of in *. cbn in Hk |- *. injection Hk as _ _ _ Hai.
  now rewrite Hai.
Qed.

Lemma invariant_get_best_move (depth : Z) (s : Machine) :
  session_invariant (self s) ->
  session_invariant (self (snd (get_best_move env depth s))).
Proof. apply invariant_game, keeps_get_best_move. Qed.

Lemma reachable_invariant (s : Machine) :
  reachable env s -> session_invariant (self s).
Proof.
  induction 1 as [tc rc | s _ _ | s o _ IH | s code _ IH | s _ IH | s _ IH
                 | s depth _ IH | s fen depth _ IH].
  - split; [reflexivity | exact I].
  - apply invariant_reset.
  - now apply invariant_ai_color.
  - now apply invariant_make_move.
  - now apply invariant_undo_move.
  - now apply invariant_redo_move.
  - now apply invariant_get_best_move.
  - exact (invariant_game _ _ (get_best_move_for_fen_game fen depth s) IH).
Qed.

Lemma reachable_legal_line (s : Machine) :
  reachable env s -> legal_line starting_position (line_of (self s)).
Proof. intros Hs. exact (proj2 (reachable_invariant s Hs)). Qed.

(** X11: what every machine of a session satisfies, a session being a
    new engine followed by any calls of [reset], [set_ai_color],
    [make_move], [undo_move], [redo_move], [get_best_move] and
    [get_best_move_for_fen].  The position is the replay of the played
    history from the start position.  The played moves followed by the
    undone ones (next to redo first) are a line of moves each in the legal
    moves of the position it is played in, by the membership test of
    [make_move], so the move that [redo_move] pushes without a test would
    pass it.  The board's own move stack is the played history as
    [Board.move_stack] spells it (a castling move accepted as the king
    taking its rook is there as the king's two-square move) and the board
    saved one position per played move, so the [pop] of [undo_move] finds
    a move to take back. *)
Theorem reachable_history (s : Machine) :
  reachable env s ->
  position_of s = fold_left apply_move (move_history (self s)) starting_position /\
  legal_line starting_position (move_history (self s) ++ rev (redo_stack (self s))) /\
  rev (move_stack (board (self s)))
    = stack_line starting_position (move_history (self s)) /\
  List.length (stack (board (self s))) = List.length (move_history (self s)).
Proof.
  intros Hs.
  destruct (reachable_invariant s Hs) as [Hcons Hline].
  unfold consistent in Hcons.
  destruct (stacks_replay (move_history (self s)) (new_board starting_position))
    as [Hm Hl].
  rewrite <- Hcons in Hm, Hl. cbn [new_board position move_stack stack List.length] in Hm, Hl.
  rewrite app_nil_r in Hm. rewrite Nat.add_0_r in Hl.
  refine (conj _ (conj Hline (conj _ Hl))).
  - unfold position_of. now rewrite Hcons, position_replay.
  - now rewrite Hm, rev_involutive.
Qed.

(** *** The handlers of the application *)

(** What the engine's operations keep, the handlers keep. *)
Lemma handlers_keep (P : Machine -> Prop) :
  (forall s, P s -> P (snd (reset s))) ->
  (forall o s, P s -> P (snd (modify (set_ai_color_field o) s))) ->
  (forall code s, P s -> P (snd (make_move code s))) ->
  (forall s, P s -> P (snd (undo_move s))) ->
  (forall s, P s -> P (snd (redo_move s))) ->
  (forall depth s, P s -> P (snd (get_best_move env depth s))) ->
  forall s, P s ->
    (forall player_color, P (snd (new_game player_color s))) /\
    (forall depth, P (snd (get_ai_move env depth s))) /\
    (forall depth, P (snd (suggest_move env depth s))) /\
    P (snd (undo_request s)) /\
    P (snd (redo_request s)).
Proof.
  intros Hreset Hcolor Hmake Hundo Hredo Hbest s Hs.
  refine (conj _ (conj _ (conj _ (conj _ _)))).
  - intros pc. unfold new_game. rewrite bind_run.
    destruct (String.eqb _ _); apply Hcolor, Hreset, Hs.
  - intros depth. unfold get_ai_move. rewrite bind_run.
    pose proof (Hbest (Z.max 1 (Z.min 5 depth)) s Hs) as H1.
    destruct (fst (get_best_move env _ s)) as [code | ]; [ | exact H1].
    destruct (str_bool code); [ | exact H1].
    rewrite bind_run. cbn [ret snd]. apply Hmake, H1.
  - intros depth. unfold suggest_move. rewrite !bind_run. cbn [gets fst snd].
    match goal with
    | |- P (snd (match ?o with _ => _ end ?x)) =>
        assert (Hx : P x);
        [ | destruct o as [code | ]; [destruct (str_bool code) | ]; exact Hx]
    end.
    apply Hcolor, Hbest, Hcolor, Hs.
  - unfold undo_request. rewrite bind_run.
    pose proof (Hundo s Hs) as H1.
    destruct (fst (undo_move s)) as [code | ]; [ | exact H1].
    destruct (str_bool code); [ | exact H1].
    rewrite bind_run. cbn [gets fst snd].
    destruct (ai_color _); [ | exact H1].
    rewrite !bind_run. cbn [gets board_turn fst snd].
    destruct (move_history _); [exact H1 | ].
    destruct (negb _); [ | exact H1].
    rewrite bind_run. cbn [ret snd]. apply Hundo, H1.
  - unfold redo_request. rewrite bind_run.
    pose proof (Hredo s Hs) as H1.
    destruct (fst (redo_move s)); exact H1.
Qed.

(** X12: the handlers of [app.py] keep the session invariant.  On an
    engine whose position is the replay of its played history and whose
    played moves followed by its undone ones are a line of moves each in
    the legal moves of the position it is played in, the same holds after
    [new_game], [get_ai_move], [suggest_move], the undo request and the
    redo request, whatever the request carries, the clock reads and the
    random source draws. *)
Theorem handlers_keep_sessions (s : Machine) :
  session_invariant (self s) ->
  (forall player_color, session_invariant (self (snd (new_game player_color s)))) /\
  (forall depth, session_invariant (self (snd (get_ai_move env depth s)))) /\
  (forall depth, session_invariant (self (snd (suggest_move env depth s)))) /\
  session_invariant (self (snd (undo_request s))) /\
  session_invariant (self (snd (redo_request s))).
Proof.
  apply (handlers_keep (fun s => session_invariant (self s))).
  - intros s0 _. apply invariant_reset.
  - intros o s0. apply invariant_ai_color.
  - intros code s0. apply invariant_make_move.
  - apply invariant_undo_move.
  - apply invariant_redo_move.
  - intros depth s0. apply invariant_get_best_move.
Qed.

(** X13: the undo request of [app.py], in a session where the agent has a
    colour and the rules pass the turn with every move.  It succeeds
    exactly when a move has been played.  When it succeeds it stops with
    the agent to move, or with no played move left: it takes one move back
    and, when that leaves the agent's opponent to move, a second one. *)
Theorem undo_request_turn (s : Machine) (c : Color) :
  (forall p m, turn (apply_move p m) = opposite (turn p)) ->
  reachable env s ->
  ai_color (self s) = Some c ->
  (fst (undo_request s) = true <-> move_history (self s) <> []) /\
  (fst (undo_request s) = true ->
   turn (position_of (snd (undo_request s))) = c \/
   move_history (self (snd (undo_request s))) = []).
Proof.
  intros Hturn Hs Hai.
  unfold undo_request. rewrite bind_run.
  pose proof (reach_undo_move Hs) as Hs1.
  destruct (undo_move_run s) as [[Hh Hrun] | (rest & mv & Hh & Hres & Hh1 & Hb1 & Hai1)].
  - rewrite Hrun. cbn [fst snd ret]. split; [ | discriminate].
    split; [discriminate | intros Hne; contradiction].
  - rewrite Hres, uci_nonempty. rewrite bind_run. cbn [gets fst snd].
    rewrite Hai1, Hai. rewrite !bind_run. cbn [gets board_turn fst snd].
    fold (position_of (snd (undo_move s))).
    split.
    { split; [intros _; rewrite Hh; now destruct rest | intros _].
      destruct (move_history (self (snd (undo_move s)))); [reflexivity | ].
      destruct (negb _); [rewrite bind_run | ]; reflexivity. }
    intros _.
    destruct (move_history (self (snd (undo_move s)))) as [ | m0 h0] eqn:Hh1';
      [cbn [ret snd]; now right | ].
    destruct (color_eqb (turn (position_of (snd (undo_move s)))) c) eqn:Hc; cbn [negb].
    + cbn [ret snd]. left.
      destruct (turn _), c; cbn in Hc; congruence.
    + rewrite bind_run. cbn [ret snd]. left.
      pose proof (reachable_consistent env _ Hs1) as Hcons1.
      unfold consistent in Hcons1.
      destruct (undo_move_run (snd (undo_move s)))
        as [[Hnil _] | (rest' & mv' & Hh2 & _ & _ & Hb2 & _)]; [congruence | ].
      unfold position_of at 1. rewrite Hb2.
      unfold position_of in Hc. rewrite Hcons1, Hh2, fold_left_app in Hc |- *.
      cbn [fold_left] in Hc |- *. rewrite pop_push.
      cbn [push position] in Hc. rewrite Hturn in Hc.
      destruct (turn _), c; cbn in Hc |- *; congruence.
Qed.

(** X14: [get_ai_move] of [app.py], on a position whose legal moves are
    moves between two distinct squares and which is over when it has no
    legal move.  When the game is over it answers nothing and changes
    nothing.  Otherwise it answers the code of a legal move and has played
    that move: the [make_move] whose result it does not look at was
    accepted, the board holds the position after the move, the played
    history is longer by that move and nothing is left to redo. *)
Theorem get_ai_move_plays (depth : Z) (s : Machine) :
  (forall m, In m (legal_moves (position_of s)) -> well_formed_move m) ->
  (legal_moves (position_of s) = [] -> is_game_over (board (self s)) = true) ->
  (is_game_over (board (self s)) = true -> get_ai_move env depth s = (None, s)) /\
  (is_game_over (board (self s)) = false ->
   exists code m,
     fst (get_ai_move env depth s) = Some code /\
     from_uci code = Some m /\
     In m (legal_moves (position_of s)) /\
     board (self (snd (get_ai_move env depth s))) = push (board (self s)) m /\
     move_history (self (snd (get_ai_move env depth s))) = move_history (self s) ++ [m] /\
     redo_stack (self (snd (get_ai_move env depth s))) = [] /\
     ai_color (self (snd (get_ai_move env depth s))) = ai_color (self s)).
Proof.
  intros Hwf Hover. unfold get_ai_move. split.
  - intros Hend. rewrite bind_run.
    now rewrite (get_best_move_over env _ s Hend).
  - intros Hlive.
    assert (Hne : legal_moves (position_of s) <> []).
    { intros Hnil. apply Hover in Hnil. congruence. }
    destruct (get_best_move_some env (Z.max 1 (Z.min 5 depth)) s Hlive Hwf Hne)
      as (code & m & Hres & Hparse & Hin).
    exists code, m.
    rewrite bind_run, Hres, (from_uci_nonempty code m Hparse), bind_run.
    cbn [ret fst snd].
    pose proof (keeps_get_best_move env (Z.max 1 (Z.min 5 depth)) s) as Hk.
    set (s1 := snd (get_best_move env (Z.max 1 (Z.min 5 depth)) s)) in *.
    unfold game_of in Hk. injection Hk as Hb Hh Hr Hai.
    refine (conj eq_refl (conj Hparse (conj Hin _))).
    unfold make_move. rewrite Hparse, bind_run.
    cbn [the_position gets fst snd]. rewrite Hb.
    change (position (board (self s))) with (position_of s).
    rewrite (is_legal_listed _ m Hin). rewrite !bind_run.
    cbn [modify ret fst snd self board_push set_board set_move_history
         set_redo_stack board move_history redo_stack ai_color].
    rewrite Hb, Hh, Hai. auto.
Qed.

(** X15: [suggest_move] of [app.py] hands the game back as it received
    it, the agent's colour included, which it sets to the side to move
    while it searches.  It answers nothing when the game is over, and
    otherwise, on a position whose legal moves are moves between two
    distinct squares and which is over when it has no legal move, the code
    of a legal move. *)
Theorem suggest_move_frame (depth : Z) (s : Machine) :
  game_of (snd (suggest_move env depth s)) = game_of s /\
  (is_game_over (board (self s)) = true -> fst (suggest_move env depth s) = None) /\
  ((forall m, In m (legal_moves (position_of s)) -> well_formed_move m) ->
   (legal_moves (position_of s) = [] -> is_game_over (board (self s)) = true) ->
   is_game_over (board (self s)) = false ->
   exists code m,
     fst (suggest_move env depth s) = Some code /\
     from_uci code = Some m /\ In m (legal_moves (position_of s))).
Proof.
  unfold suggest_move. rewrite !bind_run. cbn [gets board_turn fst snd].
  set (s0 := snd (modify (set_ai_color_field (Some (turn (position (board (self s)))))) s)).
  assert (Hb0 : board (self s0) = board (self s)) by reflexivity.
  assert (Hp0 : position_of s0 = position_of s) by reflexivity.
  pose proof (keeps_get_best_move env (Z.max 1 (Z.min 5 depth)) s0) as Hk.
  set (r := get_best_move env (Z.max 1 (Z.min 5 depth)) s0) in *.
  refine (conj _ (conj _ _)).
  - assert (Hgame : game_of (snd (modify (set_ai_color_field (ai_color (self s))) (snd r)))
                    = game_of s).
    { unfold game_of in *. injection Hk as Hb Hh Hr _.
      cbn [modify snd self set_ai_color_field board move_history redo_stack ai_color].
      rewrite Hb, Hh, Hr. reflexivity. }
    destruct (fst r) as [code | ]; [destruct (str_bool code) | ]; exact Hgame.
  - intros Hend. unfold r.
    rewrite (get_best_move_over env _ s0 Hend). reflexivity.
  - intros Hwf Hover Hlive.
    assert (Hne : legal_moves (position_of s0) <> []).
    { rewrite Hp0. intros Hnil. apply Hover in Hnil. congruence. }
    destruct (get_best_move_some env (Z.max 1 (Z.min 5 depth)) s0 Hlive Hwf Hne)
      as (code & m & Hres & Hparse & Hin).
    exists code, m. fold r in Hres.
    rewrite Hres, (from_uci_nonempty code m Hparse). auto.
Qed.

(** *** The book on a foreign position *)

(** X16: [get_best_move_for_fen] consults the opening book with the
    history of the session, not of the position it is asked about.  In a
    session without played moves whose agent has White, it answers the
    book move [c2c4] for every valid FEN of a game not over in which that
    move is legal, whatever the position, the depth, the clock and the
    random source. *)
Theorem get_best_move_for_fen_book (fen : string) (depth : Z) (s : Machine)
    (p : Position) :
  parse_fen fen = Some p ->
  ai_color (self s) = Some WHITE ->
  move_history (self s) = [] ->
  is_game_over (new_board p) = false ->
  In (move 10%nat 26%nat) (legal_moves p) ->
  fst (get_best_move_for_fen env fen depth s) = Some "c2c4"%string.
Proof.
  intros Hparse Hai Hh Hlive Hin.
  unfold get_best_move_for_fen, is_valid_fen.
  rewrite bind_run. cbn [ret fst snd]. rewrite Hparse. cbn [is_some negb].
  rewrite !bind_run. cbn [gets modify ret fst snd self].
  set (s1 := mkMachine (set_board (new_board p) (self s)) (time_calls s) (rng_calls s)).
  assert (Hbest : fst (get_best_move env depth s1) = Some "c2c4"%string).
  { unfold get_best_move. rewrite bind_run. cbn [gets fst snd].
    change (board (self s1)) with (new_board p). rewrite Hlive.
    rewrite bind_run.
    assert (Hopen : fst (get_opening_move env s1) = Some "c2c4"%string /\
                    position_of (snd (get_opening_move env s1)) = p).
    { unfold get_opening_move, get_move_history_uci.
      rewrite !bind_run. cbn [gets ret fst snd].
      change (move_history (self s1)) with (move_history (self s)).
      change (ai_color (self s1)) with (ai_color (self s)).
      rewrite Hh, Hai. cbn [map String.concat book_get ENGLISH_OPENING String.eqb].
      rewrite bind_run. split; [ | reflexivity].
      unfold random_choice. cbn [fst ret List.length].
      rewrite Nat.mod_1_r. reflexivity. }
    destruct Hopen as [Hcode Hpos].
    rewrite Hcode. rewrite bind_run. cbn [the_position gets fst snd].
    fold (position_of (snd (get_opening_move env s1))). rewrite Hpos.
    change (from_uci "c2c4") with (Some (move 10%nat 26%nat)).
    cbn [str_bool String.eqb negb].
    rewrite (is_legal_listed _ _ Hin). reflexivity. }
  rewrite Hbest. reflexivity.
Qed.

(** *** The search proposes a move *)

Section NoMovesIsOver.

Hypothesis no_moves_is_over :
  forall b, legal_moves (position b) = [] -> is_game_over b = true.

Lemma minimax_inner_finite
    (recurse : score -> score -> bool -> M (score * option Move))
    alpha beta (maximizing : bool) s :
  (forall a b mx s, a <> PosInf -> b <> NegInf ->
     is_finite (fst (fst (recurse a b mx s)))) ->
  alpha <> PosInf -> beta <> NegInf ->
  let r := fst ((b <- gets board ;;
             if is_game_over b then minimax_leaf alpha beta
             else
               legal <- board_legal_moves ;;
               moves <- order_moves legal ;;
               if maximizing
               then max_loop recurse moves alpha beta NegInf None
               else min_loop recurse moves alpha beta PosInf None) s) in
  is_finite (fst r) /\
  (is_game_over (board (self s)) = false -> snd r <> None).
Proof.
  intros Hrec Ha Hb. cbv zeta.
  rewrite bind_run. cbn [gets fst snd].
  destruct (is_game_over (board (self s))) eqn:Hover.
  - split; [now apply minimax_leaf_finite | discriminate].
  - rewrite !bind_run. cbn [board_legal_moves gets fst snd].
    assert (Hne : fst (order_moves (legal_moves (position (board (self s)))) s) <> []).
    { intros Hnil.
      pose proof (order_moves_perm (legal_moves (position (board (self s)))) s) as Hperm.
      rewrite Hnil in Hperm. apply Permutation_nil in Hperm.
      apply no_moves_is_over in Hperm. congruence. }
    destruct maximizing.
    + destruct (max_loop_finite recurse _ Hrec alpha beta NegInf None
                  (snd (order_moves (legal_moves (position (board (self s)))) s))
                  Ha Hb (or_introl (conj eq_refl Hne))) as [Hf Hm].
      auto.
    + destruct (min_loop_finite recurse _ Hrec alpha beta PosInf None
                  (snd (order_moves (legal_moves (position (board (self s)))) s))
                  Ha Hb (or_introl (conj eq_refl Hne))) as [Hf Hm].
      auto.
Qed.

Lemma minimax_finite depth :
  forall alpha beta maximizing s,
    alpha <> PosInf -> beta <> NegInf ->
    is_finite (fst (fst (minimax env depth alpha beta maximizing s))).
Proof.
  induction depth as [ | depth IH]; intros alpha beta mx s Ha Hb;
    cbn [minimax]; rewrite !bind_run;
    cbn [gets count_node modify time_now fst snd self start_time max_time
         set_nodes_searched];
    match goal with |- context [if ?c then _ else _] => destruct c end;
    try (rewrite bind_run; cbn [ret fst]; apply finite_of_int).
  - now apply minimax_leaf_finite.
  - now apply minimax_inner_finite.
Qed.

(** X17: [minimax], under rules by which a position without legal moves
    is over, called with a lower bound that is not plus infinity and an
    upper bound that is not minus infinity.  Its score is never an
    infinity.  Called with a depth of at least 1 on a game that is not
    over, and with the clock within the budget at its own first reading,
    it proposes a move, and a legal one: the random choice of
    [get_best_move] is left for a search that timed out at its root. *)
Theorem minimax_proposes (depth : nat) (alpha beta : score) (maximizing : bool)
    (s : Machine) :
  alpha <> PosInf -> beta <> NegInf ->
  is_finite (fst (fst (minimax env depth alpha beta maximizing s))) /\
  (depth <> 0%nat ->
   is_game_over (board (self s)) = false ->
   Qlt_bool (max_time (self s))
     (time_time env (time_calls s) - start_time (self s))%Q = false ->
   exists m,
     snd (fst (minimax env depth alpha beta maximizing s)) = Some m /\
     In m (legal_moves (position_of s))).
Proof.
  intros Ha Hb. split; [now apply minimax_finite | ].
  intros Hdepth Hover Hclock.
  assert (Hsome : snd (fst (minimax env depth alpha beta maximizing s)) <> None).
  { destruct depth as [ | depth]; [contradiction | ].
    cbn [minimax]. rewrite !bind_run.
    cbn [gets count_node modify time_now fst snd self start_time max_time
         set_nodes_searched time_calls].
    rewrite Hclock.
    apply minimax_inner_finite; try assumption.
    intros a b mx s'. apply minimax_finite. }
  destruct (snd (fst (minimax env depth alpha beta maximizing s))) as [m | ] eqn:Hm;
    [ | contradiction].
  exists m. split; [reflexivity | ]. exact (minimax_move env _ _ _ _ _ _ Hm).
Qed.

End NoMovesIsOver.

End FurtherSelector.

End Further.

(** ** On the rules of chess *)

Section FurtherOnPyChess.

#[local] Existing Instance PyChess.rules.
Import Examples Games.

Lemma concat_cons (sep x : string) (l : list string) :
  exists tail, String.concat sep (x :: l) = (x ++ tail)%string.
Proof.
  destruct l as [ | y l]; cbn [String.concat].
  - exists ""%string. induction x as [ | c x IH]; cbn; [reflexivity | now rewrite <- IH].
  - eexists. reflexivity.
Qed.

(** Every first move of a game leaves a rank 1 or rank 2 square, and no
    key of White's book does. *)
Lemma first_move_off_book (m : Move) (rest : list Move) :
  In m (legal_moves starting_position) ->
  book_get (String.concat " " (map uci (m :: rest))) ENGLISH_OPENING = None.
Proof.
  intros Hin.
  assert (Hall : forallb
            (fun m => match uci m with
                      | String _ (String c2 _) => Ascii.eqb c2 "1" || Ascii.eqb c2 "2"
                      | _ => false
                      end)
            (legal_moves starting_position) = true) by (vm_compute; reflexivity).
  rewrite forallb_forall in Hall. specialize (Hall m Hin).
  cbn [map]. destruct (concat_cons " " (uci m) (map uci rest)) as [tail ->].
  destruct (uci m) as [ | c1 [ | c2 t]]; try discriminate.
  apply orb_true_iff in Hall.
  destruct Hall as [Hc | Hc]; apply Ascii.eqb_eq in Hc; subst c2;
    destruct c1 as [[] [] [] [] [] [] [] []]; reflexivity.
Qed.

Lemma chess_turn_alternates (p : Position) (m : Move) :
  turn (apply_move p m) = opposite (turn p).
Proof.
  change (turn (PyChess.apply_move p m) = opposite (turn p)).
  unfold PyChess.apply_move. cbv zeta.
  destruct (negb (move_bool (_from_chess960 p m))); reflexivity.
Qed.

(** At the start of a game no castling move is listed, so the membership
    test holds of the listed moves only. *)
Lemma first_move_listed (m : Move) :
  is_legal starting_position m = true -> In m (legal_moves starting_position).
Proof.
  unfold is_legal. intros H. apply orb_true_iff in H.
  destruct H as [H | H]; [now apply move_in_In | ].
  assert (Hnone : forallb
            (fun c => negb (move_in c (legal_moves starting_position)))
            [move E1 G1; move E1 C1; move E8 G8; move E8 C8] = true)
    by (vm_compute; reflexivity).
  cbn [forallb] in Hnone. rewrite !andb_true_iff, !negb_true_iff in Hnone.
  destruct Hnone as (H1 & H2 & H3 & H4 & _).
  destruct (from_chess960_cases starting_position m)
    as [Hsame | [(_ & _ & Hc) | [(_ & _ & Hc) | [(_ & _ & Hc) | (_ & _ & Hc)]]]];
    rewrite ?Hsame, ?Hc in H; try congruence.
  now apply move_in_In.
Qed.

(** X18: with the agent playing White in a session under the rules of
    chess, the opening book answers at the first move only.  Once a move
    has been played no key of [ENGLISH_OPENING] is the sequence of the
    played codes (the keys other than the empty one start with a move of
    Black), and [get_opening_move] is the thematic proposal during the
    first twelve plies and nothing after them. *)
Theorem english_book_first_move_only (env : Env) (s : Machine) :
  reachable env s ->
  ai_color (self s) = Some WHITE ->
  move_history (self s) <> [] ->
  get_opening_move env s =
    if (List.length (move_history (self s)) <? 12)%nat
    then _get_thematic_move env ENGLISH_THEMATIC_MOVES s
    else (None, s).
Proof.
  intros Hs Hai Hne.
  pose proof (reachable_legal_line env s Hs) as Hline.
  unfold line_of in Hline.
  destruct (move_history (self s)) as [ | m rest] eqn:Hh; [contradiction | ].
  cbn [app legal_line] in Hline. destruct Hline as [Hin _].
  unfold get_opening_move, get_move_history_uci.
  rewrite !bind_run. cbn [gets ret fst snd]. rewrite Hai, Hh.
  rewrite (first_move_off_book m rest (first_move_listed m Hin)).
  destruct (_ <? _)%nat; reflexivity.
Qed.

(** ** The theorems at concrete sessions *)

Lemma undo_after_redo_witness :
  snd (undo_move (snd (redo_move after_e4))) = after_e4.
Proof.
  apply (proj1 (undo_after_redo after_e4)). cbn. discriminate.
Defined.

Lemma line_is_kept_witness :
  line_of (self (snd (make_move "e7e6" after_e4)))
    = move_history (self after_e4) ++ [move 52%nat 44%nat].
Proof.
  apply (proj2 (proj2 (line_is_kept after_e4))); vm_compute; reflexivity.
Defined.

Lemma undo_after_make_move_witness :
  exists mv,
    from_uci "e2e4" = Some mv /\
    fst (undo_move (snd (make_move "e2e4" start))) = Some (uci mv) /\
    board (self (snd (undo_move (snd (make_move "e2e4" start))))) = board (self start) /\
    move_history (self (snd (undo_move (snd (make_move "e2e4" start)))))
      = move_history (self start) /\
    redo_stack (self (snd (undo_move (snd (make_move "e2e4" start))))) = [mv].
Proof.
  apply (undo_after_make_move "e2e4" start). vm_compute. reflexivity.
Defined.

(** Castling spelled as the king taking its rook: the code is not listed
    and [make_move] accepts it; the position is the one after [e1g1], the
    played history holds the move as it was spelled and the board's move
    stack holds the king's two-square move. *)
Example make_move_king_takes_rook :
  ~ In "e1h1"%string (fst (get_legal_moves castling_ready)) /\
  In "e1g1"%string (fst (get_legal_moves castling_ready)) /\
  fst (make_move "e1h1" castling_ready) = true /\
  position_of castled = position_of (snd (make_move "e1g1" castling_ready)) /\
  last (move_history (self castled)) (move 0%nat 0%nat) = move E1 H1 /\
  hd (move 0%nat 0%nat) (move_stack (board (self castled))) = move E1 G1.
Proof.
  refine (conj _ (conj _ (conj _ (conj _ (conj _ _))))).
  - intros H.
    assert (Hnone : existsb (String.eqb "e1h1")
                      (fst (get_legal_moves castling_ready)) = false)
      by (vm_compute; reflexivity).
    assert (Hsome : existsb (String.eqb "e1h1")
                      (fst (get_legal_moves castling_ready)) = true).
    { apply existsb_exists. exists "e1h1"%string.
      split; [exact H | apply String.eqb_refl]. }
    rewrite Hnone in Hsome. discriminate Hsome.
  - assert (H : existsb (String.eqb "e1g1") (fst (get_legal_moves castling_ready)) = true)
      by (vm_compute; reflexivity).
    apply existsb_exists in H. destruct H as (c & Hc & Heq).
    apply String.eqb_eq in Heq. rewrite Heq. exact Hc.
  - vm_compute. reflexivity.
  - vm_compute. reflexivity.
  - vm_compute. reflexivity.
  - vm_compute. reflexivity.
Qed.

Lemma make_move_accepts_listed_witness :
  fst (make_move "e1h1" castling_ready) = true <->
  In "e1h1"%string (fst (get_legal_moves castling_ready)) \/
  exists castle,
    king_takes_rook (position_of castling_ready) "e1h1" = Some castle /\
    In castle (fst (get_legal_moves castling_ready)).
Proof.
  apply (make_move_accepts_listed "e1h1" castling_ready).
  intros m. apply chess_moves_well_formed.
Defined.

Lemma safety_net_choice_witness :
  snd (safety_net (Some (move 12%nat 28%nat)) white_to_open) = white_to_open /\
  (safety_threshold (self white_to_open) <= trial_eval white_to_open (move 12%nat 28%nat) ->
   fst (safety_net (Some (move 12%nat 28%nat)) white_to_open) = Some (move 12%nat 28%nat)) /\
  (trial_eval white_to_open (move 12%nat 28%nat) < safety_threshold (self white_to_open) ->
   (forall m, In m (legal_moves (position_of white_to_open)) ->
      trial_eval white_to_open m < safety_threshold (self white_to_open)) ->
   fst (safety_net (Some (move 12%nat 28%nat)) white_to_open) = Some (move 12%nat 28%nat)) /\
  (trial_eval white_to_open (move 12%nat 28%nat) < safety_threshold (self white_to_open) ->
   forall m, In m (legal_moves (position_of white_to_open)) ->
     safety_threshold (self white_to_open) <= trial_eval white_to_open m ->
     exists mv,
       fst (safety_net (Some (move 12%nat 28%nat)) white_to_open) = Some mv /\
       In mv (legal_moves (position_of white_to_open)) /\
       safety_threshold (self white_to_open) <= trial_eval white_to_open mv /\
       forall m', In m' (legal_moves (position_of white_to_open)) ->
         trial_eval white_to_open m' <= trial_eval white_to_open mv).
Proof.
  apply (safety_net_choice (move 12%nat 28%nat) WHITE white_to_open); reflexivity.
Defined.

Lemma quiescence_alpha_beta_witness :
  fst (quiescence (of_int (-50)) (of_int 50) 0 pawn_race)
    = score_clamp (quiescence_value (5 - 0) (position_of pawn_race))
        (of_int (-50)) (of_int 50).
Proof.
  apply (quiescence_alpha_beta (of_int (-50)) (of_int 50) 0 pawn_race). reflexivity.
Defined.

Lemma thematic_move_sound_witness :
  In "g1f3"%string ENGLISH_THEMATIC_MOVES /\
  exists mv,
    In mv (legal_moves (position_of white_to_open)) /\ uci mv = "g1f3"%string /\
    safety_threshold (self white_to_open) <= trial_eval white_to_open mv.
Proof.
  apply (thematic_move_sound still_env ENGLISH_THEMATIC_MOVES white_to_open "g1f3").
  vm_compute. reflexivity.
Defined.

Lemma open_game_reachable : reachable still_env open_game.
Proof.
  unfold open_game.
  apply reach_make_move, reach_make_move.
  exact (reach_ai_color (Some BLACK) (reach_init still_env 0 0)).
Qed.

Lemma castled_reachable : reachable still_env castled.
Proof.
  unfold castled, castling_ready. cbn [fold_left].
  do 7 apply reach_make_move.
  exact (reach_init still_env 0 0).
Qed.

Lemma reachable_history_witness :
  position_of castled
    = fold_left apply_move (move_history (self castled)) starting_position /\
  legal_line starting_position
    (move_history (self castled) ++ rev (redo_stack (self castled))) /\
  rev (move_stack (board (self castled)))
    = stack_line starting_position (move_history (self castled)) /\
  List.length (stack (board (self castled)))
    = List.length (move_history (self castled)).
Proof.
  apply (reachable_history still_env castled). apply castled_reachable.
Defined.

Lemma handlers_keep_sessions_witness :
  (forall player_color, session_invariant (self (snd (new_game player_color castled)))) /\
  (forall depth, session_invariant (self (snd (get_ai_move still_env depth castled)))) /\
  (forall depth, session_invariant (self (snd (suggest_move still_env depth castled)))) /\
  session_invariant (self (snd (undo_request castled))) /\
  session_invariant (self (snd (redo_request castled))).
Proof.
  apply (handlers_keep_sessions still_env castled).
  apply (reachable_invariant still_env), castled_reachable.
Defined.

Lemma undo_request_turn_witness :
  (fst (undo_request open_game) = true <-> move_history (self open_game) <> []) /\
  (fst (undo_request open_game) = true ->
   turn (position_of (snd (undo_request open_game))) = BLACK \/
   move_history (self (snd (undo_request open_game))) = []).
Proof.
  apply (undo_request_turn still_env open_game BLACK).
  - apply chess_turn_alternates.
  - apply open_game_reachable.
  - reflexivity.
Defined.

Lemma get_ai_move_plays_witness :
  (is_game_over (board (self start)) = true ->
   get_ai_move still_env 1 start = (None, start)) /\
  (is_game_over (board (self start)) = false ->
   exists code m,
     fst (get_ai_move still_env 1 start) = Some code /\
     from_uci code = Some m /\
     In m (legal_moves (position_of start)) /\
     board (self (snd (get_ai_move still_env 1 start))) = push (board (self start)) m /\
     move_history (self (snd (get_ai_move still_env 1 start)))
       = move_history (self start) ++ [m] /\
     redo_stack (self (snd (get_ai_move still_env 1 start))) = [] /\
     ai_color (self (snd (get_ai_move still_env 1 start))) = ai_color (self start)).
Proof.
  apply (get_ai_move_plays still_env 1 start).
  - intros m. apply chess_moves_well_formed.
  - apply chess_no_moves_is_over.
Defined.

Lemma minimax_proposes_witness :
  is_finite (fst (fst (minimax still_env 1 NegInf PosInf true start))) /\
  exists m,
    snd (fst (minimax still_env 1 NegInf PosInf true start)) = Some m /\
    In m (legal_moves (position_of start)).
Proof.
  pose proof (minimax_proposes still_env chess_no_moves_is_over 1 NegInf PosInf true start)
    as H.
  destruct H as [Hfinite Hmove]; [discriminate | discriminate | ].
  split; [exact Hfinite | ].
  apply Hmove; [discriminate | vm_compute; reflexivity | reflexivity].
Defined.

Lemma get_best_move_for_fen_book_witness :
  fst (get_best_move_for_fen still_env "4k3/8/8/8/8/8/2P5/4K3 w - - 0 1" 3 white_to_open)
    = Some "c2c4"%string.
Proof.
  apply (get_best_move_for_fen_book still_env "4k3/8/8/8/8/8/2P5/4K3 w - - 0 1" 3
           white_to_open (PyChess.of_fen "4k3/8/8/8/8/8/2P5/4K3 w - - 0 1")).
  - vm_compute. reflexivity.
  - reflexivity.
  - reflexivity.
  - vm_compute. reflexivity.
  - apply move_in_In. vm_compute. reflexivity.
Defined.

Lemma white_replies_reachable : reachable still_env white_replies.
Proof.
  unfold white_replies.
  apply reach_make_move.
  exact (reach_ai_color (Some WHITE) (reach_init still_env 0 0)).
Qed.

Lemma english_book_first_move_only_witness :
  get_opening_move still_env white_replies =
    if (List.length (move_history (self white_replies)) <? 12)%nat
    then _get_thematic_move still_env ENGLISH_THEMATIC_MOVES white_replies
    else (None, white_replies).
Proof.
  apply (english_book_first_move_only still_env white_replies).
  - apply white_replies_reachable.
  - reflexivity.
  - vm_compute. discriminate.
Defined.

End FurtherOnPyChess.
